(** * go-wadjit: the watcher manager, the watcher, and the HTTP and
    WebSocket endpoint tasks, as a shallow embedding.

    Source files embedded here:
    - [task_ws.go]    (module [WS]):      WSEndpoint, readPump, wsOneHit, wsPersistent
    - [task_http.go]  (module [HTTP]):    HTTPEndpoint, httpRequest
    - the file that declares [Watcher] (module [Watcher]): Close, Job, the
      start-up and the forwarder
    - [wadjit.go]     (module [Wadjit]):  the manager and its two loops

    Every Go function that touches shared state becomes a computation in the
    monad [Go.M]: explicit state passing, with three ways to end (return,
    stay parked on a mutex / channel / wait-group, panic).  Everything the
    network, the clock or the id generator decides is an argument (an [Env]
    record), so each function can be evaluated on concrete inputs. *)

From stdpp Require Import base strings gmap list.
From Stdlib Require Import ZArith Lia Ascii.

Set Warnings "-register-all".
Open Scope Z_scope.

(* ===================================================================== *)
(** * The Go runtime, as far as the sources use it *)
(* ===================================================================== *)
Module Go.

(** How a call ends. [Blocked]: the goroutine is parked at a blocking
    operation (a [Lock], a channel operation, a [Wait]) and the call has not
    returned; the state is the one it is parked in. Whether it is woken later
    is up to the other goroutines; a call parked on a mutex that the same
    call holds, or on a nil channel, stays parked for ever. [Panicked]: a
    run-time panic. *)
Inductive outcome (A : Type) : Type :=
| Ret (a : A)
| Blocked
| Panicked.
Arguments Ret {A} a.
Arguments Blocked {A}.
Arguments Panicked {A}.

(** State passing over a state [S]; the state is also returned when the
    call is parked or panics (the writes done so far stay done). *)
Definition M (S A : Type) : Type := S → outcome A * S.

Definition ret {S A} (a : A) : M S A := λ s, (Ret a, s).

Definition bind {S A B} (m : M S A) (k : A → M S B) : M S B :=
  λ s, match m s with
       | (Ret a, s') => k a s'
       | (Blocked, s') => (Blocked, s')
       | (Panicked, s') => (Panicked, s')
       end.

Definition get {S} : M S S := λ s, (Ret s, s).
Definition modify {S} (f : S → S) : M S unit := λ s, (Ret tt, f s).
Definition block {S A} : M S A := λ s, (Blocked, s).
Definition panic {S A} : M S A := λ s, (Panicked, s).

(** [defer d body]: [d] was registered with [defer] before [body] runs.
    Deferred calls run when the function returns and when it panics, not
    when it is parked. *)
Definition defer {S A} (d : M S unit) (body : M S A) : M S A :=
  λ s, match body s with
       | (Ret a, s') =>
           match d s' with
           | (Ret _, s'') => (Ret a, s'')
           | (Blocked, s'') => (Blocked, s'')
           | (Panicked, s'') => (Panicked, s'')
           end
       | (Blocked, s') => (Blocked, s')
       | (Panicked, s') => (Panicked, (d s').2)
       end.

(** Dereference of a pointer: nil panics. *)
Definition deref {S A} (p : option A) : M S A :=
  match p with Some a => ret a | None => panic end.

(** [[]byte]: [None] is the nil slice. *)
Definition bytes : Type := option string.
Definition len (b : bytes) : nat :=
  match b with Some s => String.length s | None => 0%nat end.

(** [time.Time] as a number; [0] is the zero time. *)
Definition Time : Type := Z.

(** Errors of gorilla/websocket calls: a [*websocket.CloseError] carries
    its close code; every error has its message text. *)
Record wsError : Type := mkWsError {
  closeCode : option Z;
  errText : string
}.

(** Go [error] values built by the sources. *)
Inductive error : Type :=
| errors_New (text : string)
| LibError (text : string)                 (* an error of another library *)
| fmt_Errorf (text : string)               (* fmt.Errorf without an error argument *)
| WSError (e : wsError)
| Errorf (prefix : string) (arg : error)   (* fmt.Errorf("prefix%w", arg), also %v *)
| ErrorfS (prefix : string) (arg : bytes)  (* fmt.Errorf("prefix%s", arg) *)
| MultiError (errs : list error).          (* multierror's Error *)

(** [websocket.IsCloseError(err, codes...)]. *)
Definition IsCloseError (e : wsError) (codes : list Z) : bool :=
  match closeCode e with
  | Some c => bool_decide (c ∈ codes)
  | None => false
  end.

(** [strings.Contains]. *)
Fixpoint Contains (s sub : string) : bool :=
  String.prefix sub s ||
  match s with
  | EmptyString => false
  | String _ s' => Contains s' sub
  end.

Definition CloseNormalClosure : Z := 1000.
Definition CloseGoingAway : Z := 1001.
Definition CloseServiceRestart : Z := 1012.

(** [multierror.Append] and [ErrorOrNil] of multierror's Error; its nil
    pointer is the empty list. *)
Definition multierror_Append (result : list error) (err : error) : list error :=
  result ++ [err].
Definition ErrorOrNil (result : list error) : option error :=
  match result with
  | [] => None
  | _ => Some (MultiError result)
  end.

End Go.

Export Go.

#[global] Instance M_ret {S} : MRet (M S) := λ A, @Go.ret S A.
#[global] Instance M_bind {S} : MBind (M S) := λ A B k m, @Go.bind S A B m k.

(* ===================================================================== *)
(** * The JSON-RPC envelope (dependency go-jsonrpc) *)
(* ===================================================================== *)
Module JSONRPC.

(** A value of type [any] holding a JSON-RPC id: nil, a string or a number. *)
Inductive any : Type :=
| AnyNil
| AnyString (s : string)
| AnyNumber (n : Z).

#[global] Instance any_eq_dec : EqDecision any.
Proof. solve_decision. Defined.

(** Modelled from the spec: the request and response envelopes of the
    go-jsonrpc dependency, whose declarations are not part of the sources;
    the fields are those of the wire format ([jsonrpc], [id], [method],
    [params], [result], [error]).  The sources read and assign [ID] and read
    [Result]. *)
Record Request : Type := mkRequest {
  req_JSONRPC : string;
  req_ID : any;
  req_Method : string;
  req_Params : bytes
}.

Record Response : Type := mkResponse {
  resp_JSONRPC : string;
  resp_ID : any;
  resp_Result : bytes;
  resp_Error : bytes
}.

(** [&jsonrpc.Request{}]. *)
Definition zeroRequest : Request := mkRequest "" AnyNil "" None.

(** [jsonRPCReq.ID = v] and [jsonRPCResp.ID = v]. *)
Definition req_setID (v : any) (r : Request) : Request :=
  mkRequest (req_JSONRPC r) v (req_Method r) (req_Params r).
Definition resp_setID (v : any) (r : Response) : Response :=
  mkResponse (resp_JSONRPC r) v (resp_Result r) (resp_Error r).

(** The functions of the dependency (and of sonic) that the sources call.
    They are an interface here: every theorem below holds for any
    implementation of it. *)
Class Codec : Type := {
  Request_UnmarshalJSON : bytes → error + Request;
  Request_IsEmpty : Request → bool;
  sonic_Marshal : Request → error + bytes;
  DecodeResponse : bytes → error + Response;
  Response_IsEmpty : Response → bool;
  Response_IDString : Response → string;
  Response_MarshalJSON : Response → error + bytes
}.

End JSONRPC.

Export JSONRPC.

(* ===================================================================== *)
(** * Response records (shared by the HTTP and WebSocket tasks) *)
(* ===================================================================== *)
Module Resp.

(** Modelled from the spec: [requestTimestamps], whose declaration is not
    part of the sources; the fields are the ten points the spec lists and the
    task files assign. *)
Record requestTimestamps : Type := mkTimestamps {
  start : Time;
  dnsStart : Time;
  dnsDone : Time;
  connStart : Time;
  connDone : Time;
  tlsStart : Time;
  tlsDone : Time;
  wroteDone : Time;
  firstByte : Time;
  dataDone : Time
}.

Definition zeroTimestamps : requestTimestamps :=
  mkTimestamps 0 0 0 0 0 0 0 0 0 0.

(** [net.Addr]; [None] is the nil interface. *)
Definition Addr : Type := option string.

(** An [*http.Response], as far as the task touches it. *)
Record httpResponse : Type := mkHttpResponse {
  statusCode : Z;
  body : bytes
}.

(** Modelled from the spec: the payload variants of a response record
    ("HTTP response wrapper, WebSocket response wrapper"), whose declarations
    and constructors [NewHTTPTaskResponse] / [NewWSTaskResponse] are not part
    of the sources.  The fields are the constructor arguments seen at the call
    sites, and the [timestamps] field the callers assign. *)
Inductive TaskResponse : Type :=
| HTTPTaskResponse (remoteAddr : Addr) (resp : httpResponse)
                   (timestamps : requestTimestamps) (bodyRead : bool)
| WSTaskResponse (remoteAddr : Addr) (data : bytes)
                 (timestamps : requestTimestamps).

Definition NewHTTPTaskResponse (remoteAddr : Addr) (r : httpResponse) : TaskResponse :=
  HTTPTaskResponse remoteAddr r zeroTimestamps false.
Definition NewWSTaskResponse (remoteAddr : Addr) (p : bytes) : TaskResponse :=
  WSTaskResponse remoteAddr p zeroTimestamps.

(** [taskResponse.timestamps = ts]. *)
Definition setTimestamps (ts : requestTimestamps) (t : TaskResponse) : TaskResponse :=
  match t with
  | HTTPTaskResponse a r _ b => HTTPTaskResponse a r ts b
  | WSTaskResponse a d _ => WSTaskResponse a d ts
  end.

(** [taskResponse.readBody()]: the body is read in full and closed. *)
Definition readBody (t : TaskResponse) : TaskResponse :=
  match t with
  | HTTPTaskResponse a r ts _ => HTTPTaskResponse a r ts true
  | WSTaskResponse a d ts => WSTaskResponse a d ts
  end.

(** Modelled from the spec: [WatcherResponse] as the task files fill it
    ("{taskID, watcherID, url, error | payload, timestamps}"); the sources
    keep only earlier declarations of it, without the task id. *)
Record WatcherResponse : Type := mkWatcherResponse {
  TaskID : string;
  WatcherID : string;
  URL : string;
  Err : option error;
  Payload : option TaskResponse
}.

(** Modelled from the spec: [errorResponse(err, taskID, watcherID, url)],
    the helper as the task files call it; the sources keep its three-argument
    ancestor, which fills the record the same way: the error set, no
    payload. *)
Definition errorResponse (err : error) (taskID watcherID : string) (url : string)
  : WatcherResponse :=
  mkWatcherResponse taskID watcherID url (Some err) None.

(** A [chan<- WatcherResponse], seen from a sender: [None] is the nil
    channel, [Some l] a channel on which [l] has been sent so far, oldest
    first.  The receiving side is assumed to keep reading. *)
Definition Chan : Type := option (list WatcherResponse).

Definition isError (r : WatcherResponse) : bool :=
  match Err r with Some _ => true | None => false end.

(** The channel [c'] is the channel [c] after the records [out] were sent
    on it. *)
Definition emitted (c c' : Chan) (out : list WatcherResponse) : Prop :=
  ∃ l, c = Some l ∧ c' = Some (l ++ out).

End Resp.

Export Resp.

(* ===================================================================== *)
(** * task_ws.go *)
(* ===================================================================== *)
Module WS.

(** [WSEndpointMode], an [int] with three named values. *)
Definition WSEndpointMode : Type := Z.
Definition ModeUnknown : WSEndpointMode := 0.
Definition OneHitText : WSEndpointMode := 1.
Definition PersistentJSONRPC : WSEndpointMode := 2.

(** [wsPersistentProtocol]. *)
Definition wsPersistentProtocol : Type := Z.
Definition UnknownProtocol : wsPersistentProtocol := 0.
Definition JSONRPC : wsPersistentProtocol := 1.

(** [wsInflightMessage]. *)
Record wsInflightMessage : Type := mkInflight {
  inflightID : string;
  originalID : any;
  timeSent : Time
}.

(** A [*websocket.Conn]: the handle and the peer address it reports. *)
Record Conn : Type := mkConn {
  connID : nat;
  RemoteAddr : Addr
}.

#[global] Instance Conn_eq_dec : EqDecision Conn.
Proof. solve_decision. Defined.

(** [WSEndpoint].  [mu] is true while the mutex is held; [conn = None] is the
    nil handle; [wg] is the wait-group counter (the number of read pumps
    that have not returned); [ctx = None] before [Initialize], then
    [Some cancelled].  [written] is not a field of the struct: it is the
    outgoing side of the persistent connection, the frames [WriteMessage]
    has put on the wire so far, oldest first. *)
Record WSEndpoint : Type := mkWSEndpoint {
  mu : bool;
  Header : option (gmap string (list string));
  Mode : WSEndpointMode;
  Payload : bytes;
  URL : option string;
  ID : string;
  conn : option Conn;
  remoteAddr : Addr;
  inflightMsgs : gmap string wsInflightMessage;
  wg : nat;
  watcherID : string;
  respChan : Chan;
  ctx : option bool;
  written : list bytes
}.

Definition set_mu (v : bool) (e : WSEndpoint) : WSEndpoint :=
  mkWSEndpoint v (Header e) (Mode e) (Payload e) (URL e) (ID e) (conn e)
    (remoteAddr e) (inflightMsgs e) (wg e) (watcherID e) (respChan e) (ctx e) (written e).
Definition set_Header (v : option (gmap string (list string))) (e : WSEndpoint) : WSEndpoint :=
  mkWSEndpoint (mu e) v (Mode e) (Payload e) (URL e) (ID e) (conn e)
    (remoteAddr e) (inflightMsgs e) (wg e) (watcherID e) (respChan e) (ctx e) (written e).
Definition set_Mode (v : WSEndpointMode) (e : WSEndpoint) : WSEndpoint :=
  mkWSEndpoint (mu e) (Header e) v (Payload e) (URL e) (ID e) (conn e)
    (remoteAddr e) (inflightMsgs e) (wg e) (watcherID e) (respChan e) (ctx e) (written e).
Definition set_ID (v : string) (e : WSEndpoint) : WSEndpoint :=
  mkWSEndpoint (mu e) (Header e) (Mode e) (Payload e) (URL e) v (conn e)
    (remoteAddr e) (inflightMsgs e) (wg e) (watcherID e) (respChan e) (ctx e) (written e).
Definition set_conn (v : option Conn) (e : WSEndpoint) : WSEndpoint :=
  mkWSEndpoint (mu e) (Header e) (Mode e) (Payload e) (URL e) (ID e) v
    (remoteAddr e) (inflightMsgs e) (wg e) (watcherID e) (respChan e) (ctx e) (written e).
Definition set_remoteAddr (v : Addr) (e : WSEndpoint) : WSEndpoint :=
  mkWSEndpoint (mu e) (Header e) (Mode e) (Payload e) (URL e) (ID e) (conn e)
    v (inflightMsgs e) (wg e) (watcherID e) (respChan e) (ctx e) (written e).
Definition set_inflightMsgs (v : gmap string wsInflightMessage) (e : WSEndpoint) : WSEndpoint :=
  mkWSEndpoint (mu e) (Header e) (Mode e) (Payload e) (URL e) (ID e) (conn e)
    (remoteAddr e) v (wg e) (watcherID e) (respChan e) (ctx e) (written e).
Definition set_wg (v : nat) (e : WSEndpoint) : WSEndpoint :=
  mkWSEndpoint (mu e) (Header e) (Mode e) (Payload e) (URL e) (ID e) (conn e)
    (remoteAddr e) (inflightMsgs e) v (watcherID e) (respChan e) (ctx e) (written e).
Definition set_watcherID (v : string) (e : WSEndpoint) : WSEndpoint :=
  mkWSEndpoint (mu e) (Header e) (Mode e) (Payload e) (URL e) (ID e) (conn e)
    (remoteAddr e) (inflightMsgs e) (wg e) v (respChan e) (ctx e) (written e).
Definition set_respChan (v : Chan) (e : WSEndpoint) : WSEndpoint :=
  mkWSEndpoint (mu e) (Header e) (Mode e) (Payload e) (URL e) (ID e) (conn e)
    (remoteAddr e) (inflightMsgs e) (wg e) (watcherID e) v (ctx e) (written e).
Definition set_ctx (v : option bool) (e : WSEndpoint) : WSEndpoint :=
  mkWSEndpoint (mu e) (Header e) (Mode e) (Payload e) (URL e) (ID e) (conn e)
    (remoteAddr e) (inflightMsgs e) (wg e) (watcherID e) (respChan e) v (written e).
Definition set_written (v : list bytes) (e : WSEndpoint) : WSEndpoint :=
  mkWSEndpoint (mu e) (Header e) (Mode e) (Payload e) (URL e) (ID e) (conn e)
    (remoteAddr e) (inflightMsgs e) (wg e) (watcherID e) (respChan e) (ctx e) v.

(** [NewWSEndpoint]. *)
Definition NewWSEndpoint (url : option string) (header : option (gmap string (list string)))
    (mode : WSEndpointMode) (payload : bytes) (id : string) : WSEndpoint :=
  mkWSEndpoint false header mode payload url id None None ∅ 0%nat "" None None [].

(** What the world outside the endpoint answers during one call: the
    [k]-th reading of the clock, the id [xid.New().String()] returns, and the
    results of the socket operations. Errors are on the left. *)
Record Env : Type := mkEnv {
  now : nat → Time;
  xid_New : string;
  Dial : wsError + Conn;
  NetConnNil : bool;
  WriteControl : option wsError;
  ConnClose : option wsError;
  WriteMessage : option wsError;
  ReadMessage : wsError + bytes
}.

Abbreviation W := (M WSEndpoint).

(** [e.mu.Lock()] / [e.mu.Unlock()]; [sync.Mutex] is not reentrant. *)
Definition lock : W unit :=
  λ e, if mu e then (Blocked, e) else (Ret tt, set_mu true e).
Definition unlock : W unit :=
  λ e, if mu e then (Ret tt, set_mu false e) else (Panicked, e).

(** [e.respChan <- r]. *)
Definition send (r : WatcherResponse) : W unit :=
  λ e, match respChan e with
       | None => (Blocked, e)
       | Some l => (Ret tt, set_respChan (Some (l ++ [r])) e)
       end.

(** [e.cancel()]. *)
Definition cancel : W unit :=
  λ e, match ctx e with
       | None => (Panicked, e)
       | Some _ => (Ret tt, set_ctx (Some true) e)
       end.

(** [select { case <-e.ctx.Done(): ... default: ... }]: is the context done? *)
Definition ctxDone : W bool :=
  λ e, match ctx e with
       | None => (Panicked, e)
       | Some c => (Ret c, e)
       end.

(** [e.wg.Add(1); go e.readPump(&e.wg)], [wg.Done()], [e.wg.Wait()]. *)
Definition spawnReadPump : W unit := modify (λ e, set_wg (S (wg e)) e).
Definition wgDone : W unit :=
  λ e, match wg e with
       | O => (Panicked, e)
       | S n => (Ret tt, set_wg n e)
       end.
Definition wgWait : W unit :=
  λ e, match wg e with
       | O => (Ret tt, e)
       | S _ => (Blocked, e)
       end.

(** [WSEndpoint.Close]. *)
Definition Close (env : Env) : W (option error) :=
  lock ;;
  defer unlock (
    e ← get;
    match conn e with
    | None => mret None
    | Some _ =>
        match WriteControl env with
        | Some err => mret (Some (WSError err))
        | None =>
            match ConnClose env with
            | Some err => mret (Some (WSError err))
            | None =>
                modify (set_conn None) ;;
                cancel ;;
                mret None
            end
        end
    end).

(** [WSEndpoint.connect]. *)
Definition connect (env : Env) : W (option error) :=
  e ← get;
  if negb (Mode e =? PersistentJSONRPC) then
    mret (Some (errors_New "cannot establish long lived connection for non-long mode"))
  else
    lock ;;
    defer unlock (
      e ← get;
      match conn e with
      | Some _ => mret (Some (errors_New "connection already established"))
      | None =>
          (* e.URL.String(): a nil URL panics before the dial *)
          _ ← deref (URL e);
          match Dial env with
          | inl err => mret (Some (WSError err))
          | inr c =>
              modify (set_conn (Some c)) ;;
              modify (set_remoteAddr (RemoteAddr c)) ;;
              spawnReadPump ;;
              mret None
          end
      end).

(** [WSEndpoint.Initialize]. *)
Definition Initialize (env : Env) (watcherID : string) (responseChannel : Chan)
  : W (option error) :=
  lock ;;
  modify (set_watcherID watcherID) ;;
  modify (set_respChan responseChannel) ;;
  modify (set_ctx (Some false)) ;;
  unlock ;;
  e ← get;
  if Mode e =? PersistentJSONRPC then
    r ← connect env;
    match r with
    | Some err => mret (Some (Errorf "failed to connect when initializing: " err))
    | None => mret None
    end
  else if Mode e =? OneHitText then
    mret None
  else
    lock ;;
    modify (set_Mode OneHitText) ;;
    unlock ;;
    mret None.

(** The two task types [Task] can return; both point back at the endpoint. *)
Inductive Task : Type :=
| wsOneHit
| wsPersistent (protocol : wsPersistentProtocol).

(** [WSEndpoint.Task]. *)
Definition Task_ (e : WSEndpoint) : Task :=
  if Mode e =? OneHitText then wsOneHit
  else if Mode e =? PersistentJSONRPC then wsPersistent JSONRPC
  else wsOneHit.

(** [WSEndpoint.Validate]; [fresh] is the id [xid.New().String()] returns. *)
Definition Validate (fresh : string) : W (option error) :=
  e ← get;
  match URL e with
  | None => mret (Some (errors_New "URL is nil"))
  | Some _ =>
      (if Header e is None then modify (set_Header (Some ∅)) else mret tt) ;;
      (if bool_decide (ID e = "") then modify (set_ID fresh) else mret tt) ;;
      mret None
  end.

(** [WSEndpoint.closeConn]. *)
Definition closeConn (env : Env) : W (option error) :=
  lock ;;
  defer unlock (
    e ← get;
    match conn e with
    | Some _ =>
        modify (set_conn None) ;;
        mret (WSError <$> ConnClose env)
    | None => mret None
    end).

(** [WSEndpoint.nilConn]. *)
Definition nilConn (env : Env) : W bool :=
  lock ;;
  defer unlock (
    e ← get;
    match conn e with
    | None => mret true
    | Some _ => mret (NetConnNil env)
    end).

(** [WSEndpoint.reconnect]. *)
Definition reconnect (env : Env) : W (option error) :=
  e ← get;
  if negb (Mode e =? PersistentJSONRPC) then
    mret (Some (errors_New "can only reconnect for long-lived connections"))
  else
    nc ← nilConn env;
    closed ← (if negb (nc : bool) then
                e ← get;
                _ ← deref (conn e);
                mret (ConnClose env)
              else mret None);
    match closed with
    | Some err => mret (Some (Errorf "failed to close connection: " (WSError err)))
    | None =>
        wgWait ;;
        lock ;;
        defer unlock (
          modify (set_conn None) ;;
          (* e.URL.String(): a nil URL panics before the dial *)
          e ← get;
          _ ← deref (URL e);
          match Dial env with
          | inl err => mret (Some (Errorf "failed to dial when reconnecting: " (WSError err)))
          | inr c =>
              modify (set_conn (Some c)) ;;
              spawnReadPump ;;
              mret None
          end)
    end.

Section WithCodec.
Context `{Codec}.

(** One pass of the [for] loop of [readPump]. *)
Inductive pumpStatus : Type := Continue | Exit.

(** The body of the loop of [WSEndpoint.readPump].  [oenv = None]: no frame
    arrives, the pump stays parked in [ReadMessage]. *)
Definition readPumpIter (oenv : option Env) : W pumpStatus :=
  done ← ctxDone;
  if (done : bool) then mret Exit
  else
    e ← get;
    urlClone ← deref (URL e);
    _ ← deref (conn e);
    match oenv with
    | None => block
    | Some env =>
        match ReadMessage env with
        | inl err =>
            (* expected close code, "connection closed" in the text, or
               unexpected: the three branches are empty in the source *)
            closeConn env ;;
            mret Exit
        | inr p =>
            let timestamps := mkTimestamps 0 0 0 0 0 0 0 0 (now env 0) 0 in
            if Mode e =? PersistentJSONRPC then
              match DecodeResponse p with
              | inl err =>
                  send (errorResponse
                          (Errorf "failed parsing jsonrpc.Response from bytes: " err)
                          (ID e) (watcherID e) urlClone) ;;
                  mret Exit
              | inr jsonRPCResp =>
                  if negb (Response_IsEmpty jsonRPCResp) then
                    let responseID := Response_IDString jsonRPCResp in
                    if bool_decide (responseID = "") then
                      send (errorResponse
                              (ErrorfS "found nil response ID, error: " (resp_Result jsonRPCResp))
                              (ID e) (watcherID e) urlClone) ;;
                      mret Exit
                    else
                      e ← get;
                      match inflightMsgs e !! responseID with
                      | Some inflightMsg =>
                          modify (λ e, set_inflightMsgs (delete responseID (inflightMsgs e)) e) ;;
                          let timestamps :=
                            mkTimestamps (timeSent inflightMsg) 0 0 0 0 0 0 0 (now env 0) 0 in
                          let jsonRPCResp := resp_setID (originalID inflightMsg) jsonRPCResp in
                          match Response_MarshalJSON jsonRPCResp with
                          | inl err =>
                              send (errorResponse
                                      (Errorf "failed re-marshalling JSON-RPC response: " err)
                                      (ID e) (watcherID e) urlClone) ;;
                              mret Exit
                          | inr p =>
                              let taskResponse :=
                                setTimestamps timestamps (NewWSTaskResponse (remoteAddr e) p) in
                              send (mkWatcherResponse (ID e) (watcherID e) urlClone None
                                      (Some taskResponse)) ;;
                              mret Continue
                          end
                      | None =>
                          send (errorResponse
                                  (errors_New ("unknown response ID: "
                                               +:+ Response_IDString jsonRPCResp))
                                  (ID e) (watcherID e) urlClone) ;;
                          mret Continue
                      end
                  else
                    send (errorResponse (errors_New "empty JSON-RPC response")
                            (ID e) (watcherID e) urlClone) ;;
                    mret Continue
              end
            else
              send (mkWatcherResponse (ID e) (watcherID e) urlClone None
                      (Some (NewWSTaskResponse (remoteAddr e) p))) ;;
              mret Continue
        end
    end.

(** The loop of [readPump] over the frames (or read errors) that arrive, in
    order; after the last one the pump is parked in [ReadMessage]. *)
Fixpoint readPumpLoop (reads : list Env) : W unit :=
  match reads with
  | [] => _ ← readPumpIter None; mret tt
  | env :: rest =>
      st ← readPumpIter (Some env);
      match st with
      | Exit => mret tt
      | Continue => readPumpLoop rest
      end
  end.

(** [WSEndpoint.readPump]. *)
Definition readPump (reads : list Env) : W unit :=
  defer wgDone (readPumpLoop reads).

(** [wsOneHit.Execute]. *)
Definition wsOneHit_Execute (env : Env) : W (option error) :=
  e ← get;
  if bool_decide (conn e ≠ None) then
    mret (Some (errors_New "connection is already open"))
  else
    lock ;;
    defer unlock (
      e ← get;
      urlClone ← deref (URL e);
      done ← ctxDone;
      if (done : bool) then mret None
      else
        (* start, dnsStart, connStart, tlsStart: clock readings 0..3 *)
        match Dial env with
        | inl err =>
            let err := Errorf "failed to dial: " (WSError err) in
            send (errorResponse err (ID e) (watcherID e) urlClone) ;;
            mret (Some err)
        | inr conn =>
            let remoteAddr := RemoteAddr conn in
            (* defer conn.Close(): closes the local socket on every return
               below; it touches nothing of the endpoint *)
            (* dnsDone, connDone, tlsDone: clock readings 4..6 *)
            match WriteMessage env with
            | Some err =>
                let err := Errorf "failed to write message: " (WSError err) in
                send (errorResponse err (ID e) (watcherID e) urlClone) ;;
                mret (Some err)
            | None =>
                match ReadMessage env with
                | inl err =>
                    let err := Errorf "failed to read message: " (WSError err) in
                    send (errorResponse err (ID e) (watcherID e) urlClone) ;;
                    mret (Some err)
                | inr message =>
                    let timestamps :=
                      mkTimestamps (now env 0) (now env 1) (now env 4) (now env 2)
                        (now env 5) (now env 3) (now env 6) (now env 7) (now env 8)
                        (now env 9) in
                    let taskResponse :=
                      setTimestamps timestamps (NewWSTaskResponse remoteAddr message) in
                    send (mkWatcherResponse (ID e) (watcherID e) urlClone None
                            (Some taskResponse)) ;;
                    match WriteControl env with
                    | Some err =>
                        mret (Some (Errorf "failed to write close message: " (WSError err)))
                    | None => mret None
                    end
                end
            end
        end).

(** [wsPersistent.Execute]. *)
Definition wsPersistent_Execute (protocol : wsPersistentProtocol) (env : Env)
  : W (option error) :=
  if negb (protocol =? JSONRPC) then
    mret (Some (errors_New "unsupported protocol"))
  else
    nc ← nilConn env;
    r ← (if (nc : bool) then reconnect env else mret None);
    match r with
    | Some err => mret (Some err)
    | None =>
        lock ;;
        defer unlock (
          e ← get;
          urlClone ← deref (URL e);
          done ← ctxDone;
          if (done : bool) then mret None
          else
            (* 1. unmarshal the payload, when there is one *)
            match (if (0 <? len (Payload e))%nat
                   then Request_UnmarshalJSON (Payload e)
                   else inr zeroRequest) with
            | inl err =>
                let err := Errorf "failed to unmarshal JSON-RPC message: " err in
                send (errorResponse err (ID e) (watcherID e) urlClone) ;;
                mret (Some err)
            | inr jsonRPCReq =>
                (* 2. the correlation id, and the original id if there is a request *)
                let inflightID := xid_New env in
                let '(originalID, jsonRPCReq) :=
                  if negb (Request_IsEmpty jsonRPCReq)
                  then (req_ID jsonRPCReq, req_setID (AnyString inflightID) jsonRPCReq)
                  else (AnyNil, jsonRPCReq) in
                (* 4. marshal *)
                match sonic_Marshal jsonRPCReq with
                | inl err =>
                    let err := Errorf "failed to marshal JSON-RPC message: " err in
                    send (errorResponse err (ID e) (watcherID e) urlClone) ;;
                    mret (Some err)
                | inr payload =>
                    (* 3., 5. the in-flight record, stored before the write *)
                    let inflightMsg := mkInflight inflightID originalID (now env 0) in
                    modify (λ e, set_inflightMsgs (<[inflightID := inflightMsg]> (inflightMsgs e)) e) ;;
                    let payload := if payload is None then Payload e else payload in
                    e ← get;
                    _ ← deref (conn e);
                    match WriteMessage env with
                    | Some werr =>
                        let err :=
                          if IsCloseError werr [CloseNormalClosure; CloseGoingAway]
                          then Errorf "websocket write failed (connection closed): " (WSError werr)
                          else if Contains (errText werr) "websocket: close sent"
                          then Errorf "websocket write failed (connection closed): " (WSError werr)
                          else Errorf "unexpected websocket write error: " (WSError werr) in
                        closeConn env ;;
                        send (errorResponse err (ID e) (watcherID e) urlClone) ;;
                        mret (Some err)
                    | None =>
                        modify (λ e, set_written (written e ++ [payload]) e) ;;
                        mret None
                    end
                end
            end)
    end.

(** ** Vocabulary of the statements about the endpoint *)

(** The read pump of a persistent endpoint can run: the context is live,
    the URL and the connection are set, and the response channel, on which
    [l] has been sent so far, is not nil. *)
Definition pumping (e : WSEndpoint) (url : string) (l : list WatcherResponse) : Prop :=
  Mode e = PersistentJSONRPC ∧ ctx e = Some false ∧ URL e = Some url
  ∧ is_Some (conn e) ∧ respChan e = Some l.

(** [Execute] can send on it as well: nobody holds the mutex. *)
Definition sendable (e : WSEndpoint) (url : string) (l : list WatcherResponse) : Prop :=
  mu e = false ∧ pumping e url l.

(** [e] after the record [x] has been sent on its response channel. *)
Definition emit (l : list WatcherResponse) (x : WatcherResponse) (e : WSEndpoint)
  : WSEndpoint :=
  set_respChan (Some (l ++ [x])) e.

(** The request [wsPersistent.Execute] starts from: the payload unmarshalled,
    or the zero request when the payload is empty. *)
Definition parsedPayload (e : WSEndpoint) : error + Request :=
  if (0 <? len (Payload e))%nat
  then Request_UnmarshalJSON (Payload e)
  else inr zeroRequest.

(** The request [wsPersistent.Execute] marshals: the parsed request with
    its id set to the correlation id, or the request as it is when it is
    empty. *)
Definition outgoing (env : Env) (req : Request) : Request :=
  if Request_IsEmpty req then req else req_setID (AnyString (xid_New env)) req.

(** The world [env], except that the connection reports a live socket. *)
Definition connectedEnv (env : Env) : Env :=
  mkEnv (now env) (xid_New env) (Dial env) false (WriteControl env) (ConnClose env)
    (WriteMessage env) (ReadMessage env).

(** The id a frame answers to, when it decodes. *)
Definition replyID (env : Env) : option string :=
  match ReadMessage env with
  | inr p =>
      match DecodeResponse p with
      | inr resp => Some (Response_IDString resp)
      | inl _ => None
      end
  | inl _ => None
  end.

End WithCodec.

End WS.

(* ===================================================================== *)
(** * task_http.go *)
(* ===================================================================== *)
Module HTTP.

(** [TransportControl]; the zero [netip.AddrPort] is the empty string. *)
Record TransportControl : Type := mkTransportControl {
  AddrPort : string;
  TLSEnabled : bool;
  SkipTLSVerify : bool
}.

(** The [*http.Client] chosen by [Initialize]: the process-wide default, or a
    clone of the default transport dialling a pinned address, with an
    optional TLS configuration (the URL whose host name is the SNI, and
    [InsecureSkipVerify]). *)
Inductive Client : Type :=
| DefaultClient
| PinnedClient (addrPort : string) (tlsConfig : option (string * bool)).

(** [HTTPEndpoint]. *)
Record HTTPEndpoint : Type := mkHTTPEndpoint {
  Header : option (gmap string (list string));
  Method : string;
  Payload : bytes;
  URL : option string;
  ID : string;
  TransportControl_ : option TransportControl;
  client : option Client;
  OptReadFast : bool;
  watcherID : string;
  respChan : Chan
}.

(** [HTTPEndpoint.Close]. *)
Definition Close : M HTTPEndpoint (option error) := mret None.

Definition set_client (c : option Client) (e : HTTPEndpoint) : HTTPEndpoint :=
  mkHTTPEndpoint (Header e) (Method e) (Payload e) (URL e) (ID e)
    (TransportControl_ e) c (OptReadFast e) (watcherID e) (respChan e).

(** [HTTPEndpoint.Initialize]. *)
Definition Initialize (watcherID : string) (responseChannel : Chan)
  : M HTTPEndpoint (option error) :=
  modify (λ e, mkHTTPEndpoint (Header e) (Method e) (Payload e) (URL e) (ID e)
                 (TransportControl_ e) (client e) (OptReadFast e)
                 watcherID responseChannel) ;;
  e ← get;
  match TransportControl_ e with
  | None =>
      modify (set_client (Some DefaultClient)) ;;
      mret None
  | Some tc =>
      tlsConfig ← (if TLSEnabled tc
                   then url ← deref (URL e); mret (Some (url, SkipTLSVerify tc))
                   else mret None);
      modify (set_client (Some (PinnedClient (AddrPort tc) tlsConfig))) ;;
      mret None
  end.

(** [HTTPEndpoint.Validate]; [fresh] is the id [xid.New().String()] returns. *)
Definition Validate (fresh : string) : M HTTPEndpoint (option error) :=
  e ← get;
  match URL e with
  | None => mret (Some (errors_New "URL is nil"))
  | Some _ =>
      let header := if Header e is None then Some ∅ else Header e in
      let id := if bool_decide (ID e = "") then fresh else ID e in
      modify (λ e, mkHTTPEndpoint header (Method e) (Payload e) (URL e) id
                     (TransportControl_ e) (client e) (OptReadFast e)
                     (watcherID e) (respChan e)) ;;
      match TransportControl_ e with
      | Some tc =>
          if bool_decide (AddrPort tc = "")
          then mret (Some (errors_New "TransportControl.AddrPort is empty"))
          else mret None
      | None => mret None
      end
  end.

(** [httpRequest]: the endpoint it points at, and its own copies of the
    channel, the payload and the method. *)
Record httpRequest : Type := mkHttpRequest {
  endpoint : HTTPEndpoint;
  r_respChan : Chan;
  data : bytes;
  method : string
}.

(** [HTTPEndpoint.Task]. *)
Definition Task_ (e : HTTPEndpoint) : httpRequest :=
  mkHttpRequest e (respChan e) (Payload e) (Method e).

(** What the world answers during one [Execute]: whether [http.NewRequest]
    fails, what [client.Do] returns, and what the trace callbacks recorded
    meanwhile (timestamps and remote address). *)
Record Env : Type := mkEnv {
  NewRequest : option error;
  Do : error + httpResponse;
  trace : requestTimestamps;
  traceAddr : Addr
}.

(** [r.respChan <- x]. *)
Definition send (x : WatcherResponse) : M httpRequest unit :=
  λ r, match r_respChan r with
       | None => (Blocked, r)
       | Some l => (Ret tt, mkHttpRequest (endpoint r) (Some (l ++ [x])) (data r) (method r))
       end.

(** [httpRequest.Execute]. *)
Definition Execute (env : Env) : M httpRequest (option error) :=
  r ← get;
  urlClone ← deref (URL (endpoint r));
  match NewRequest env with
  | Some err =>
      send (errorResponse err (ID (endpoint r)) (watcherID (endpoint r)) urlClone) ;;
      mret (Some err)
  | None =>
      (* the trace is attached and the headers are copied into the request *)
      _ ← deref (client (endpoint r));
      match Do env with
      | inl err =>
          send (errorResponse err (ID (endpoint r)) (watcherID (endpoint r)) urlClone) ;;
          mret (Some err)
      | inr response =>
          let taskResponse :=
            setTimestamps (trace env) (NewHTTPTaskResponse (traceAddr env) response) in
          let taskResponse :=
            if OptReadFast (endpoint r) then readBody taskResponse else taskResponse in
          send (mkWatcherResponse (ID (endpoint r)) (watcherID (endpoint r)) urlClone
                  None (Some taskResponse)) ;;
          mret None
      end
  end.

End HTTP.

(* ===================================================================== *)
(** * The watcher *)
(* ===================================================================== *)
Module Watcher.

(** The [WatcherTask] interface, as the variant of its two implementations
    ([HTTPEndpoint] of task_http.go, [WSEndpoint] of task_ws.go). *)
Inductive WatcherTask : Type :=
| HTTPTask (e : HTTP.HTTPEndpoint)
| WSTask (e : WS.WSEndpoint).

(** A [chan struct{}] that is only ever closed: nil, open, or closed. *)
Inductive doneState : Type := DoneNil | DoneOpen | DoneClosed.

#[global] Instance doneState_eq_dec : EqDecision doneState.
Proof. solve_decision. Defined.

(** [Watcher].  [taskResponses] says whether the channel has been made (its
    traffic is recorded at the senders, the tasks' [respChan]).  [forwarder]
    is the goroutine [forwardResponses(responseChan)]: [None] when it does
    not run, [Some ch] while it runs, [ch] being the channel it forwards to,
    seen from this sender. *)
Record Watcher : Type := mkWatcher {
  id : string;
  cadence : Z;
  payload : bytes;
  watcherTasks : list WatcherTask;
  taskResponses : bool;
  doneChan : doneState;
  forwarder : option Chan
}.

Definition set_watcherTasks (v : list WatcherTask) (w : Watcher) : Watcher :=
  mkWatcher (id w) (cadence w) (payload w) v (taskResponses w) (doneChan w) (forwarder w).
Definition set_taskResponses (v : bool) (w : Watcher) : Watcher :=
  mkWatcher (id w) (cadence w) (payload w) (watcherTasks w) v (doneChan w) (forwarder w).
Definition set_doneChan (v : doneState) (w : Watcher) : Watcher :=
  mkWatcher (id w) (cadence w) (payload w) (watcherTasks w) (taskResponses w) v (forwarder w).
Definition set_forwarder (v : option Chan) (w : Watcher) : Watcher :=
  mkWatcher (id w) (cadence w) (payload w) (watcherTasks w) (taskResponses w) (doneChan w) v.

(** The interface calls [task.Close()] and [task.Initialize(id, ch)], run on
    the task's own state. *)
Definition WatcherTask_Close (env : WS.Env) (t : WatcherTask)
  : outcome (option error) * WatcherTask :=
  match t with
  | HTTPTask e => let '(o, e') := HTTP.Close e in (o, HTTPTask e')
  | WSTask e => let '(o, e') := WS.Close env e in (o, WSTask e')
  end.

Definition WatcherTask_Initialize (env : WS.Env) (watcherID : string) (ch : Chan)
    (t : WatcherTask) : outcome (option error) * WatcherTask :=
  match t with
  | HTTPTask e => let '(o, e') := HTTP.Initialize watcherID ch e in (o, HTTPTask e')
  | WSTask e => let '(o, e') := WS.Initialize env watcherID ch e in (o, WSTask e')
  end.

(** [for i := range w.watcherTasks { err := w.watcherTasks[i].f(); if err !=
    nil { result = multierror.Append(result, err) } }], the loop shared by
    [Close] and the start-up; [envs i] is what the world answers to task [i]. *)
Fixpoint forTasks (f : WS.Env → WatcherTask → outcome (option error) * WatcherTask)
    (envs : nat → WS.Env) (i : nat) (tasks : list WatcherTask) (result : list error)
  : outcome (list error) * list WatcherTask :=
  match tasks with
  | [] => (Ret result, [])
  | t :: rest =>
      match f (envs i) t with
      | (Ret err, t') =>
          let result := match err with
                        | Some err => multierror_Append result err
                        | None => result
                        end in
          let '(o, rest') := forTasks f envs (S i) rest result in
          (o, t' :: rest')
      | (Blocked, t') => (Blocked, t' :: rest)
      | (Panicked, t') => (Panicked, t' :: rest)
      end
  end.

Definition rangeTasks (f : WS.Env → WatcherTask → outcome (option error) * WatcherTask)
    (envs : nat → WS.Env) (result : list error) : M Watcher (list error) :=
  λ w, let '(o, tasks') := forTasks f envs 0 (watcherTasks w) result in
       (o, set_watcherTasks tasks' w).

(** [close(w.doneChan)]: closing a nil or an already closed channel panics. *)
Definition close_doneChan : M Watcher unit :=
  λ w, match doneChan w with
       | DoneOpen => (Ret tt, set_doneChan DoneClosed w)
       | DoneNil => (Panicked, w)
       | DoneClosed => (Panicked, w)
       end.

(** [Watcher.Close]. *)
Definition Close (envs : nat → WS.Env) : M Watcher (option error) :=
  close_doneChan ;;
  result ← rangeTasks WatcherTask_Close envs [];
  mret (ErrorOrNil result).

(** [Watcher.ID]. *)
Definition ID (w : Watcher) : string := id w.

(** A [taskman.Task] of a job: the HTTP request, or the WebSocket task of
    the endpoint at the same position in [watcherTasks]. *)
Inductive JobTask : Type :=
| HTTPJobTask (r : HTTP.httpRequest)
| WSJobTask (t : WS.Task).

(** [taskman.Job]. *)
Record Job : Type := mkJob {
  job_ID : string;
  job_Cadence : Z;
  job_NextExec : Time;
  job_Tasks : list JobTask
}.

Definition WatcherTask_Task (t : WatcherTask) : JobTask :=
  match t with
  | HTTPTask e => HTTPJobTask (HTTP.Task_ e)
  | WSTask e => WSJobTask (WS.Task_ e)
  end.

(** [Watcher.Job]; [now] is [time.Now()]. *)
Definition Job_ (now : Time) (w : Watcher) : Job :=
  mkJob (id w) (cadence w) (now + cadence w) (WatcherTask_Task <$> watcherTasks w).

(** Modelled from the spec: [Watcher.Start(responseChan)], which wadjit.go
    calls; the sources hold this method only under its earlier name
    [Initialize], which this follows line by line. The channels are made,
    every task is initialised with the watcher's id and the task-response
    channel, and the forwarder is spawned; a nil [responseChan] and the
    tasks' failures are collected into the returned error. *)
Definition Start (envs : nat → WS.Env) (responseChan : Chan) : M Watcher (option error) :=
  let result := if responseChan is None
                then multierror_Append [] (errors_New "response channel is nil")
                else [] in
  modify (set_doneChan DoneOpen) ;;
  modify (set_taskResponses true) ;;
  w ← get;
  result ← rangeTasks (λ env, WatcherTask_Initialize env (id w) (Some [])) envs result;
  modify (set_forwarder (Some responseChan)) ;;
  mret (ErrorOrNil result).

(** One pass of the [for]/[select] loop of [Watcher.forwardResponses], run
    by the goroutine recorded in [forwarder].  [incoming] is the record a
    task is offering on [taskResponses], if any; [pickDone] is the choice of
    [select] when both cases are ready.  Returns [true] when the loop goes
    round again, [false] when the goroutine returns. *)
Definition forwardResponsesIter (incoming : option WatcherResponse) (pickDone : bool)
  : M Watcher bool :=
  w ← get;
  match forwarder w with
  | None => mret false
  | Some responseChan =>
      let done := bool_decide (doneChan w = DoneClosed) in
      match (if taskResponses w then incoming else None) with
      | Some resp =>
          if done && pickDone then
            modify (set_forwarder None) ;; mret false
          else
            let resp := mkWatcherResponse (TaskID resp) (id w) (Resp.URL resp)
                          (Err resp) (Resp.Payload resp) in
            match responseChan with
            | None => block
            | Some l => modify (set_forwarder (Some (Some (l ++ [resp])))) ;; mret true
            end
      | None =>
          if done then modify (set_forwarder None) ;; mret false
          else block
      end
  end.

(** [Start] has not run on the watcher: no done channel, no task-response
    channel, no forwarder. *)
Definition notStarted (w : Watcher) : Prop :=
  doneChan w = DoneNil ∧ taskResponses w = false ∧ forwarder w = None.

End Watcher.

(* ===================================================================== *)
(** * wadjit.go *)
(* ===================================================================== *)
Module Wadjit.
Import Watcher.

(** Modelled from the spec: the task manager of the go-taskman dependency,
    which is not part of the sources. "The core depends on a scheduling
    service exposing: scheduleJob(job), removeJob(id), stop(). A job is {id,
    cadence, nextExec, tasks}." Whether [ScheduleJob] accepts a job is the
    dependency's decision and an argument here. *)
Record TaskManager : Type := mkTaskManager {
  jobs : gmap string Job;
  stopped : bool
}.

Definition taskman_New : TaskManager := mkTaskManager ∅ false.

Definition ScheduleJob (refuse : option error) (job : Job) : M TaskManager (option error) :=
  match refuse with
  | Some err => mret (Some err)
  | None =>
      modify (λ tm, mkTaskManager (<[job_ID job := job]> (jobs tm)) (stopped tm)) ;;
      mret None
  end.

Definition RemoveJob (id : string) : M TaskManager unit :=
  modify (λ tm, mkTaskManager (delete id (jobs tm)) (stopped tm)).

Definition Stop : M TaskManager unit :=
  modify (λ tm, mkTaskManager (jobs tm) true).

(** Where the goroutine [listenForWatchers] is: parked on
    [<-w.consumeStarted], in its loop, or returned. *)
Inductive listener : Type := AwaitConsume | Listening | Returned.

#[global] Instance listener_eq_dec : EqDecision listener.
Proof. solve_decision. Defined.

(** [Wadjit], together with what its methods reach through pointers and
    goroutines:
    - [heap]: the [Watcher] objects built so far; a [*Watcher] is an index
      into it, shared by the caller, the queue and the map;
    - [watchers]: the [sync.Map] from watcher id to [*Watcher];
    - [newWatcherChan]: the content of the buffered channel (capacity 16);
    - [userChan]: what has been sent to the consumer so far;
    - [wRespChan] is only received from by the manager: what arrives on it
      is an argument of [listenForResponsesIter], and what a watcher sends on
      it is recorded in the watcher's [forwarder];
    - [consumeStarted] is unbuffered, so a send on it is a rendezvous with
      the receive in [listenForWatchers]: it is the field [watcherListener];
    - [responseListener]: [listenForResponses] is still in its loop;
    - [cancelled]: [ctx] is done. *)
Record Wadjit : Type := mkWadjit {
  heap : list Watcher;
  watchers : gmap string nat;
  taskManager : TaskManager;
  newWatcherChan : list nat;
  userChan : list WatcherResponse;
  watcherListener : listener;
  responseListener : bool;
  cancelled : bool
}.

Definition set_heap (v : list Watcher) (s : Wadjit) : Wadjit :=
  mkWadjit v (watchers s) (taskManager s) (newWatcherChan s) (userChan s)
    (watcherListener s) (responseListener s) (cancelled s).
Definition set_watchers (v : gmap string nat) (s : Wadjit) : Wadjit :=
  mkWadjit (heap s) v (taskManager s) (newWatcherChan s) (userChan s)
    (watcherListener s) (responseListener s) (cancelled s).
Definition set_taskManager (v : TaskManager) (s : Wadjit) : Wadjit :=
  mkWadjit (heap s) (watchers s) v (newWatcherChan s) (userChan s)
    (watcherListener s) (responseListener s) (cancelled s).
Definition set_newWatcherChan (v : list nat) (s : Wadjit) : Wadjit :=
  mkWadjit (heap s) (watchers s) (taskManager s) v (userChan s)
    (watcherListener s) (responseListener s) (cancelled s).
Definition set_userChan (v : list WatcherResponse) (s : Wadjit) : Wadjit :=
  mkWadjit (heap s) (watchers s) (taskManager s) (newWatcherChan s) v
    (watcherListener s) (responseListener s) (cancelled s).
Definition set_watcherListener (v : listener) (s : Wadjit) : Wadjit :=
  mkWadjit (heap s) (watchers s) (taskManager s) (newWatcherChan s) (userChan s)
    v (responseListener s) (cancelled s).
Definition set_responseListener (v : bool) (s : Wadjit) : Wadjit :=
  mkWadjit (heap s) (watchers s) (taskManager s) (newWatcherChan s) (userChan s)
    (watcherListener s) v (cancelled s).
Definition set_cancelled (v : bool) (s : Wadjit) : Wadjit :=
  mkWadjit (heap s) (watchers s) (taskManager s) (newWatcherChan s) (userChan s)
    (watcherListener s) (responseListener s) v.

(** A method of the watcher behind pointer [p]; the nil (or dangling)
    pointer panics. *)
Definition atWatcher {A} (p : nat) (m : M Watcher A) : M Wadjit A :=
  λ s, match heap s !! p with
       | None => (Panicked, s)
       | Some w => let '(o, w') := m w in (o, set_heap (<[p := w']> (heap s)) s)
       end.

(** A method of [w.taskManager]. *)
Definition atTaskManager {A} (m : M TaskManager A) : M Wadjit A :=
  λ s, let '(o, tm) := m (taskManager s) in (o, set_taskManager tm s).

(** [New]: the two loops are spawned, the first parked on the gate. *)
Definition New : Wadjit :=
  mkWadjit [] ∅ taskman_New [] [] AwaitConsume true false.

(** [&Watcher{id: ..., cadence: ..., payload: ..., watcherTasks: ...}]: a
    watcher is built; the result is its pointer. *)
Definition newWatcher (id : string) (cadence : Z) (payload : bytes)
    (tasks : list WatcherTask) : M Wadjit nat :=
  s ← get;
  modify (set_heap (heap s ++ [mkWatcher id cadence payload tasks false DoneNil None])) ;;
  mret (length (heap s)).

Section WithValidate.

(** [Watcher.Validate] is called by [AddWatcher] and is not part of the
    sources: it is a parameter, a method on the watcher's state. *)
Variable Validate : M Watcher (option error).

(** [Wadjit.AddWatcher]. *)
Definition AddWatcher (watcher : nat) : M Wadjit (option error) :=
  r ← atWatcher watcher Validate;
  match r with
  | Some err => mret (Some (Errorf "error validating watcher: " err))
  | None =>
      s ← get;
      if bool_decide (length (newWatcherChan s) < 16)%nat then
        modify (set_newWatcherChan (newWatcherChan s ++ [watcher])) ;;
        mret None
      else block
  end.

(** [Wadjit.RemoveWatcher]; [envs i] is what the world answers while task
    [i] of the watcher is closed. *)
Definition RemoveWatcher (envs : nat → WS.Env) (id : string) : M Wadjit (option error) :=
  s ← get;
  match watchers s !! id with
  | None => mret (Some (fmt_Errorf ("watcher with ID " +:+ id +:+ " not found")))
  | Some watcher =>
      modify (λ s, set_watchers (delete id (watchers s)) s) ;;
      err ← atWatcher watcher (Watcher.Close envs);
      match err with
      | Some err => mret (Some err)
      | None =>
          atTaskManager (RemoveJob id) ;;
          mret None
      end
  end.

(** The [Range] of [Wadjit.Close]: every stored watcher is closed, its error
    dropped. [envs k i]: task [i] of the [k]-th watcher visited. *)
Fixpoint closeAll (envs : nat → nat → WS.Env) (k : nat) (ps : list (string * nat))
  : M Wadjit unit :=
  match ps with
  | [] => mret tt
  | (_, p) :: rest =>
      _ ← atWatcher p (Watcher.Close (envs k));
      closeAll envs (S k) rest
  end.

(** [Wadjit.Close]. *)
Definition Close (envs : nat → nat → WS.Env) : M Wadjit unit :=
  modify (set_cancelled true) ;;
  atTaskManager Stop ;;
  s ← get;
  closeAll envs 0 (map_to_list (watchers s)).

(** [Wadjit.ResponsesChannel]: the send on [consumeStarted] completes when
    [listenForWatchers] is parked on the receive, and lets it into its loop;
    with no receiver left the send never completes. *)
Definition ResponsesChannel : M Wadjit (list WatcherResponse) :=
  s ← get;
  match watcherListener s with
  | AwaitConsume =>
      modify (set_watcherListener Listening) ;;
      mret (userChan s)
  | Listening => block
  | Returned => block
  end.

(** One pass of the loop of [Wadjit.listenForResponses]; [incoming] is the
    record a watcher offers on [wRespChan], if any, [pickDone] the choice of
    [select] when both cases are ready. *)
Definition listenForResponsesIter (incoming : option WatcherResponse) (pickDone : bool)
  : M Wadjit unit :=
  s ← get;
  if negb (responseListener s) then mret tt
  else
    match incoming with
    | Some response =>
        if cancelled s && pickDone then modify (set_responseListener false)
        else modify (set_userChan (userChan s ++ [response]))
    | None =>
        if cancelled s then modify (set_responseListener false) else block
    end.

(** What the world answers during one pass of [listenForWatchers]. *)
Record ListenEnv : Type := mkListenEnv {
  taskEnvs : nat → WS.Env;
  jobNow : Time;
  refuse : option error;
  pickDone : bool
}.

(** [Wadjit.listenForWatchers]: the receive on the gate, then one pass of
    the [for]/[select] loop per call. The two [fmt.Printf] are not modelled. *)
Definition listenForWatchersIter (env : ListenEnv) : M Wadjit unit :=
  s ← get;
  match watcherListener s with
  | AwaitConsume => block
  | Returned => mret tt
  | Listening =>
      match newWatcherChan s with
      | watcher :: rest =>
          if cancelled s && pickDone env then modify (set_watcherListener Returned)
          else
            modify (set_newWatcherChan rest) ;;
            err ← atWatcher watcher (Watcher.Start (taskEnvs env) (Some []));
            match err with
            | Some _ => mret tt
            | None =>
                s ← get;
                w ← deref (heap s !! watcher);
                let job := Job_ (jobNow env) w in
                err ← atTaskManager (ScheduleJob (refuse env) job);
                match err with
                | Some _ => mret tt
                | None => modify (λ s, set_watchers (<[Watcher.ID w := watcher]> (watchers s)) s)
                end
            end
      | [] =>
          if cancelled s then modify (set_watcherListener Returned) else block
      end
  end.

(** What can happen to a manager: the calls of its user and the passes of
    its two loops. *)
Inductive event : Type :=
| EvNewWatcher (id : string) (cadence : Z) (payload : bytes) (tasks : list WatcherTask)
| EvAddWatcher (watcher : nat)
| EvRemoveWatcher (envs : nat → WS.Env) (id : string)
| EvClose (envs : nat → nat → WS.Env)
| EvResponsesChannel
| EvListenForWatchers (env : ListenEnv)
| EvListenForResponses (incoming : option WatcherResponse) (pickDone : bool).

(** The state after an event (what the call had written when it returned,
    parked or panicked). *)
Definition exec (ev : event) (s : Wadjit) : Wadjit :=
  match ev with
  | EvNewWatcher id cadence payload tasks => (newWatcher id cadence payload tasks s).2
  | EvAddWatcher p => (AddWatcher p s).2
  | EvRemoveWatcher envs id => (RemoveWatcher envs id s).2
  | EvClose envs => (Close envs s).2
  | EvResponsesChannel => (ResponsesChannel s).2
  | EvListenForWatchers env => (listenForWatchersIter env s).2
  | EvListenForResponses incoming pick => (listenForResponsesIter incoming pick s).2
  end.

Definition run (evs : list event) (s : Wadjit) : Wadjit :=
  foldl (λ s ev, exec ev s) s evs.

End WithValidate.

(** Nothing is active in the manager: no watcher is stored, no job is
    scheduled, and no watcher on the heap has been started. *)
Definition idle (s : Wadjit) : Prop :=
  watchers s = ∅ ∧ jobs (taskManager s) = ∅ ∧ Forall notStarted (heap s).

(** Every stored watcher has its job with the task manager. *)
Definition scheduled (s : Wadjit) : Prop :=
  ∀ wid, is_Some (watchers s !! wid) → is_Some (jobs (taskManager s) !! wid).

(** What is assumed of [ScheduleJob], which the sources do not hold: in
    the pass of [listenForWatchers] answered by [env], the task manager
    refuses the job of the queued watcher when it holds a job of that id
    already. *)
Definition dutiful (env : ListenEnv) (s : Wadjit) : Prop :=
  ∀ p rest w,
    newWatcherChan s = p :: rest → heap s !! p = Some w →
    is_Some (jobs (taskManager s) !! id w) → is_Some (refuse env).

End Wadjit.

(* ===================================================================== *)
(** * A concrete codec, to evaluate the definitions on concrete inputs *)
(* ===================================================================== *)
Module Toy.

(** A one-line wire format: the id ([-] for none, [s...] for a string,
    [n...] for a number), a colon, and the rest (the method of a request,
    the result of a response). The empty frame is the empty response. *)
Fixpoint splitColon (s : string) : option (string * string) :=
  match s with
  | EmptyString => None
  | String c s' =>
      if Ascii.eqb c ":"%char then Some (EmptyString, s')
      else match splitColon s' with
           | Some (a, b) => Some (String c a, b)
           | None => None
           end
  end.

Fixpoint digits (s : string) (acc : Z) : option Z :=
  match s with
  | EmptyString => Some acc
  | String c s' =>
      let n := Z.of_nat (Ascii.nat_of_ascii c) in
      if (48 <=? n) && (n <=? 57) then digits s' (10 * acc + (n - 48)) else None
  end.

Definition parseID (s : string) : option any :=
  match s with
  | String "-"%char EmptyString => Some AnyNil
  | String "s"%char r => Some (AnyString r)
  | String "n"%char (String c r) => AnyNumber <$> digits (String c r) 0
  | _ => None
  end.

Fixpoint printNat (fuel n : nat) (acc : string) : string :=
  match fuel with
  | O => acc
  | S fuel =>
      let acc := String (Ascii.ascii_of_nat (48 + n mod 10)) acc in
      if (n / 10 =? 0)%nat then acc else printNat fuel (n / 10) acc
  end.

Definition printID (a : any) : string :=
  match a with
  | AnyNil => "-"
  | AnyString s => "s" +:+ s
  | AnyNumber n => "n" +:+ printNat (S (Z.to_nat n)) (Z.to_nat n) ""
  end.

Definition parse (b : bytes) : error + (any * string) :=
  match b with
  | None => inl (LibError "no input")
  | Some s =>
      match splitColon s with
      | None => inl (LibError "no colon")
      | Some (i, rest) =>
          match parseID i with
          | None => inl (LibError "bad id")
          | Some id => inr (id, rest)
          end
      end
  end.

#[global] Instance codec : Codec := {|
  Request_UnmarshalJSON b :=
    match parse b with
    | inl err => inl err
    | inr (id, m) => inr (mkRequest "2.0" id m None)
    end;
  Request_IsEmpty r := bool_decide (req_Method r = "");
  sonic_Marshal r := inr (Some (printID (req_ID r) +:+ ":" +:+ req_Method r));
  DecodeResponse b :=
    if bool_decide (b = Some "") then inr (mkResponse "" AnyNil None None)
    else match parse b with
         | inl err => inl err
         | inr (id, res) => inr (mkResponse "2.0" id (Some res) None)
         end;
  Response_IsEmpty r := bool_decide (resp_JSONRPC r = "");
  Response_IDString r :=
    match resp_ID r with
    | AnyNil => ""
    | AnyString s => s
    | AnyNumber n => printNat (S (Z.to_nat n)) (Z.to_nat n) ""
    end;
  Response_MarshalJSON r :=
    inr (Some (printID (resp_ID r) +:+ ":" +:+ default "" (resp_Result r)))
|}.

(** A persistent endpoint after a successful [Initialize], with nothing in
    flight. *)
Definition endpointWith (payload : bytes) : WS.WSEndpoint :=
  WS.mkWSEndpoint false (Some ∅) WS.PersistentJSONRPC payload
    (Some "ws://peer/ws") "task-1" (Some (WS.mkConn 1 (Some "10.0.0.1:80")))
    (Some "10.0.0.1:80") ∅ 1 "watcher-1" (Some []) (Some false) [].

(** Its payload is the request of the spec's correlation scenario: id 42,
    method eth_chainId. *)
Definition endpoint : WS.WSEndpoint := endpointWith (Some "n42:eth_chainId").

(** A world in which every socket operation succeeds; the peer's frame is
    [frame], the generated correlation id is [cid]. *)
Definition env (cid : string) (frame : bytes) : WS.Env :=
  WS.mkEnv (λ k, 100 + Z.of_nat k) cid (inr (WS.mkConn 2 (Some "10.0.0.1:80")))
    false None None None (inr frame).

(** A started watcher with one HTTP task and one WebSocket task, and a world
    in which closing the socket works. *)
Definition started : Watcher.Watcher :=
  Watcher.mkWatcher "watcher-1" 5000000 None
    [Watcher.HTTPTask (HTTP.mkHTTPEndpoint (Some ∅) "GET" None (Some "http://peer/") "task-0"
                 None (Some HTTP.DefaultClient) false "watcher-1" (Some []));
     Watcher.WSTask endpoint]
    true Watcher.DoneOpen (Some (Some [])).

(** A manager whose [Validate] accepts every watcher; two watchers are built
    and added before the consumer asks for the responses. *)
Definition scenario : list Wadjit.event :=
  [Wadjit.EvNewWatcher "a" 5000000 None [Watcher.WSTask endpoint];
   Wadjit.EvAddWatcher 0;
   Wadjit.EvNewWatcher "b" 15000000 None [Watcher.WSTask endpoint];
   Wadjit.EvAddWatcher 1;
   Wadjit.EvListenForWatchers (Wadjit.mkListenEnv (λ _, env "" None) 0 None false)].

End Toy.

(* ===================================================================== *)
(** * A small program logic for [Go.M]: the judgements *)
(* ===================================================================== *)
Module Logic.

(** [triple P m Q E]: run from a state in [P], a call that returns [a]
    leaves a state in [Q a], a call that panics leaves a state in [E].
    Nothing is said of a parked call. *)
Definition triple {S A} (P : S → Prop) (m : M S A) (Q : A → S → Prop) (E : S → Prop)
  : Prop :=
  ∀ s, P s →
    match m s with
    | (Ret a, s') => Q a s'
    | (Blocked, _) => True
    | (Panicked, s') => E s'
    end.

(** [preserves I m]: [I] holds after [m], returned or panicked, when it held
    before. *)
Definition preserves {S A} (I : S → Prop) (m : M S A) : Prop :=
  triple I m (λ _, I) I.

(** [frames R m]: however [m] ends (returned, parked or panicked), the
    state it leaves is related by [R] to the state it started from. *)
Definition frames {S A} (R : S → S → Prop) (m : M S A) : Prop :=
  ∀ s, R s (m s).2.

End Logic.

(* ===================================================================== *)
(** * Vocabulary of the further statements about the endpoint *)
(* ===================================================================== *)
Module WSVocab.
Import WS.

(** [m] gives the mutex back: run while nobody holds the mutex, it leaves
    the mutex free when it returns and when it panics. *)
Definition releases {A} (m : M WSEndpoint A) : Prop :=
  ∀ e, mu e = false →
    match m e with
    | (Ret _, e') => mu e' = false
    | (Blocked, _) => True
    | (Panicked, e') => mu e' = false
    end.

(** [l'] extends the log [l] of a channel; a nil channel stays nil. *)
Definition grows {A} (c c' : option (list A)) : Prop :=
  match c, c' with
  | Some l, Some l' => l `prefix_of` l'
  | None, None => True
  | _, _ => False
  end.

(** What a persistent [Execute] may do to the endpoint besides taking the
    mutex: replace the connection, count a pump, add in-flight entries, send
    records and write frames. The configuration, the context and the
    recorded remote address are as before. *)
Definition taskFrame (e e' : WSEndpoint) : Prop :=
  Header e' = Header e ∧ Mode e' = Mode e ∧ Payload e' = Payload e
  ∧ URL e' = URL e ∧ ID e' = ID e ∧ watcherID e' = watcherID e
  ∧ ctx e' = ctx e ∧ remoteAddr e' = remoteAddr e
  ∧ grows (respChan e) (respChan e') ∧ written e `prefix_of` written e'.

(** What a one-hit [Execute] may do besides taking the mutex: send
    records. *)
Definition oneHitFrame (e e' : WSEndpoint) : Prop :=
  taskFrame e e' ∧ conn e' = conn e ∧ wg e' = wg e
  ∧ inflightMsgs e' = inflightMsgs e ∧ written e' = written e.

(** What the read pump may do over [n] reads: drop the connection, remove
    in-flight entries, send at most [n] records, and count itself out. *)
Definition answers (n : nat) (e e' : WSEndpoint) : Prop :=
  mu e' = mu e ∧ Header e' = Header e ∧ Mode e' = Mode e ∧ Payload e' = Payload e
  ∧ URL e' = URL e ∧ ID e' = ID e ∧ watcherID e' = watcherID e
  ∧ ctx e' = ctx e ∧ remoteAddr e' = remoteAddr e ∧ written e' = written e
  ∧ (conn e' = conn e ∨ conn e' = None)
  ∧ (wg e' ≤ wg e)%nat
  ∧ inflightMsgs e' ⊆ inflightMsgs e
  ∧ match respChan e, respChan e' with
    | Some l, Some l' => l `prefix_of` l' ∧ (length l' ≤ length l + n)%nat
    | None, None => True
    | _, _ => False
    end.

(** The endpoint as [Initialize] configures it before it looks at the
    mode: the watcher id, the response channel and a fresh context. *)
Definition configured (watcherID : string) (ch : Chan) (e : WSEndpoint) : WSEndpoint :=
  set_ctx (Some false) (set_respChan ch (set_watcherID watcherID e)).

End WSVocab.


(* ===================================================================== *)
(** * task_http.go: the constructor and its options *)
(* ===================================================================== *)
Module HTTPOptions.
Import HTTP.

(** [HTTPEndpointOption]: a function applied to the endpoint under
    construction. *)
Definition HTTPEndpointOption : Type := HTTPEndpoint → HTTPEndpoint.

(** [WithHeader], [WithID], [WithPayload], [WithReadFast],
    [WithTransportControl]. *)
Definition WithHeader (h : option (gmap string (list string))) : HTTPEndpointOption :=
  λ ep, mkHTTPEndpoint h (Method ep) (Payload ep) (URL ep) (ID ep)
          (TransportControl_ ep) (client ep) (OptReadFast ep) (watcherID ep) (respChan ep).
Definition WithID (id : string) : HTTPEndpointOption :=
  λ ep, mkHTTPEndpoint (Header ep) (Method ep) (Payload ep) (URL ep) id
          (TransportControl_ ep) (client ep) (OptReadFast ep) (watcherID ep) (respChan ep).
Definition WithPayload (b : bytes) : HTTPEndpointOption :=
  λ ep, mkHTTPEndpoint (Header ep) (Method ep) b (URL ep) (ID ep)
          (TransportControl_ ep) (client ep) (OptReadFast ep) (watcherID ep) (respChan ep).
Definition WithReadFast : HTTPEndpointOption :=
  λ ep, mkHTTPEndpoint (Header ep) (Method ep) (Payload ep) (URL ep) (ID ep)
          (TransportControl_ ep) (client ep) true (watcherID ep) (respChan ep).
Definition WithTransportControl (tc : option TransportControl) : HTTPEndpointOption :=
  λ ep, mkHTTPEndpoint (Header ep) (Method ep) (Payload ep) (URL ep) (ID ep)
          tc (client ep) (OptReadFast ep) (watcherID ep) (respChan ep).

(** [NewHTTPEndpoint]; [fresh] is the id [xid.New().String()] returns. *)
Definition NewHTTPEndpoint (fresh : string) (u : option string) (method : string)
    (opts : list HTTPEndpointOption) : HTTPEndpoint :=
  foldl (λ ep opt, opt ep)
    (mkHTTPEndpoint (Some ∅) method None u fresh None None false "" None) opts.

(** The options the package exports. *)
Inductive exported : HTTPEndpointOption → Prop :=
| exported_WithHeader h : exported (WithHeader h)
| exported_WithID id : exported (WithID id)
| exported_WithPayload b : exported (WithPayload b)
| exported_WithReadFast : exported WithReadFast
| exported_WithTransportControl tc : exported (WithTransportControl tc).

(** The endpoint [Validate] leaves when the URL is set: the header map made
    and the id drawn where they were missing. *)
Definition withDefaults (fresh : string) (e : HTTPEndpoint) : HTTPEndpoint :=
  mkHTTPEndpoint (if Header e is None then Some ∅ else Header e) (Method e) (Payload e)
    (URL e) (if bool_decide (ID e = "") then fresh else ID e)
    (TransportControl_ e) (client e) (OptReadFast e) (watcherID e) (respChan e).

(** The client [Initialize] builds for an endpoint whose URL is [url]. *)
Definition clientFor (url : string) (e : HTTPEndpoint) : Client :=
  match TransportControl_ e with
  | None => DefaultClient
  | Some tc =>
      PinnedClient (AddrPort tc)
        (if TLSEnabled tc then Some (url, SkipTLSVerify tc) else None)
  end.

End HTTPOptions.

(* ===================================================================== *)
(** * The watcher's forwarding goroutine *)
(* ===================================================================== *)
Module WatcherRun.
Import Watcher.

(** The [for]/[select] loop of [Watcher.forwardResponses] over what the
    tasks offer, in order: each step is the record offered and the choice of
    [select] should the done channel be ready as well. After the last step
    nothing is offered any more. *)
Fixpoint forwardResponses (steps : list (WatcherResponse * bool)) : M Watcher unit :=
  match steps with
  | [] => _ ← forwardResponsesIter None false; mret tt
  | (resp, pickDone) :: rest =>
      again ← forwardResponsesIter (Some resp) pickDone;
      if (again : bool) then forwardResponses rest else mret tt
  end.

(** [resp.WatcherID = w.id]: the record with the watcher's id attached. *)
Definition tagged (wid : string) (resp : WatcherResponse) : WatcherResponse :=
  mkWatcherResponse (TaskID resp) wid (Resp.URL resp) (Err resp) (Resp.Payload resp).

End WatcherRun.

(* ===================================================================== *)
(** * The manager's response loop *)
(* ===================================================================== *)
Module WadjitRun.
Import Wadjit.

(** The [for]/[select] loop of [Wadjit.listenForResponses] over what the
    watchers offer on [wRespChan], in order: each step is the record offered
    and the choice of [select] should the context be done as well. The loop
    goes on while the goroutine has not returned; after the last step nothing
    is offered any more. *)
Fixpoint listenForResponses (steps : list (WatcherResponse * bool)) : M Wadjit unit :=
  match steps with
  | [] => listenForResponsesIter None false
  | (response, pickDone) :: rest =>
      listenForResponsesIter (Some response) pickDone ;;
      s ← get;
      if responseListener s then listenForResponses rest else mret tt
  end.

End WadjitRun.

(* ===================================================================== *)
(** * Concrete managers, to evaluate the definitions on concrete inputs *)
(* ===================================================================== *)
Module Scenario.
Import Watcher Wadjit.

(** Worlds in which every socket operation succeeds, and one in which the
    close handshake cannot be written. *)
Definition world : nat → WS.Env := λ _, Toy.env "" None.
Definition worlds : nat → nat → WS.Env := λ _, world.
Definition broken : nat → WS.Env :=
  λ _, WS.mkEnv (λ _, 0) "" (inl (mkWsError None "refused")) false
         (Some (mkWsError None "broken pipe")) None None (inl (mkWsError None "eof")).

(** A manager past the gate that runs the started watcher of [Toy]. *)
Definition managing : Wadjit :=
  mkWadjit [Toy.started] {["watcher-1" := 0%nat]}
    (mkTaskManager {["watcher-1" := Job_ 0 Toy.started]} false)
    [] [] Listening true false.

(** A watcher with one HTTP task, as built by the caller, and a manager past
    the gate in whose queue it waits. *)
Definition fresh : Watcher :=
  mkWatcher "watcher-2" 5000000 None
    [HTTPTask (HTTPOptions.NewHTTPEndpoint "task-0" (Some "http://peer/") "GET" [])]
    false DoneNil None.
Definition queued : Wadjit :=
  mkWadjit [fresh] ∅ taskman_New [0%nat] [] Listening true false.

(** A pass of [listenForWatchers] in which the task manager accepts, or
    refuses, the job; [pick] is the choice of [select]. *)
Definition accepting (pick : bool) : ListenEnv := mkListenEnv world 0 None pick.
Definition refusing : ListenEnv :=
  mkListenEnv world 0 (Some (LibError "task manager stopped")) false.

End Scenario.

(* ===================================================================== *)
(** * pkg/scheduler/scheduler.go *)
(* ===================================================================== *)
Module Sched.

(** [sync.RWMutex]: a writer holds it, or readers do. *)
Record RWMutex : Type := mkRWMutex {
  writer : bool;
  readers : nat
}.

(** [atomic.Int32.Add]: 32-bit two's complement. *)
Definition wrap32 (z : Z) : Z := (z + 2 ^ 31) mod 2 ^ 32 - 2 ^ 31.

Section WithTask.

(** The [Task] interface is declared outside scheduler.go; the scheduler
    calls its [Cadence()] only. *)
Variable Task : Type.
Variable Task_Cadence : Task → Z.

(** [ScheduledTask]. *)
Record ScheduledTask : Type := mkScheduledTask {
  Cadence : Z;
  NextExec : Time;
  Task_ : Task;
  TaskGroupID : string
}.

(** [ScheduledTaskGroup]; its [ready] channel is made and never used.
    [waitGroup] is the counter of the [sync.WaitGroup], an int32 as
    [TaskCount] is; nobody waits on it. *)
Record ScheduledTaskGroup : Type := mkScheduledTaskGroup {
  ID : string;
  TaskCount : Z;
  waitGroup : Z
}.

(** The [chan<- Task] towards the worker pool, seen from the scheduler:
    what has been sent, and how many more sends the pool takes before a
    send parks. *)
Record TaskChan : Type := mkTaskChan {
  sent : list Task;
  room : nat
}.

(** [Scheduler], as [NewScheduler] makes it: the stop channel is open or
    closed, the task channel is the caller's (nil, maybe); a
    [*ScheduledTask] is a position in [tasks], a [*ScheduledTaskGroup] a
    value of [taskGroups]. [running] counts the goroutines in [run]. *)
Record Scheduler : Type := mkScheduler {
  rw : RWMutex;
  stopClosed : bool;
  taskChannel : option TaskChan;
  tasks : list ScheduledTask;
  taskGroups : gmap string ScheduledTaskGroup;
  running : nat
}.

Definition set_rw (v : RWMutex) (s : Scheduler) : Scheduler :=
  mkScheduler v (stopClosed s) (taskChannel s) (tasks s) (taskGroups s) (running s).
Definition set_stopClosed (v : bool) (s : Scheduler) : Scheduler :=
  mkScheduler (rw s) v (taskChannel s) (tasks s) (taskGroups s) (running s).
Definition set_taskChannel (v : option TaskChan) (s : Scheduler) : Scheduler :=
  mkScheduler (rw s) (stopClosed s) v (tasks s) (taskGroups s) (running s).
Definition set_tasks (v : list ScheduledTask) (s : Scheduler) : Scheduler :=
  mkScheduler (rw s) (stopClosed s) (taskChannel s) v (taskGroups s) (running s).
Definition set_taskGroups (v : gmap string ScheduledTaskGroup) (s : Scheduler) : Scheduler :=
  mkScheduler (rw s) (stopClosed s) (taskChannel s) (tasks s) v (running s).
Definition set_running (v : nat) (s : Scheduler) : Scheduler :=
  mkScheduler (rw s) (stopClosed s) (taskChannel s) (tasks s) (taskGroups s) v.

(** [s.Lock()], [s.Unlock()], [s.RLock()], [s.RUnlock()]. *)
Definition Lock : M Scheduler unit :=
  λ s, if writer (rw s) || (0 <? readers (rw s))%nat then (Blocked, s)
       else (Ret tt, set_rw (mkRWMutex true 0) s).
Definition Unlock : M Scheduler unit :=
  λ s, if writer (rw s) then (Ret tt, set_rw (mkRWMutex false (readers (rw s))) s)
       else (Panicked, s).
Definition RLock : M Scheduler unit :=
  λ s, if writer (rw s) then (Blocked, s)
       else (Ret tt, set_rw (mkRWMutex false (S (readers (rw s)))) s).
Definition RUnlock : M Scheduler unit :=
  λ s, match readers (rw s) with
       | O => (Panicked, s)
       | S n => (Ret tt, set_rw (mkRWMutex (writer (rw s)) n) s)
       end.

(** [s.taskChannel <- task]. *)
Definition send (task : Task) : M Scheduler unit :=
  λ s, match taskChannel s with
       | None => (Blocked, s)
       | Some c =>
           match room c with
           | O => (Blocked, s)
           | S n => (Ret tt, set_taskChannel (Some (mkTaskChan (sent c ++ [task]) n)) s)
           end
       end.

(** [Scheduler.AddTask]; [now] is [time.Now()]. *)
Definition AddTask (now : Time) (task : Task) : M Scheduler unit :=
  Lock ;;
  defer Unlock (
    modify (λ s, set_tasks
                   (tasks s ++ [mkScheduledTask (Task_Cadence task)
                                  (now + Task_Cadence task) task ""]) s)).

(** [Scheduler.AddTaskToGroup]. *)
Definition AddTaskToGroup (now : Time) (task : Task) (groupID : string)
  : M Scheduler unit :=
  Lock ;;
  defer Unlock (
    s ← get;
    group ← match taskGroups s !! groupID with
            | Some group => mret group
            | None =>
                let group := mkScheduledTaskGroup groupID 0 0 in
                modify (λ s, set_taskGroups (<[groupID := group]> (taskGroups s)) s) ;;
                mret group
            end;
    (* group.TaskCount.Add(1) *)
    let group := mkScheduledTaskGroup (ID group) (wrap32 (TaskCount group + 1))
                   (waitGroup group) in
    modify (λ s, set_taskGroups (<[groupID := group]> (taskGroups s)) s) ;;
    (* group.waitGroup.Add(1): the counter is added to, and a counter that
       has become negative panics *)
    let group := mkScheduledTaskGroup (ID group) (TaskCount group)
                   (wrap32 (waitGroup group + 1)) in
    modify (λ s, set_taskGroups (<[groupID := group]> (taskGroups s)) s) ;;
    (if waitGroup group <? 0 then panic else mret tt) ;;
    modify (λ s, set_tasks
                   (tasks s ++ [mkScheduledTask (Task_Cadence task)
                                  (now + Task_Cadence task) task groupID]) s)).

(** [Scheduler.Start]: [go s.run()]. *)
Definition Start : M Scheduler unit :=
  modify (λ s, set_running (S (running s)) s).

(** [now.After(scheduledTask.NextExec)]. *)
Definition due (now : Time) (st : ScheduledTask) : bool := NextExec st <? now.

(** The first loop of a tick: the pointers of the due tasks, in the order
    of [s.tasks]; [i] is the position of the head of [l]. *)
Fixpoint tasksToExecute (now : Time) (i : nat) (l : list ScheduledTask) : list nat :=
  match l with
  | [] => []
  | st :: rest =>
      if due now st then i :: tasksToExecute now (S i) rest
      else tasksToExecute now (S i) rest
  end.

(** [scheduledTask.NextExec = now.Add(scheduledTask.Cadence)], through the
    pointer. *)
Definition reschedule (now : Time) (st : ScheduledTask) : ScheduledTask :=
  mkScheduledTask (Cadence st) (now + Cadence st) (Task_ st) (TaskGroupID st).

Definition rescheduleAt (now : Time) (i : nat) (st : ScheduledTask) : M Scheduler unit :=
  Lock ;;
  modify (λ s, set_tasks (<[i := reschedule now st]> (tasks s)) s) ;;
  Unlock.

(** The second loop of a tick, over the pointers collected. *)
Fixpoint sendDue (now : Time) (ptrs : list nat) : M Scheduler unit :=
  match ptrs with
  | [] => mret tt
  | i :: rest =>
      s ← get;
      scheduledTask ← deref (tasks s !! i);
      (if bool_decide (TaskGroupID scheduledTask = "") then
         rescheduleAt now i scheduledTask ;;
         send (Task_ scheduledTask)
       else
         RLock ;;
         s ← get;
         let group := taskGroups s !! TaskGroupID scheduledTask in
         RUnlock ;;
         group ← deref group;
         if 0 <? TaskCount group then
           rescheduleAt now i scheduledTask ;;
           send (Task_ scheduledTask)
         else mret tt) ;;
      sendDue now rest
  end.

(** The [case <-ticker.C] of [run]; [now] is [time.Now()]. *)
Definition tick (now : Time) : M Scheduler unit :=
  RLock ;;
  s ← get;
  let ptrs := tasksToExecute now 0 (tasks s) in
  RUnlock ;;
  sendDue now ptrs.

(** One pass of the [for]/[select] loop of [Scheduler.run]: [ticked] is the
    time of the tick that is ready, if one is, [pickStop] the choice of
    [select] when both cases are ready. Returns [true] when the loop goes
    round again, [false] when the goroutine returns. *)
Definition run (ticked : option Time) (pickStop : bool) : M Scheduler bool :=
  s ← get;
  match ticked with
  | Some now =>
      if stopClosed s && pickStop then
        modify (λ s, set_running (pred (running s)) s) ;; mret false
      else tick now ;; mret true
  | None =>
      if stopClosed s then
        modify (λ s, set_running (pred (running s)) s) ;; mret false
      else block
  end.

(** [Scheduler.Stop]. *)
Definition Stop : M Scheduler unit :=
  Lock ;;
  s ← get;
  (if stopClosed s then mret tt else modify (set_stopClosed true)) ;;
  Unlock.

(** [NewScheduler]. *)
Definition NewScheduler (taskChan : option TaskChan) : Scheduler :=
  mkScheduler (mkRWMutex false 0) false taskChan [] ∅ 0.

(** What can happen to a scheduler. *)
Inductive op : Type :=
| OpAddTask (now : Time) (task : Task)
| OpAddTaskToGroup (now : Time) (task : Task) (groupID : string)
| OpStart
| OpRun (ticked : option Time) (pickStop : bool)
| OpStop
| OpReceive (n : nat).

(** The state after an operation; [OpReceive n]: the worker pool makes room
    for [n] more tasks. *)
Definition exec (o : op) (s : Scheduler) : Scheduler :=
  match o with
  | OpAddTask now task => (AddTask now task s).2
  | OpAddTaskToGroup now task groupID => (AddTaskToGroup now task groupID s).2
  | OpStart => (Start s).2
  | OpRun ticked pickStop => (run ticked pickStop s).2
  | OpStop => (Stop s).2
  | OpReceive n =>
      set_taskChannel
        ((λ c, mkTaskChan (sent c) (room c + n)) <$> taskChannel s) s
  end.

Definition execs (ops : list op) (s : Scheduler) : Scheduler :=
  foldl (λ s o, exec o s) s ops.

(** The number of tasks of [l] in the group [groupID]. *)
Definition inGroup (groupID : string) (l : list ScheduledTask) : nat :=
  length (filter (λ st, TaskGroupID st = groupID) l).

(** Nobody holds the mutex. *)
Definition free (s : Scheduler) : Prop := rw s = mkRWMutex false 0.

(** Every grouped task has its group, and every group with a name has
    tasks and counts them. *)
Definition grouped (s : Scheduler) : Prop :=
  (∀ i st, tasks s !! i = Some st → TaskGroupID st ≠ "" →
           is_Some (taskGroups s !! TaskGroupID st))
  ∧ (∀ groupID group, taskGroups s !! groupID = Some group → groupID ≠ "" →
       ID group = groupID
       ∧ (0 < inGroup groupID (tasks s))%nat
       ∧ TaskCount group = wrap32 (Z.of_nat (inGroup groupID (tasks s)))
       ∧ waitGroup group = Z.of_nat (inGroup groupID (tasks s))).

(** The invariant of the scheduler between calls: nobody holds the mutex,
    and the groups are in order. *)
Definition steady (s : Scheduler) : Prop := free s ∧ grouped s.

(** The scheduler [AddTaskToGroup] leaves, given the group it found or
    made. *)
Definition joined (now : Time) (task : Task) (groupID : string)
    (group : ScheduledTaskGroup) (s : Scheduler) : Scheduler :=
  mkScheduler (rw s) (stopClosed s) (taskChannel s)
    (tasks s ++ [mkScheduledTask (Task_Cadence task) (now + Task_Cadence task)
                   task groupID])
    (<[groupID := mkScheduledTaskGroup (ID group) (wrap32 (TaskCount group + 1))
                    (wrap32 (waitGroup group + 1))]> (taskGroups s))
    (running s).

(** The scheduler [AddTaskToGroup] leaves when the wait group overflows:
    the group is counted up, the task is not added. *)
Definition overflown (groupID : string) (group : ScheduledTaskGroup) (s : Scheduler)
  : Scheduler :=
  set_taskGroups
    (<[groupID := mkScheduledTaskGroup (ID group) (wrap32 (TaskCount group + 1))
                    (wrap32 (waitGroup group + 1))]> (taskGroups s)) s.

(** The number of [AddTaskToGroup] among the operations. *)
Fixpoint groupAdds (ops : list op) : nat :=
  match ops with
  | [] => 0
  | OpAddTaskToGroup _ _ _ :: rest => S (groupAdds rest)
  | _ :: rest => groupAdds rest
  end.

(** No wait group counts more than [n]. *)
Definition bounded (n : nat) (s : Scheduler) : Prop :=
  ∀ groupID group, taskGroups s !! groupID = Some group →
    0 ≤ waitGroup group ≤ Z.of_nat n.

(** The scheduler a tick at [now] leaves when every due task is sent: the
    due tasks are rescheduled, and have been sent in the order of
    [s.tasks]. *)
Definition ticked (now : Time) (c : TaskChan) (s : Scheduler) : Scheduler :=
  mkScheduler (rw s) (stopClosed s)
    (Some (mkTaskChan (sent c ++ (Task_ <$> filter (λ st, due now st = true) (tasks s)))
             (room c - length (filter (λ st, due now st = true) (tasks s)))))
    ((λ st, if due now st then reschedule now st else st) <$> tasks s)
    (taskGroups s) (running s).

End WithTask.

Arguments steady {Task}.
Arguments joined {Task}.
Arguments overflown {Task}.
Arguments groupAdds {Task}.
Arguments bounded {Task}.
Arguments ticked {Task}.
Arguments mkScheduledTask {Task}.
Arguments Cadence {Task}.
Arguments NextExec {Task}.
Arguments Task_ {Task}.
Arguments TaskGroupID {Task}.
Arguments mkTaskChan {Task}.
Arguments sent {Task}.
Arguments room {Task}.
Arguments mkScheduler {Task}.
Arguments rw {Task}.
Arguments stopClosed {Task}.
Arguments taskChannel {Task}.
Arguments tasks {Task}.
Arguments taskGroups {Task}.
Arguments running {Task}.
Arguments set_rw {Task}.
Arguments set_stopClosed {Task}.
Arguments set_taskChannel {Task}.
Arguments set_tasks {Task}.
Arguments set_taskGroups {Task}.
Arguments set_running {Task}.
Arguments Lock {Task}.
Arguments Unlock {Task}.
Arguments RLock {Task}.
Arguments RUnlock {Task}.
Arguments send {Task}.
Arguments AddTask {Task}.
Arguments AddTaskToGroup {Task}.
Arguments Start {Task}.
Arguments due {Task}.
Arguments tasksToExecute {Task}.
Arguments reschedule {Task}.
Arguments rescheduleAt {Task}.
Arguments sendDue {Task}.
Arguments tick {Task}.
Arguments run {Task}.
Arguments Stop {Task}.
Arguments NewScheduler {Task}.
Arguments OpAddTask {Task}.
Arguments OpAddTaskToGroup {Task}.
Arguments OpStart {Task}.
Arguments OpRun {Task}.
Arguments OpStop {Task}.
Arguments OpReceive {Task}.
Arguments exec {Task}.
Arguments execs {Task}.
Arguments inGroup {Task}.
Arguments free {Task}.
Arguments grouped {Task}.

End Sched.

(* ===================================================================== *)
(** * A concrete scheduler, to evaluate the definitions on concrete inputs *)
(* ===================================================================== *)
Module SchedScenario.
Import Sched.

(** Tasks are their names; all have a cadence of 1000. *)
Definition cadence : string → Z := λ _, 1000.

(** A scheduler with a single task, a task in the group g and a later
    single task, towards a pool that takes eight tasks. *)
Definition scheduler : Scheduler string :=
  execs cadence
    [OpAddTask 0 "a"; OpAddTaskToGroup 0 "b" "g"; OpAddTask 5 "c"]
    (NewScheduler (Some (mkTaskChan [] 8))).

(** The group g once 2^31 - 1 tasks have been added to it. *)
Definition fullGroup : ScheduledTaskGroup :=
  mkScheduledTaskGroup "g" (2 ^ 31 - 1) (2 ^ 31 - 1).

(** A scheduler whose tasks are the 2^31 - 1 tasks of the group g. *)
Definition full : Scheduler string :=
  mkScheduler (mkRWMutex false 0) false (Some (mkTaskChan [] 8))
    (replicate (Z.to_nat (2 ^ 31 - 1)) (mkScheduledTask 1000 1000 "b" "g"))
    {["g" := fullGroup]} 0.

End SchedScenario.


(* ===================================================================== *)
(** * Properties of the WebSocket endpoint (task_ws.go) *)
(* ===================================================================== *)
Module WSProps.
Import WS.

(** Unfolding of the monad and of the small operations. *)
Ltac run :=
  cbv [mbind mret M_bind M_ret Go.bind Go.ret Go.get Go.modify Go.block Go.panic
       Go.defer Go.deref lock unlock send cancel ctxDone spawnReadPump wgDone wgWait];
  cbn.

(** C8. An endpoint whose mode is unknown (the zero value) and whose mutex
    is free: [Initialize] returns nil, binds the watcher id, the channel and a
    live context, and sets the mode to one-hit-text; [Task] on the endpoint,
    before and after [Initialize], is the one-hit task, not the persistent
    one. *)
Theorem Initialize_unknown_mode_is_one_hit
    (env : Env) (watcherID : string) (ch : Chan) (e : WSEndpoint) :
  Mode e = ModeUnknown →
  mu e = false →
  Initialize env watcherID ch e
    = (Ret None,
       set_Mode OneHitText
         (set_ctx (Some false) (set_respChan ch (set_watcherID watcherID e))))
  ∧ Mode (Initialize env watcherID ch e).2 = OneHitText
  ∧ Task_ (Initialize env watcherID ch e).2 = wsOneHit
  ∧ Task_ e = wsOneHit.
Proof.
  intros Hmode Hmu.
  assert (Hrun : Initialize env watcherID ch e
    = (Ret None,
       set_Mode OneHitText
         (set_ctx (Some false) (set_respChan ch (set_watcherID watcherID e))))).
  { destruct e; cbn in Hmode, Hmu; subst. reflexivity. }
  rewrite Hrun. repeat split.
  unfold Task_. rewrite Hmode. reflexivity.
Qed.

Lemma Initialize_unknown_mode_is_one_hit_witness :
  Mode (NewWSEndpoint (Some "ws://peer/ws") None ModeUnknown (Some "hello") "t") = ModeUnknown
  ∧ Task_ (Initialize (Toy.env "c0" None) "w" (Some [])
             (NewWSEndpoint (Some "ws://peer/ws") None ModeUnknown (Some "hello") "t")).2
    = wsOneHit.
Proof.
  split; [reflexivity |].
  apply (Initialize_unknown_mode_is_one_hit (Toy.env "c0" None) "w" (Some [])
           (NewWSEndpoint (Some "ws://peer/ws") None ModeUnknown (Some "hello") "t"));
    reflexivity.
Defined.

(** C9. [WSEndpoint.Close] on an endpoint whose mutex is free:
    - with no connection it returns nil and changes nothing (the context is
      not cancelled);
    - when the close control frame cannot be written, or the socket cannot
      be closed, it returns that error and changes nothing (connection
      handle and context as before);
    - when both succeed it clears the handle and cancels the context;
    - so the context changes only on that last path. *)
Theorem Close_cancels_only_after_clean_close (env : Env) (e : WSEndpoint) :
  mu e = false →
  (conn e = None → Close env e = (Ret None, e))
  ∧ (∀ err, is_Some (conn e) → WriteControl env = Some err →
       Close env e = (Ret (Some (WSError err)), e))
  ∧ (∀ err, is_Some (conn e) → WriteControl env = None → ConnClose env = Some err →
       Close env e = (Ret (Some (WSError err)), e))
  ∧ (is_Some (conn e) → WriteControl env = None → ConnClose env = None →
     is_Some (ctx e) →
       Close env e = (Ret None, set_ctx (Some true) (set_conn None e)))
  ∧ (ctx (Close env e).2 ≠ ctx e →
       is_Some (conn e) ∧ WriteControl env = None ∧ ConnClose env = None).
Proof.
  intros Hmu. destruct e as [m hd md pl u i c ra inf w wid rc cx wr].
  cbn in Hmu. subst m.
  repeat split.
  - cbn. intros ->. reflexivity.
  - cbn. intros err [c' ->] Hw. unfold Close. run. rewrite Hw. reflexivity.
  - cbn. intros err [c' ->] Hw Hc. unfold Close. run. rewrite Hw, Hc. reflexivity.
  - cbn. intros [c' ->] Hw Hc [b ->]. unfold Close. run. rewrite Hw, Hc. reflexivity.
  - revert H. unfold Close. run. destruct c; cbn; [eauto | congruence].
  - revert H. unfold Close. run. destruct c; cbn; [| congruence].
    destruct (WriteControl env); cbn; congruence.
  - revert H. unfold Close. run. destruct c; cbn; [| congruence].
    destruct (WriteControl env); cbn; [congruence |].
    destruct (ConnClose env); cbn; congruence.
Qed.

Lemma Close_cancels_only_after_clean_close_witness :
  Close (Toy.env "c0" None) Toy.endpoint
  = (Ret None, set_ctx (Some true) (set_conn None Toy.endpoint)).
Proof.
  apply (Close_cancels_only_after_clean_close (Toy.env "c0" None) Toy.endpoint);
    first [reflexivity | by eexists].
Defined.

Section WithCodec.
Context `{Codec}.

Ltac open_endpoint e Hp :=
  destruct e as [m hd md pl u i c ra inf w wid rc cx wr];
  unfold sendable, pumping in Hp; cbn in Hp;
  repeat match type of Hp with _ ∧ _ => destruct Hp as [? Hp] end;
  repeat match goal with Hc : is_Some _ |- _ => destruct Hc as [? ?] end;
  subst.

(** One pass of the pump on a frame, in persistent mode: the body of the
    loop with the guards of a running pump resolved. *)
Lemma readPumpIter_frame (env : Env) (e : WSEndpoint) url l p :
  pumping e url l →
  ReadMessage env = inr p →
  readPumpIter (Some env) e =
    match DecodeResponse p with
    | inl err =>
        (Ret Exit,
         emit l (errorResponse (Errorf "failed parsing jsonrpc.Response from bytes: " err)
                   (ID e) (watcherID e) url) e)
    | inr resp =>
        if Response_IsEmpty resp then
          (Ret Continue,
           emit l (errorResponse (errors_New "empty JSON-RPC response")
                     (ID e) (watcherID e) url) e)
        else if bool_decide (Response_IDString resp = "") then
          (Ret Exit,
           emit l (errorResponse (ErrorfS "found nil response ID, error: " (resp_Result resp))
                     (ID e) (watcherID e) url) e)
        else
          match inflightMsgs e !! Response_IDString resp with
          | None =>
              (Ret Continue,
               emit l (errorResponse
                         (errors_New ("unknown response ID: " +:+ Response_IDString resp))
                         (ID e) (watcherID e) url) e)
          | Some msg =>
              let e' := set_inflightMsgs (delete (Response_IDString resp) (inflightMsgs e)) e in
              match Response_MarshalJSON (resp_setID (originalID msg) resp) with
              | inl err =>
                  (Ret Exit,
                   emit l (errorResponse (Errorf "failed re-marshalling JSON-RPC response: " err)
                             (ID e) (watcherID e) url) e')
              | inr p' =>
                  (Ret Continue,
                   emit l (mkWatcherResponse (ID e) (watcherID e) url None
                             (Some (WSTaskResponse (remoteAddr e) p'
                                      (mkTimestamps (timeSent msg) 0 0 0 0 0 0 0 (now env 0) 0))))
                     e')
              end
          end
    end.
Proof.
  intros Hp Hread. open_endpoint e Hp.
  unfold readPumpIter, emit. run. rewrite Hread. cbn.
  destruct (DecodeResponse p) as [err | resp]; [reflexivity |].
  destruct (Response_IsEmpty resp); cbn; [reflexivity |].
  case_bool_decide; [reflexivity |]. cbn.
  destruct (inf !! Response_IDString resp) as [msg |]; cbn; [| reflexivity].
  destruct (Response_MarshalJSON _); reflexivity.
Qed.

(** C3. In persistent mode each protocol error puts one record with the
    error set on the response channel, and nothing else changes:
    - a frame that does not decode: the loop ends, the frames after it are
      not read, and [readPump] returns, releasing its wait-group;
    - a response without id: the same;
    - an empty response: the pump goes on with the next frame;
    - a response whose id no in-flight entry has: the pump goes on with the
      next frame, and is as able to run as before. *)
Theorem readPump_protocol_errors :
  ∀ (env : Env) (rest : list Env) (e : WSEndpoint) url l p,
    pumping e url l →
    ReadMessage env = inr p →
    let report err := emit l (errorResponse err (ID e) (watcherID e) url) e in
    (∀ err, DecodeResponse p = inl err →
       readPumpLoop (env :: rest) e
       = (Ret tt, report (Errorf "failed parsing jsonrpc.Response from bytes: " err))
       ∧ ∀ n, wg e = S n →
           readPump (env :: rest) e
           = (Ret tt,
              set_wg n (report (Errorf "failed parsing jsonrpc.Response from bytes: " err))))
    ∧ (∀ r, DecodeResponse p = inr r → Response_IsEmpty r = false →
         Response_IDString r = "" →
         readPumpLoop (env :: rest) e
         = (Ret tt, report (ErrorfS "found nil response ID, error: " (resp_Result r)))
         ∧ ∀ n, wg e = S n →
             readPump (env :: rest) e
             = (Ret tt,
                set_wg n (report (ErrorfS "found nil response ID, error: " (resp_Result r)))))
    ∧ (∀ r, DecodeResponse p = inr r → Response_IsEmpty r = true →
         readPumpLoop (env :: rest) e
         = readPumpLoop rest (report (errors_New "empty JSON-RPC response")))
    ∧ (∀ r, DecodeResponse p = inr r → Response_IsEmpty r = false →
         Response_IDString r ≠ "" →
         inflightMsgs e !! Response_IDString r = None →
         let e' := report (errors_New ("unknown response ID: " +:+ Response_IDString r)) in
         readPumpLoop (env :: rest) e = readPumpLoop rest e'
         ∧ pumping e' url
             (l ++ [errorResponse (errors_New ("unknown response ID: " +:+ Response_IDString r))
                      (ID e) (watcherID e) url])
         ∧ inflightMsgs e' = inflightMsgs e)
    ∧ (∀ err, Err (errorResponse err (ID e) (watcherID e) url) = Some err
              ∧ Resp.Payload (errorResponse err (ID e) (watcherID e) url) = None).
Proof.
  intros env rest e url l p Hp Hread report.
  pose proof (readPumpIter_frame env e url l p Hp Hread) as Hiter.
  assert (Hloop : ∀ st e', readPumpIter (Some env) e = (Ret st, e') →
            readPumpLoop (env :: rest) e
            = match st with Exit => (Ret tt, e') | Continue => readPumpLoop rest e' end).
  { intros st e' Hst. cbn [readPumpLoop].
    cbv [mbind M_bind Go.bind]. rewrite Hst. destruct st; reflexivity. }
  split; [| split; [| split; [| split]]].
  - intros err Hd. rewrite Hd in Hiter. pose proof (Hloop _ _ Hiter) as Hl.
    split; [exact Hl |]. intros n Hn. unfold readPump, defer, wgDone. rewrite Hl.
    subst report. destruct e; cbn in *. by subst.
  - intros r Hd He Hid. rewrite Hd, He, Hid in Hiter. pose proof (Hloop _ _ Hiter) as Hl.
    split; [exact Hl |]. intros n Hn. unfold readPump, defer, wgDone. rewrite Hl.
    subst report. destruct e; cbn in *. by subst.
  - intros r Hd He. rewrite Hd, He in Hiter. apply (Hloop _ _ Hiter).
  - intros r Hd He Hid Hnone e'.
    rewrite Hd, He, Hnone in Hiter.
    rewrite bool_decide_eq_false_2 in Hiter by done.
    split; [apply (Hloop _ _ Hiter) |].
    destruct Hp as (? & ? & ? & ? & ?). destruct e; cbn in *. done.
  - intros err. split; reflexivity.
Qed.

(** [wsPersistent.Execute] on a connected endpoint, with the guards of the
    send path resolved. On a write error [closeConn] locks the mutex that
    [Execute] itself holds: the call is parked there for ever, the error
    record is not sent and the mutex stays held. *)
Lemma Execute_sendable (env : Env) (e : WSEndpoint) url l :
  sendable e url l →
  NetConnNil env = false →
  wsPersistent_Execute JSONRPC env e =
    match parsedPayload e with
    | inl err =>
        let err := Errorf "failed to unmarshal JSON-RPC message: " err in
        (Ret (Some err), emit l (errorResponse err (ID e) (watcherID e) url) e)
    | inr req =>
        let cid := xid_New env in
        let orig := if Request_IsEmpty req then AnyNil else req_ID req in
        let req' := if Request_IsEmpty req then req else req_setID (AnyString cid) req in
        match sonic_Marshal req' with
        | inl err =>
            let err := Errorf "failed to marshal JSON-RPC message: " err in
            (Ret (Some err), emit l (errorResponse err (ID e) (watcherID e) url) e)
        | inr payload =>
            let e1 :=
              set_inflightMsgs (<[cid := mkInflight cid orig (now env 0)]> (inflightMsgs e)) e in
            match WriteMessage env with
            | None =>
                (Ret None,
                 set_written (written e ++ [if payload is None then Payload e else payload]) e1)
            | Some _ => (Blocked, set_mu true e1)
            end
        end
    end.
Proof.
  intros Hp Hnc. open_endpoint e Hp.
  unfold wsPersistent_Execute, nilConn, closeConn, parsedPayload, emit. run.
  rewrite Hnc. cbn.
  match goal with
  | |- context [if ?b then Request_UnmarshalJSON pl else inr zeroRequest] =>
      destruct (if b then Request_UnmarshalJSON pl else inr zeroRequest) as [err | req]
  end; [reflexivity |].
  destruct (Request_IsEmpty req); cbn.
  - destruct (sonic_Marshal req) as [err | payload]; [reflexivity |]. cbn.
    destruct (WriteMessage env); reflexivity.
  - destruct (sonic_Marshal _) as [err | payload]; [reflexivity |]. cbn.
    destruct (WriteMessage env); reflexivity.
Qed.


(** Tearing the connection down does not touch the in-flight map, however
    the call ends. *)
Lemma closeConn_inflight (env : Env) (e : WSEndpoint) :
  inflightMsgs (closeConn env e).2 = inflightMsgs e.
Proof.
  destruct e as [m hd md pl u i c ra inf w wid rc cx wr].
  unfold closeConn. run. destruct m; cbn; [reflexivity |].
  destruct c; reflexivity.
Qed.

Lemma Close_inflight (env : Env) (e : WSEndpoint) :
  inflightMsgs (Close env e).2 = inflightMsgs e.
Proof.
  destruct e as [m hd md pl u i c ra inf w wid rc cx wr].
  unfold Close. run. destruct m; cbn; [reflexivity |].
  destruct c; cbn; [| reflexivity].
  destruct (WriteControl env); cbn; [reflexivity |].
  destruct (ConnClose env); cbn; [reflexivity |].
  destruct cx; reflexivity.
Qed.

Lemma reconnect_inflight (env : Env) (e : WSEndpoint) :
  inflightMsgs (reconnect env e).2 = inflightMsgs e.
Proof.
  destruct e as [m hd md pl u i c ra inf w wid rc cx wr].
  unfold reconnect, nilConn. run.
  destruct (md =? PersistentJSONRPC); cbn; [| reflexivity].
  destruct m; cbn; [reflexivity |].
  destruct c; cbn.
  - destruct (NetConnNil env); cbn.
    + destruct w; cbn; [| reflexivity]. destruct u; cbn; [| reflexivity].
      destruct (Dial env); reflexivity.
    + destruct (ConnClose env); cbn; [reflexivity |].
      destruct w; cbn; [| reflexivity]. destruct u; cbn; [| reflexivity].
      destruct (Dial env); reflexivity.
  - destruct w; cbn; [| reflexivity]. destruct u; cbn; [| reflexivity].
    destruct (Dial env); reflexivity.
Qed.

(** One pass of the pump removes at most the entry the frame answers to. *)
Lemma readPumpIter_inflight (oenv : option Env) (e : WSEndpoint) k msg :
  inflightMsgs e !! k = Some msg →
  (∀ env, oenv = Some env → replyID env ≠ Some k) →
  inflightMsgs (readPumpIter oenv e).2 !! k = Some msg.
Proof.
  intros Hk Hno.
  destruct e as [m hd md pl u i c ra inf w wid rc cx wr]. cbn in Hk.
  unfold readPumpIter, closeConn. run.
  destruct cx as [[|] |]; cbn; try done.
  destruct u; cbn; try done.
  destruct c; cbn; try done.
  destruct oenv as [env |]; cbn; try done.
  specialize (Hno env eq_refl). unfold replyID in Hno.
  destruct (ReadMessage env) as [err | p]; cbn.
  { destruct m; cbn; done. }
  destruct (md =? PersistentJSONRPC); cbn.
  2: { destruct rc; cbn; done. }
  destruct (DecodeResponse p) as [err | resp]; cbn.
  { destruct rc; cbn; done. }
  destruct (Response_IsEmpty resp); cbn.
  { destruct rc; cbn; done. }
  case_bool_decide; cbn.
  { destruct rc; cbn; done. }
  destruct (inf !! Response_IDString resp) eqn:Hl; cbn.
  2: { destruct rc; cbn; done. }
  assert (Hd : delete (Response_IDString resp) inf !! k = Some msg).
  { rewrite lookup_delete_ne by congruence. done. }
  destruct (Response_MarshalJSON _); cbn; destruct rc; cbn; done.
Qed.

Lemma readPumpLoop_inflight (reads : list Env) (e : WSEndpoint) k msg :
  inflightMsgs e !! k = Some msg →
  Forall (λ env, replyID env ≠ Some k) reads →
  inflightMsgs (readPumpLoop reads e).2 !! k = Some msg.
Proof.
  revert e. induction reads as [| env rest IH]; intros e Hk Hall.
  - cbn [readPumpLoop]. cbv [mbind M_bind Go.bind].
    pose proof (readPumpIter_inflight None e k msg Hk ltac:(done)) as Hi.
    destruct (readPumpIter None e) as [[st | |] e']; exact Hi.
  - inversion Hall as [| ? ? Hhd Htl]; subst.
    cbn [readPumpLoop]. cbv [mbind M_bind Go.bind].
    pose proof (readPumpIter_inflight (Some env) e k msg Hk) as Hi.
    destruct (readPumpIter (Some env) e) as [[st | |] e']; cbn in Hi.
    + destruct st.
      * apply IH; [apply Hi; congruence | done].
      * apply Hi. congruence.
    + apply Hi. congruence.
    + apply Hi. congruence.
Qed.


(** C4, as amended. The in-flight map is keyed by correlation id, so it
    holds at most one entry per id. [Execute], when the frame is written,
    has stored exactly the entry of its correlation id. A reply that carries
    the key of an entry makes the pump delete that entry, and the pump
    deletes nothing else. [Close], [closeConn] and [reconnect] leave the map
    as it is, however they end: an entry whose reply does not arrive stays
    in the map across the teardown of its connection. *)
Theorem inflight_entry_lifetime :
  (∀ (env : Env) (e : WSEndpoint) url l req frame,
     sendable e url l →
     NetConnNil env = false →
     WriteMessage env = None →
     parsedPayload e = inr req →
     sonic_Marshal (if Request_IsEmpty req then req
                    else req_setID (AnyString (xid_New env)) req) = inr frame →
     inflightMsgs (wsPersistent_Execute JSONRPC env e).2
     = <[xid_New env :=
           mkInflight (xid_New env)
             (if Request_IsEmpty req then AnyNil else req_ID req) (now env 0)]>
         (inflightMsgs e))
  ∧ (∀ (env : Env) (e : WSEndpoint) url l p resp msg,
       pumping e url l →
       ReadMessage env = inr p →
       DecodeResponse p = inr resp →
       Response_IsEmpty resp = false →
       Response_IDString resp ≠ "" →
       inflightMsgs e !! Response_IDString resp = Some msg →
       inflightMsgs (readPumpIter (Some env) e).2
       = delete (Response_IDString resp) (inflightMsgs e))
  ∧ (∀ (reads : list Env) (e : WSEndpoint) k msg,
       inflightMsgs e !! k = Some msg →
       Forall (λ env, replyID env ≠ Some k) reads →
       inflightMsgs (readPumpLoop reads e).2 !! k = Some msg)
  ∧ (∀ (env : Env) (e : WSEndpoint),
       inflightMsgs (Close env e).2 = inflightMsgs e
       ∧ inflightMsgs (closeConn env e).2 = inflightMsgs e
       ∧ inflightMsgs (reconnect env e).2 = inflightMsgs e).
Proof.
  split; [| split; [| split]].
  - intros env e url l req frame Hs Hnc Hw Hparse Hj.
    rewrite (Execute_sendable env e url l Hs Hnc), Hparse. cbn zeta.
    rewrite Hj, Hw. destruct e; reflexivity.
  - intros env e url l p resp msg Hp Hread Hd He Hid Hm.
    rewrite (readPumpIter_frame env e url l p Hp Hread), Hd, He.
    rewrite bool_decide_eq_false_2 by done.
    rewrite Hm. cbn zeta.
    destruct (Response_MarshalJSON _); destruct e; reflexivity.
  - intros reads e k msg. apply readPumpLoop_inflight.
  - intros env e.
    split; [apply Close_inflight | split; [apply closeConn_inflight | apply reconnect_inflight]].
Qed.

(** A write error in [wsPersistent.Execute]. The in-flight entry has been
    stored; [closeConn] then locks the mutex that [Execute] holds since its
    first lines, so the call stays parked there: it does not return, the
    error record that follows in the source is not sent, the connection
    handle is not cleared and the mutex stays held. *)
Theorem Execute_write_error_is_parked :
  ∀ (env : Env) (e : WSEndpoint) url l req frame werr,
    sendable e url l →
    NetConnNil env = false →
    parsedPayload e = inr req →
    sonic_Marshal (if Request_IsEmpty req then req
                   else req_setID (AnyString (xid_New env)) req) = inr frame →
    WriteMessage env = Some werr →
    let e' := (wsPersistent_Execute JSONRPC env e).2 in
    wsPersistent_Execute JSONRPC env e = (Blocked, e')
    ∧ mu e' = true
    ∧ respChan e' = Some l
    ∧ conn e' = conn e
    ∧ is_Some (inflightMsgs e' !! xid_New env)
    ∧ ∀ env', (closeConn env' e').1 = Blocked ∧ (Close env' e').1 = Blocked.
Proof.
  intros env e url l req frame werr Hs Hnc Hparse Hj Hw e'.
  pose proof (Execute_sendable env e url l Hs Hnc) as Hx.
  rewrite Hparse in Hx. cbn zeta in Hx. rewrite Hj, Hw in Hx.
  subst e'. rewrite Hx. destruct Hs as (? & ? & ? & ? & ? & ?).
  destruct e; cbn in *. subst. repeat split; try done.
  rewrite lookup_insert_eq. by eexists.
Qed.

End WithCodec.

Lemma toy_sendable payload : sendable (Toy.endpointWith payload) "ws://peer/ws" [].
Proof. repeat split; by eexists. Defined.

Lemma readPump_protocol_errors_witness :
  readPumpLoop [Toy.env "" (Some "sghost:0x1")] Toy.endpoint
  = readPumpLoop []
      (emit [] (errorResponse (errors_New "unknown response ID: ghost")
                  "task-1" "watcher-1" "ws://peer/ws") Toy.endpoint).
Proof.
  destruct (readPump_protocol_errors (Toy.env "" (Some "sghost:0x1")) [] Toy.endpoint
              "ws://peer/ws" [] (Some "sghost:0x1")
              (proj2 (toy_sendable _)) ltac:(reflexivity)) as (_ & _ & _ & Hunknown & _).
  apply (Hunknown (mkResponse "2.0" (AnyString "ghost") (Some "0x1") None));
    first [reflexivity | discriminate].
Defined.



Lemma inflight_entry_lifetime_witness :
  inflightMsgs (wsPersistent_Execute JSONRPC (Toy.env "c0" None) Toy.endpoint).2
  = <["c0" := mkInflight "c0" (AnyNumber 42) 100]> ∅.
Proof.
  apply (proj1 inflight_entry_lifetime (Toy.env "c0" None) Toy.endpoint "ws://peer/ws" []
           (mkRequest "2.0" (AnyNumber 42) "eth_chainId" None) (Some "sc0:eth_chainId")
           (toy_sendable _) ltac:(reflexivity) ltac:(reflexivity) ltac:(reflexivity) ltac:(reflexivity)).
Defined.

Lemma Execute_write_error_is_parked_witness :
  wsPersistent_Execute JSONRPC
    (WS.mkEnv (λ _, 100) "c0" (inr (WS.mkConn 2 None)) false None None
       (Some (mkWsError None "write: broken pipe")) (inr None))
    Toy.endpoint
  = (Blocked,
     (wsPersistent_Execute JSONRPC
        (WS.mkEnv (λ _, 100) "c0" (inr (WS.mkConn 2 None)) false None None
           (Some (mkWsError None "write: broken pipe")) (inr None))
        Toy.endpoint).2).
Proof.
  apply (Execute_write_error_is_parked
           (WS.mkEnv (λ _, 100) "c0" (inr (WS.mkConn 2 None)) false None None
              (Some (mkWsError None "write: broken pipe")) (inr None))
           Toy.endpoint "ws://peer/ws" []
           (mkRequest "2.0" (AnyNumber 42) "eth_chainId" None) (Some "sc0:eth_chainId")
           (mkWsError None "write: broken pipe")
           (toy_sendable _)); reflexivity.
Defined.

(** C4 as stated fails: a request is sent on a persistent connection, no
    reply arrives, and the endpoint is closed (the close frame is written,
    the socket closed, the handle cleared, the context cancelled). The entry
    of the request is still in the in-flight map. The same holds when the
    pump sees the socket die and the next [Execute] reconnects. *)
Lemma inflight_entry_outlives_its_connection :
  let e1 := (wsPersistent_Execute JSONRPC (Toy.env "c0" None) Toy.endpoint).2 in
  let e2 := (Close (Toy.env "" None) e1).2 in
  let dead := WS.mkEnv (λ _, 200) "" (inr (WS.mkConn 2 (Some "10.0.0.1:80"))) false
                None None None (inl (mkWsError (Some 1006) "unexpected EOF")) in
  let e3 := (readPump [dead] e1).2 in
  let e4 := (reconnect (Toy.env "" None) e3).2 in
  (Close (Toy.env "" None) e1 = (Ret None, e2)
   ∧ conn e2 = None ∧ ctx e2 = Some true
   ∧ inflightMsgs e2 !! "c0" = Some (mkInflight "c0" (AnyNumber 42) 100))
  ∧ (readPump [dead] e1 = (Ret tt, e3) ∧ conn e3 = None ∧ wg e3 = 0%nat
     ∧ reconnect (Toy.env "" None) e3 = (Ret None, e4)
     ∧ conn e4 = Some (WS.mkConn 2 (Some "10.0.0.1:80"))
     ∧ inflightMsgs e4 !! "c0" = Some (mkInflight "c0" (AnyNumber 42) 100)).
Proof. vm_compute. repeat split. Qed.

End WSProps.

(* ===================================================================== *)
(** * Response records per task execution (task_http.go, task_ws.go) *)
(* ===================================================================== *)
Module TaskProps.
Import WS WSProps.

(** [httpRequest.Execute] with the guards of an initialised request
    resolved. *)
Lemma HTTP_Execute_cases (env : HTTP.Env) (r : HTTP.httpRequest) url l :
  HTTP.URL (HTTP.endpoint r) = Some url →
  is_Some (HTTP.client (HTTP.endpoint r)) →
  HTTP.r_respChan r = Some l →
  let e := HTTP.endpoint r in
  let sent x := HTTP.mkHttpRequest e (Some (l ++ [x])) (HTTP.data r) (HTTP.method r) in
  HTTP.Execute env r =
    match HTTP.NewRequest env with
    | Some err =>
        (Ret (Some err), sent (errorResponse err (HTTP.ID e) (HTTP.watcherID e) url))
    | None =>
        match HTTP.Do env with
        | inl err =>
            (Ret (Some err), sent (errorResponse err (HTTP.ID e) (HTTP.watcherID e) url))
        | inr response =>
            let t := setTimestamps (HTTP.trace env)
                       (NewHTTPTaskResponse (HTTP.traceAddr env) response) in
            (Ret None,
             sent (mkWatcherResponse (HTTP.ID e) (HTTP.watcherID e) url None
                     (Some (if HTTP.OptReadFast e then readBody t else t))))
        end
    end.
Proof.
  intros Hu [c Hc] Hl. destruct r as [e rc d m]. cbn in *. subst rc.
  unfold HTTP.Execute, HTTP.send. run. rewrite Hu, Hc. cbn.
  destruct (HTTP.NewRequest env); cbn; [reflexivity |].
  destruct (HTTP.Do env); reflexivity.
Qed.

(** [wsOneHit.Execute] with the guards of an initialised endpoint
    resolved. *)
Lemma wsOneHit_Execute_cases (env : Env) (e : WSEndpoint) url l :
  mu e = false →
  URL e = Some url →
  respChan e = Some l →
  wsOneHit_Execute env e =
    match conn e, ctx e with
    | Some _, _ => (Ret (Some (errors_New "connection is already open")), e)
    | None, None => (Panicked, e)
    | None, Some true => (Ret None, e)
    | None, Some false =>
        match Dial env with
        | inl err =>
            let err := Errorf "failed to dial: " (WSError err) in
            (Ret (Some err), emit l (errorResponse err (ID e) (watcherID e) url) e)
        | inr c =>
            match WriteMessage env with
            | Some err =>
                let err := Errorf "failed to write message: " (WSError err) in
                (Ret (Some err), emit l (errorResponse err (ID e) (watcherID e) url) e)
            | None =>
                match ReadMessage env with
                | inl err =>
                    let err := Errorf "failed to read message: " (WSError err) in
                    (Ret (Some err), emit l (errorResponse err (ID e) (watcherID e) url) e)
                | inr message =>
                    (Ret ((λ err, Errorf "failed to write close message: " (WSError err))
                            <$> WriteControl env),
                     emit l (mkWatcherResponse (ID e) (watcherID e) url None
                               (Some (WSTaskResponse (RemoteAddr c) message
                                        (mkTimestamps (now env 0) (now env 1) (now env 4)
                                           (now env 2) (now env 5) (now env 3) (now env 6)
                                           (now env 7) (now env 8) (now env 9))))) e)
                end
            end
        end
    end.
Proof.
  intros Hmu Hu Hl.
  destruct e as [m hd md pl u i c ra inf w wid rc cx wr]. cbn in *. subst.
  unfold wsOneHit_Execute, emit. run.
  destruct c; cbn; [reflexivity |].
  destruct cx as [[|] |]; cbn; try reflexivity.
  destruct (Dial env); cbn; [reflexivity |].
  destruct (WriteMessage env); cbn; [reflexivity |].
  destruct (ReadMessage env); cbn; [reflexivity |].
  destruct (WriteControl env); reflexivity.
Qed.

Section WithCodec.
Context `{Codec}.

(** [wsPersistent.Execute] when the endpoint has no connection and the
    dial of the reconnect fails: the error is returned, nothing is sent on
    the response channel. *)
Lemma Execute_reconnect_fails (env : Env) (e : WSEndpoint) err :
  mu e = false →
  Mode e = PersistentJSONRPC →
  is_Some (URL e) →
  conn e = None →
  wg e = 0%nat →
  Dial env = inl err →
  wsPersistent_Execute JSONRPC env e
  = (Ret (Some (Errorf "failed to dial when reconnecting: " (WSError err))), e).
Proof.
  intros Hmu Hmode [url Hu] Hc Hwg Hd.
  destruct e as [m hd md pl u i c ra inf w wid rc cx wr]. cbn in *. subst.
  unfold wsPersistent_Execute, reconnect, nilConn. run. rewrite Hd. reflexivity.
Qed.

(** [wsPersistent.Execute] on a connected endpoint whose context is
    cancelled: nil is returned and nothing changes. *)
Lemma Execute_cancelled (env : Env) (e : WSEndpoint) :
  mu e = false →
  is_Some (conn e) →
  NetConnNil env = false →
  is_Some (URL e) →
  ctx e = Some true →
  wsPersistent_Execute JSONRPC env e = (Ret None, e).
Proof.
  intros Hmu [c' Hc] Hnc [url Hu] Hcx.
  destruct e as [m hd md pl u i c ra inf w wid rc cx wr]. cbn in *. subst.
  unfold wsPersistent_Execute, nilConn. run. rewrite Hnc. reflexivity.
Qed.

(** [wsPersistent.Execute] on an endpoint without connection whose previous
    pump has returned, when the dial of the reconnect succeeds: the endpoint
    is connected again, a new pump is spawned, and the call goes on as on a
    connected endpoint. *)
Lemma Execute_reconnects (env : Env) (e : WSEndpoint) c :
  mu e = false →
  Mode e = PersistentJSONRPC →
  is_Some (URL e) →
  conn e = None →
  wg e = 0%nat →
  Dial env = inr c →
  wsPersistent_Execute JSONRPC env e
  = wsPersistent_Execute JSONRPC (connectedEnv env) (set_wg 1 (set_conn (Some c) e)).
Proof.
  intros Hmu Hmode [url Hu] Hc Hwg Hd.
  destruct e as [m hd md pl u i c0 ra inf w wid rc cx wr]. cbn in *. subst.
  unfold wsPersistent_Execute, reconnect, nilConn, connectedEnv. run.
  rewrite Hd. reflexivity.
Qed.

(** What a persistent send that gets as far as its frame returns and
    sends, when the write succeeds: decided by the payload alone. *)
Lemma Execute_sent (env : Env) (e : WSEndpoint) url l :
  sendable e url l → NetConnNil env = false → WriteMessage env = None →
  ∃ ret out e',
    wsPersistent_Execute JSONRPC env e = (Ret ret, e')
    ∧ conn e' = conn e
    ∧ respChan e' = Some (l ++ out)
    ∧ (∀ err, parsedPayload e = inl err →
         ret = Some (Errorf "failed to unmarshal JSON-RPC message: " err)
         ∧ out = [errorResponse (Errorf "failed to unmarshal JSON-RPC message: " err)
                    (ID e) (watcherID e) url]
         ∧ written e' = written e)
    ∧ (∀ req err, parsedPayload e = inr req → sonic_Marshal (outgoing env req) = inl err →
         ret = Some (Errorf "failed to marshal JSON-RPC message: " err)
         ∧ out = [errorResponse (Errorf "failed to marshal JSON-RPC message: " err)
                    (ID e) (watcherID e) url]
         ∧ written e' = written e)
    ∧ (∀ req payload,
         parsedPayload e = inr req → sonic_Marshal (outgoing env req) = inr payload →
         ret = None ∧ out = []
         ∧ written e' = written e ++ [if payload is None then Payload e else payload]).
Proof.
  intros Hs Hnc Hw.
  pose proof (Execute_sendable env e url l Hs Hnc) as Hx.
  unfold outgoing.
  destruct (parsedPayload e) as [err | req].
  { do 3 eexists. split; [exact Hx |]. cbn zeta.
    split; [reflexivity |]. split; [reflexivity |].
    split; [| split; [done | done]].
    intros err' [= <-]. split; [done |]. split; [done | reflexivity]. }
  cbn zeta in Hx. destruct (sonic_Marshal _) as [err | payload] eqn:Hm.
  { do 3 eexists. split; [exact Hx |]. cbn zeta.
    split; [reflexivity |]. split; [reflexivity |].
    split; [done |]. split.
    - intros req' err' [= <-] Hm'. rewrite Hm in Hm'. injection Hm' as <-.
      split; [done |]. split; [done | reflexivity].
    - intros req' payload' [= <-] Hm'. rewrite Hm in Hm'. done. }
  rewrite Hw in Hx.
  exists None, [], (set_written (written e ++ [if payload is None then Payload e else payload])
                      (set_inflightMsgs
                         (<[xid_New env := mkInflight (xid_New env)
                                             (if Request_IsEmpty req then AnyNil else req_ID req)
                                             (now env 0)]> (inflightMsgs e)) e)).
  split; [exact Hx |].
  split; [reflexivity |].
  split.
  { destruct Hs as (? & ? & ? & ? & ? & ?). cbn. by rewrite app_nil_r. }
  split; [done |]. split.
  - intros req' err' [= <-] Hm'. rewrite Hm in Hm'. done.
  - intros req' payload' [= <-] Hm'. rewrite Hm in Hm'. injection Hm' as <-.
    split; [done |]. split; [done | reflexivity].
Qed.

(** C2, as amended. How many records one task execution sends.
    - HTTP: exactly one. It is an error record, and the error is returned,
      when the request cannot be built or performed; a success record, and
      nil is returned, otherwise.
    - One-hit WebSocket: the call changes nothing but the response channel.
      It sends no record when the endpoint holds a connection (an error is
      returned) or its context is cancelled (nil is returned). Otherwise it
      sends exactly one, carrying the endpoint's id, watcher id and URL: when
      the dial, the write or the read fails, the error record of that failure,
      and that error is returned; when all three succeed, a success record
      with the message read, after which the result is nil, or the error of
      the closing control frame.
    - Persistent WebSocket: at most one, and never a success record. None
      when the protocol is not JSON-RPC or the reconnect cannot dial (the
      error is returned only), when the context is cancelled, and when the
      frame is written (nil is returned; the record of the reply is the read
      pump's). When the payload cannot be unmarshalled, or the request cannot
      be marshalled, exactly one error record of that failure is sent, the
      error is returned and no frame is written. The same holds when the
      call first reconnects a dead connection. *)
Theorem Execute_records :
  (∀ (env : HTTP.Env) (r : HTTP.httpRequest),
     is_Some (HTTP.URL (HTTP.endpoint r)) →
     is_Some (HTTP.client (HTTP.endpoint r)) →
     is_Some (HTTP.r_respChan r) →
     ∃ ret x r',
       HTTP.Execute env r = (Ret ret, r')
       ∧ emitted (HTTP.r_respChan r) (HTTP.r_respChan r') [x]
       ∧ Err x = ret
       ∧ (ret = None ↔ is_Some (Resp.Payload x))
       ∧ (ret = None ↔ HTTP.NewRequest env = None ∧ ∃ resp, HTTP.Do env = inr resp))
  ∧ (∀ (env : Env) (e : WSEndpoint) url l,
       mu e = false → URL e = Some url → respChan e = Some l → is_Some (ctx e) →
       ∃ ret out,
         wsOneHit_Execute env e = (Ret ret, set_respChan (Some (l ++ out)) e)
         ∧ (is_Some (conn e) →
              out = [] ∧ ret = Some (errors_New "connection is already open"))
         ∧ (conn e = None → ctx e = Some true → out = [] ∧ ret = None)
         ∧ (conn e = None → ctx e = Some false →
              ∃ x, out = [x]
                   ∧ TaskID x = ID e ∧ WatcherID x = watcherID e ∧ Resp.URL x = url
                   ∧ (∀ d, Dial env = inl d →
                        ret = Some (Errorf "failed to dial: " (WSError d))
                        ∧ Err x = ret ∧ Resp.Payload x = None)
                   ∧ (∀ c d, Dial env = inr c → WriteMessage env = Some d →
                        ret = Some (Errorf "failed to write message: " (WSError d))
                        ∧ Err x = ret ∧ Resp.Payload x = None)
                   ∧ (∀ c d, Dial env = inr c → WriteMessage env = None →
                        ReadMessage env = inl d →
                        ret = Some (Errorf "failed to read message: " (WSError d))
                        ∧ Err x = ret ∧ Resp.Payload x = None)
                   ∧ (∀ c message, Dial env = inr c → WriteMessage env = None →
                        ReadMessage env = inr message →
                        Err x = None
                        ∧ (∃ ts, Resp.Payload x
                                 = Some (WSTaskResponse (RemoteAddr c) message ts))
                        ∧ ret = (λ err, Errorf "failed to write close message: "
                                          (WSError err)) <$> WriteControl env)))
  ∧ (∀ (protocol : wsPersistentProtocol) (env : Env) (e : WSEndpoint),
       protocol ≠ JSONRPC →
       wsPersistent_Execute protocol env e
       = (Ret (Some (errors_New "unsupported protocol")), e))
  ∧ (∀ (env : Env) (e : WSEndpoint) err,
       mu e = false → Mode e = PersistentJSONRPC → is_Some (URL e) →
       conn e = None → wg e = 0%nat →
       Dial env = inl err →
       wsPersistent_Execute JSONRPC env e
       = (Ret (Some (Errorf "failed to dial when reconnecting: " (WSError err))), e))
  ∧ (∀ (env : Env) (e : WSEndpoint),
       mu e = false → is_Some (conn e) → NetConnNil env = false → is_Some (URL e) →
       ctx e = Some true →
       wsPersistent_Execute JSONRPC env e = (Ret None, e))
  ∧ (∀ (env : Env) (e : WSEndpoint) url l,
       sendable e url l → NetConnNil env = false → WriteMessage env = None →
       ∃ ret out e',
         wsPersistent_Execute JSONRPC env e = (Ret ret, e')
         ∧ respChan e' = Some (l ++ out)
         ∧ (∀ err, parsedPayload e = inl err →
              ret = Some (Errorf "failed to unmarshal JSON-RPC message: " err)
              ∧ out = [errorResponse (Errorf "failed to unmarshal JSON-RPC message: " err)
                         (ID e) (watcherID e) url]
              ∧ written e' = written e)
         ∧ (∀ req err,
              parsedPayload e = inr req → sonic_Marshal (outgoing env req) = inl err →
              ret = Some (Errorf "failed to marshal JSON-RPC message: " err)
              ∧ out = [errorResponse (Errorf "failed to marshal JSON-RPC message: " err)
                         (ID e) (watcherID e) url]
              ∧ written e' = written e)
         ∧ (∀ req payload,
              parsedPayload e = inr req → sonic_Marshal (outgoing env req) = inr payload →
              ret = None ∧ out = []
              ∧ written e' = written e ++ [if payload is None then Payload e else payload]))
  ∧ (∀ (env : Env) (e : WSEndpoint) url l c,
       mu e = false → Mode e = PersistentJSONRPC → ctx e = Some false →
       URL e = Some url → respChan e = Some l →
       conn e = None → wg e = 0%nat → Dial env = inr c → WriteMessage env = None →
       ∃ ret out e',
         wsPersistent_Execute JSONRPC env e = (Ret ret, e')
         ∧ conn e' = Some c
         ∧ respChan e' = Some (l ++ out)
         ∧ (∀ err, parsedPayload e = inl err →
              ret = Some (Errorf "failed to unmarshal JSON-RPC message: " err)
              ∧ out = [errorResponse (Errorf "failed to unmarshal JSON-RPC message: " err)
                         (ID e) (watcherID e) url]
              ∧ written e' = written e)
         ∧ (∀ req err,
              parsedPayload e = inr req → sonic_Marshal (outgoing env req) = inl err →
              ret = Some (Errorf "failed to marshal JSON-RPC message: " err)
              ∧ out = [errorResponse (Errorf "failed to marshal JSON-RPC message: " err)
                         (ID e) (watcherID e) url]
              ∧ written e' = written e)
         ∧ (∀ req payload,
              parsedPayload e = inr req → sonic_Marshal (outgoing env req) = inr payload →
              ret = None ∧ out = []
              ∧ written e' = written e ++ [if payload is None then Payload e else payload])).
Proof.
  split; [| split; [| split; [| split; [| split; [| split]]]]].
  - intros env r [url Hu] Hc [l Hl].
    pose proof (HTTP_Execute_cases env r url l Hu Hc Hl) as Hx. cbn zeta in Hx.
    destruct (HTTP.NewRequest env) as [err |] eqn:Hn.
    { do 3 eexists. split; [exact Hx |]. split; [by exists l |].
      split; [reflexivity |]. cbn. split; split; try done; intros (? & ? & ?); done. }
    destruct (HTTP.Do env) as [err | resp] eqn:Hd.
    { do 3 eexists. split; [exact Hx |]. split; [by exists l |].
      split; [reflexivity |]. cbn. split; split; try done; intros (? & ? & ?); done. }
    do 3 eexists. split; [exact Hx |]. split; [by exists l |].
    split; [reflexivity |]. cbn. split; split; try done; eauto.
  - intros env e url l Hmu Hu Hl [b Hcx].
    pose proof (wsOneHit_Execute_cases env e url l Hmu Hu Hl) as Hx.
    assert (Hnil : e = set_respChan (Some (l ++ [])) e).
    { destruct e; cbn in *. subst. by rewrite app_nil_r. }
    rewrite Hcx in Hx. unfold emit in Hx.
    destruct (conn e) as [c |] eqn:Hc.
    { exists (Some (errors_New "connection is already open")), [].
      split; [by rewrite <- Hnil |]. split; [done |]. split; [done | done]. }
    destruct b.
    { exists None, []. split; [by rewrite <- Hnil |].
      split; [by intros [? ?] |].
      split; [done | by intros _ Hf; rewrite Hcx in Hf]. }
    assert (Hno : conn e = None → ctx e = Some true →
                  ∀ (out : list WatcherResponse) (ret : option error),
                    out = [] ∧ ret = None)
      by (intros _ Hf; by rewrite Hcx in Hf).
    destruct (Dial env) as [d | c] eqn:Hd.
    { eexists _, [_]. split; [exact Hx |]. split; [by intros [? ?] |].
      split; [by intros ? ?; apply Hno |]. intros _ _. eexists. split; [reflexivity |].
      cbn. do 3 (split; [done |]).
      split; [| split; [| split]]; intros; simplify_eq; done. }
    destruct (WriteMessage env) as [d |] eqn:Hw.
    { eexists _, [_]. split; [exact Hx |]. split; [by intros [? ?] |].
      split; [by intros ? ?; apply Hno |]. intros _ _. eexists. split; [reflexivity |].
      cbn. do 3 (split; [done |]).
      split; [| split; [| split]]; intros; simplify_eq; done. }
    destruct (ReadMessage env) as [d | message] eqn:Hr.
    { eexists _, [_]. split; [exact Hx |]. split; [by intros [? ?] |].
      split; [by intros ? ?; apply Hno |]. intros _ _. eexists. split; [reflexivity |].
      cbn. do 3 (split; [done |]).
      split; [| split; [| split]]; intros; simplify_eq; done. }
    eexists _, [_]. split; [exact Hx |]. split; [by intros [? ?] |].
    split; [by intros ? ?; apply Hno |]. intros _ _. eexists. split; [reflexivity |].
    cbn. do 3 (split; [done |]).
    split; [| split; [| split]]; intros; simplify_eq; try done.
    split; [done |]. split; [by eexists | done].
  - intros protocol env e Hp. unfold wsPersistent_Execute.
    destruct (protocol =? JSONRPC) eqn:Heq; [| reflexivity].
    apply Z.eqb_eq in Heq. done.
  - intros env e err. apply Execute_reconnect_fails.
  - intros env e. apply Execute_cancelled.
  - intros env e url l Hs Hnc Hw.
    destruct (Execute_sent env e url l Hs Hnc Hw)
      as (ret & out & e' & Hx & _ & Hr & H1 & H2 & H3).
    by exists ret, out, e'.
  - intros env e url l c Hmu Hmode Hcx Hu Hl Hc Hwg Hd Hw.
    rewrite (Execute_reconnects env e c Hmu Hmode ltac:(by eexists) Hc Hwg Hd).
    assert (Hs : sendable (set_wg 1 (set_conn (Some c) e)) url l).
    { destruct e; cbn in *. subst. repeat split. by eexists. }
    destruct (Execute_sent (connectedEnv env) _ url l Hs eq_refl Hw)
      as (ret & out & e' & Hx & Hconn & Hr & H1 & H2 & H3).
    exists ret, out, e'. split; [exact Hx |].
    split; [by rewrite Hconn; destruct e |]. split; [exact Hr |].
    assert (Hpp : parsedPayload (set_wg 1 (set_conn (Some c) e)) = parsedPayload e)
      by by destruct e.
    rewrite Hpp in H1, H2, H3.
    assert (Hf : ID (set_wg 1 (set_conn (Some c) e)) = ID e
                 ∧ watcherID (set_wg 1 (set_conn (Some c) e)) = watcherID e
                 ∧ written (set_wg 1 (set_conn (Some c) e)) = written e
                 ∧ Payload (set_wg 1 (set_conn (Some c) e)) = Payload e)
      by by destruct e.
    destruct Hf as (Hf1 & Hf2 & Hf3 & Hf4). rewrite Hf1, Hf2, Hf3, Hf4 in *.
    done.
Qed.

End WithCodec.

(** C2 as stated fails on the paths the code leaves silent on purpose.
    The endpoint is the one [Initialize] leaves. A persistent send that
    succeeds returns nil and has sent no record at all: the record of the
    reply is the read pump's. After [Close] (the endpoint shutting down), when
    the pump has returned, an execution returns nil and has sent no record
    either. *)
Lemma Execute_without_any_record :
  let dial := mkEnv (λ k, 100 + Z.of_nat k) "" (inr (mkConn 1 (Some "10.0.0.1:80")))
                false None None None (inr None) in
  let e1 := (wsPersistent_Execute JSONRPC (Toy.env "c0" None) Toy.endpoint).2 in
  let closed := (readPump [] (Close (Toy.env "" None) Toy.endpoint).2).2 in
  let e2 := (wsPersistent_Execute JSONRPC (Toy.env "c1" None) closed).2 in
  Initialize dial "watcher-1" (Some [])
    (NewWSEndpoint (Some "ws://peer/ws") (Some ∅) PersistentJSONRPC
       (Some "n42:eth_chainId") "task-1")
  = (Ret None, Toy.endpoint)
  ∧ (wsPersistent_Execute JSONRPC (Toy.env "c0" None) Toy.endpoint = (Ret None, e1)
     ∧ respChan Toy.endpoint = Some [] ∧ respChan e1 = Some [])
  ∧ (Close (Toy.env "" None) Toy.endpoint
     = (Ret None, (Close (Toy.env "" None) Toy.endpoint).2)
     ∧ readPump [] (Close (Toy.env "" None) Toy.endpoint).2 = (Ret tt, closed)
     ∧ wsPersistent_Execute JSONRPC (Toy.env "c1" None) closed = (Ret None, e2)
     ∧ respChan closed = Some [] ∧ respChan e2 = Some []).
Proof. vm_compute. repeat split. Qed.

Lemma Execute_records_witness :
  let garbled := Toy.endpointWith (Some "garbage") in
  let oneHit := mkWSEndpoint false (Some ∅) OneHitText (Some "ping") (Some "ws://peer/ws")
                  "task-2" None None ∅ 0 "watcher-1" (Some []) (Some false) [] in
  let refused := mkEnv (λ k, 100 + Z.of_nat k) "" (inl (mkWsError None "connection refused"))
                   false None None None (inr None) in
  let unmarshal := Errorf "failed to unmarshal JSON-RPC message: " (LibError "no colon") in
  let dial := Errorf "failed to dial: " (WSError (mkWsError None "connection refused")) in
  (∃ e', wsPersistent_Execute JSONRPC (Toy.env "c0" None) garbled = (Ret (Some unmarshal), e')
         ∧ respChan e' = Some [errorResponse unmarshal "task-1" "watcher-1" "ws://peer/ws"]
         ∧ written e' = [])
  ∧ wsOneHit_Execute refused oneHit
    = (Ret (Some dial),
       set_respChan (Some [errorResponse dial "task-2" "watcher-1" "ws://peer/ws"]) oneHit).
Proof.
  intros garbled oneHit refused unmarshal dial. split.
  - destruct (proj1 (proj2 (proj2 (proj2 (proj2 (proj2 Execute_records)))))
                (Toy.env "c0" None) garbled "ws://peer/ws" [] (toy_sendable _)
                eq_refl eq_refl) as (ret & out & e' & Hx & Hr & H1 & _).
    destruct (H1 (LibError "no colon") eq_refl) as (-> & -> & Hw).
    exists e'. split; [exact Hx |]. split; [exact Hr | exact Hw].
  - destruct (proj1 (proj2 Execute_records) refused oneHit "ws://peer/ws" []
                eq_refl eq_refl eq_refl ltac:(by eexists))
      as (ret & out & Hx & _ & _ & H3).
    destruct (H3 eq_refl eq_refl) as (x & -> & Hid & Hwid & Hurl & Hd & _).
    destruct (Hd (mkWsError None "connection refused") eq_refl) as (-> & He & Hp).
    rewrite Hx. destruct x as [tid wid url err pl]. cbn in *. by subst.
Defined.

End TaskProps.

(* ===================================================================== *)
(** * Properties of the watcher *)
(* ===================================================================== *)
Module WatcherProps.
Import Watcher.

(** The loop over the tasks touches only [watcherTasks]. *)
Lemma rangeTasks_frame f (envs : nat → WS.Env) result (w : Watcher) :
  let r := rangeTasks f envs result w in
  id r.2 = id w ∧ doneChan r.2 = doneChan w ∧ forwarder r.2 = forwarder w
  ∧ taskResponses r.2 = taskResponses w
  ∧ length (watcherTasks r.2) = length (watcherTasks w).
Proof.
  unfold rangeTasks.
  destruct (forTasks f envs 0 (watcherTasks w) result) as [o tasks'] eqn:Hf.
  cbn. repeat split.
  revert Hf. generalize 0%nat as i. revert result o tasks'.
  induction (watcherTasks w) as [| t rest IH]; intros result o tasks' i Hf; cbn in Hf.
  - by inversion Hf.
  - destruct (f (envs i) t) as [[err | |] t'].
    + destruct (forTasks f envs (S i) rest _) as [o' rest'] eqn:Hrest.
      inversion Hf; subst. cbn. f_equal. eapply IH, Hrest.
    + by inversion Hf.
    + by inversion Hf.
Qed.

Lemma rangeTasks_frame_id f (envs : nat → WS.Env) result (w : Watcher) :
  id (rangeTasks f envs result w).2 = id w
  ∧ doneChan (rangeTasks f envs result w).2 = doneChan w
  ∧ forwarder (rangeTasks f envs result w).2 = forwarder w
  ∧ taskResponses (rangeTasks f envs result w).2 = taskResponses w.
Proof.
  pose proof (rangeTasks_frame f envs result w) as Hf. cbn zeta in Hf.
  destruct Hf as (? & ? & ? & ? & _). done.
Qed.

(** [Watcher.Close] on a watcher whose done channel is open, when every
    task's [Close] returns: the channel is closed and the tasks' errors are
    returned together, in task order (nil when there are none). *)
Lemma Close_open (envs : nat → WS.Env) (w : Watcher) :
  doneChan w = DoneOpen →
  Close envs w =
    let '(o, tasks') := forTasks WatcherTask_Close envs 0 (watcherTasks w) [] in
    (match o with
     | Ret errs => Ret (ErrorOrNil errs)
     | Blocked => Blocked
     | Panicked => Panicked
     end,
     set_watcherTasks tasks' (set_doneChan DoneClosed w)).
Proof.
  intros Hd. destruct w as [i c p ts tr d fw]. cbn in Hd. subst d.
  unfold Close, close_doneChan, rangeTasks.
  cbv [mbind mret M_bind M_ret Go.bind Go.ret]. cbn.
  destruct (forTasks WatcherTask_Close envs 0 ts []) as [[errs | |] tasks']; reflexivity.
Qed.

(** C7. [Watcher.Close] called on a started watcher closes the done channel
    and closes the tasks, returning their errors together; a forwarder that
    then finds nothing to forward returns. A second [Close] does not return:
    it panics on [close(w.doneChan)], the channel being closed already, before
    any task is touched. *)
Theorem Close_twice_panics (envs envs' : nat → WS.Env) (w : Watcher) :
  doneChan w = DoneOpen →
  let w1 := (Close envs w).2 in
  doneChan w1 = DoneClosed
  ∧ (∀ errs tasks',
       forTasks WatcherTask_Close envs 0 (watcherTasks w) [] = (Ret errs, tasks') →
       Close envs w
       = (Ret (ErrorOrNil errs), set_watcherTasks tasks' (set_doneChan DoneClosed w)))
  ∧ (is_Some (forwarder w) →
       forwardResponsesIter None false w1 = (Ret false, set_forwarder None w1))
  ∧ Close envs' w1 = (Panicked, w1).
Proof.
  intros Hd w1.
  pose proof (Close_open envs w Hd) as Hc.
  destruct (forTasks WatcherTask_Close envs 0 (watcherTasks w) []) as [o tasks'] eqn:Hf.
  assert (Hw1 : w1 = set_watcherTasks tasks' (set_doneChan DoneClosed w)).
  { subst w1. by rewrite Hc. }
  split; [by rewrite Hw1 |]. split; [| split].
  - intros errs ts Heq. inversion Heq; subst. exact Hc.
  - intros [ch Hfw]. rewrite Hw1. destruct w as [i c p ts [] d fw]; cbn in *; subst; reflexivity.
  - rewrite Hw1. destruct w; reflexivity.
Qed.

Lemma Close_twice_panics_witness :
  Close (λ _, Toy.env "" None) (Close (λ _, Toy.env "" None) Toy.started).2
  = (Panicked, (Close (λ _, Toy.env "" None) Toy.started).2).
Proof.
  apply (Close_twice_panics (λ _, Toy.env "" None) (λ _, Toy.env "" None) Toy.started).
  reflexivity.
Defined.

End WatcherProps.

(* ===================================================================== *)
(** * Properties of the manager (wadjit.go) *)
(* ===================================================================== *)
Module WadjitProps.
Import Watcher Wadjit WatcherProps.

(** A watcher on which [Start] returned nil is started: its done channel is
    open and its forwarder runs towards the channel it was given. *)
Lemma Start_started (envs : nat → WS.Env) (ch : Chan) (w w' : Watcher) o :
  Start envs ch w = (Ret o, w') →
  id w' = id w ∧ doneChan w' = DoneOpen ∧ taskResponses w' = true
  ∧ forwarder w' = Some ch.
Proof.
  unfold Start. cbv [mbind mret M_bind M_ret Go.bind Go.ret Go.get Go.modify]. cbn.
  match goal with
  | |- context [rangeTasks ?f ?e ?r ?w0] =>
      pose proof (rangeTasks_frame_id f e r w0) as Hfr;
      destruct (rangeTasks f e r w0) as [[errs | |] w1]
  end; intros Heq; inversion Heq; subst.
  cbn in Hfr. destruct Hfr as (Hi & Hd & Hf & Ht).
  destruct w1; cbn in *. subst. by destruct w.
Qed.

(** A [Watcher.Close] that returns was called on an open done channel, and
    leaves it closed. *)
Lemma Close_returns (envs : nat → WS.Env) (w w' : Watcher) o :
  Watcher.Close envs w = (Ret o, w') →
  doneChan w = DoneOpen ∧ doneChan w' = DoneClosed ∧ id w' = id w.
Proof.
  intros Hc. destruct (doneChan w) eqn:Hd.
  - destruct w; cbn in Hd; subst. discriminate Hc.
  - rewrite (Close_open envs w Hd) in Hc.
    destruct (forTasks _ _ _ _ _) as [oo tasks']. inversion Hc; subst.
    by destruct w.
  - destruct w; cbn in Hd; subst. discriminate Hc.
Qed.

(** [RemoveWatcher] with its cases spelled out. *)
Lemma RemoveWatcher_cases (envs : nat → WS.Env) (wid : string) (s : Wadjit) :
  RemoveWatcher envs wid s =
    match watchers s !! wid with
    | None => (Ret (Some (fmt_Errorf ("watcher with ID " +:+ wid +:+ " not found"))), s)
    | Some p =>
        let s1 := set_watchers (delete wid (watchers s)) s in
        match heap s !! p with
        | None => (Panicked, s1)
        | Some w =>
            let s2 := set_heap (<[p := (Watcher.Close envs w).2]> (heap s)) s1 in
            match (Watcher.Close envs w).1 with
            | Ret (Some err) => (Ret (Some err), s2)
            | Ret None =>
                (Ret None,
                 set_taskManager
                   (mkTaskManager (delete wid (jobs (taskManager s)))
                      (stopped (taskManager s))) s2)
            | Blocked => (Blocked, s2)
            | Panicked => (Panicked, s2)
            end
        end
    end.
Proof.
  unfold RemoveWatcher, atWatcher, atTaskManager, RemoveJob.
  cbv [mbind mret M_bind M_ret Go.bind Go.ret Go.get Go.modify]. cbn.
  destruct (watchers s !! wid) as [p |]; [| reflexivity]. cbn.
  destruct (heap s !! p) as [w |]; [| reflexivity].
  destruct (Watcher.Close envs w) as [[[err |] | |] w']; reflexivity.
Qed.

(** The map after [RemoveWatcher], however the call ends. *)
Lemma RemoveWatcher_watchers (envs : nat → WS.Env) (wid : string) (s : Wadjit) :
  watchers (RemoveWatcher envs wid s).2 = delete wid (watchers s).
Proof.
  rewrite RemoveWatcher_cases.
  destruct (watchers s !! wid) as [p |] eqn:Hl.
  - cbn zeta. destruct (heap s !! p) as [w |]; [| reflexivity].
    destruct (Watcher.Close envs w).1 as [[err |] | |]; reflexivity.
  - cbn. by rewrite delete_id.
Qed.

Ltac run :=
  cbv [mbind mret M_bind M_ret Go.bind Go.ret Go.get Go.modify Go.block Go.panic Go.deref];
  cbn.

(** A method call on a watcher changes, of the manager, the heap only. *)
Lemma atWatcher_frame {A} (p : nat) (m : M Watcher A) (s : Wadjit) :
  watchers (atWatcher p m s).2 = watchers s
  ∧ taskManager (atWatcher p m s).2 = taskManager s
  ∧ newWatcherChan (atWatcher p m s).2 = newWatcherChan s
  ∧ watcherListener (atWatcher p m s).2 = watcherListener s
  ∧ cancelled (atWatcher p m s).2 = cancelled s.
Proof.
  unfold atWatcher. destruct (heap s !! p) as [w |]; [| done].
  by destruct (m w).
Qed.

Lemma closeAll_frame (envs : nat → nat → WS.Env) (k : nat) (ps : list (string * nat))
    (s : Wadjit) :
  watchers (closeAll envs k ps s).2 = watchers s
  ∧ taskManager (closeAll envs k ps s).2 = taskManager s
  ∧ newWatcherChan (closeAll envs k ps s).2 = newWatcherChan s
  ∧ watcherListener (closeAll envs k ps s).2 = watcherListener s
  ∧ cancelled (closeAll envs k ps s).2 = cancelled s.
Proof.
  revert k s. induction ps as [| [j p] ps IH]; intros k s; [done |].
  cbn [closeAll]. cbv [mbind M_bind Go.bind].
  pose proof (atWatcher_frame p (Watcher.Close (envs k)) s) as Hf.
  destruct (atWatcher p (Watcher.Close (envs k)) s) as [[o | |] s1]; cbn in Hf; try done.
  destruct (IH (S k) s1) as (-> & -> & -> & -> & ->). done.
Qed.

Section WithValidate.

Variable Validate : M Watcher (option error).

(** What is assumed of the [Validate] method, which the sources do not
    hold: it does not start the watcher. *)
Hypothesis Validate_keeps : ∀ w, notStarted w → notStarted (Validate w).2.

(** The manager after [AddWatcher], however the call ends: only the heap
    cell of the watcher and the queue can have changed, the cell by
    [Validate], the queue by the pointer appended. *)
Lemma AddWatcher_frame (p : nat) (s : Wadjit) :
  let s' := (AddWatcher Validate p s).2 in
  watchers s' = watchers s ∧ taskManager s' = taskManager s
  ∧ watcherListener s' = watcherListener s
  ∧ (heap s' = heap s
     ∨ ∃ w, heap s !! p = Some w ∧ heap s' = <[p := (Validate w).2]> (heap s))
  ∧ (newWatcherChan s' = newWatcherChan s ∨ newWatcherChan s' = newWatcherChan s ++ [p]).
Proof.
  unfold AddWatcher, atWatcher. run.
  destruct (heap s !! p) as [w |] eqn:Hh; cbn; [| by eauto 10].
  destruct (Validate w) as [[[err |] | |] w'] eqn:Hv; cbn;
    try (repeat split; try done; [right; exists w; by rewrite Hv | by left]).
  case_bool_decide; cbn;
    (repeat split; try done; [right; exists w; by rewrite Hv | eauto]).
Qed.

(** The gate does not close again. *)
Lemma exec_listener (ev : event) (s : Wadjit) :
  watcherListener (exec Validate ev s) = AwaitConsume →
  watcherListener s = AwaitConsume.
Proof.
  destruct ev as [wid c pl ts | p | envs wid | envs | | env | incoming pick]; cbn [exec].
  - by cbn.
  - by destruct (AddWatcher_frame p s) as (_ & _ & -> & _).
  - rewrite RemoveWatcher_cases.
    destruct (watchers s !! wid) as [p |]; [| done]. cbn zeta.
    destruct (heap s !! p) as [w |]; [| done].
    by destruct (Watcher.Close envs w).1 as [[err |] | |].
  - unfold Close, atTaskManager, Stop. run.
    by destruct (closeAll_frame envs 0
                   (map_to_list (watchers s))
                   (set_taskManager {| jobs := jobs (taskManager s); stopped := true |}
                      (set_cancelled true s))) as (_ & _ & _ & -> & _).
  - unfold ResponsesChannel. run.
    destruct (watcherListener s) eqn:Hl; cbn; by rewrite ?Hl.
  - unfold listenForWatchersIter, atWatcher, atTaskManager, ScheduleJob. run.
    destruct (watcherListener s) eqn:Hl; cbn; try by rewrite ?Hl.
    destruct (newWatcherChan s) as [| q rest]; cbn.
    { destruct (cancelled s); cbn; by rewrite ?Hl. }
    destruct (cancelled s && pickDone env); cbn; [done |].
    destruct (heap s !! q) as [w |] eqn:Hh; cbn; [| by rewrite Hl].
    destruct (Start (taskEnvs env) (Some []) w) as [[[err |] | |] w']; cbn;
      try by rewrite Hl.
    rewrite list_lookup_insert_eq by (eapply lookup_lt_Some, Hh). cbn.
    destruct (refuse env); cbn; by rewrite Hl.
  - unfold listenForResponsesIter. run.
    destruct (responseListener s); cbn; [| done].
    destruct incoming; cbn.
    + by destruct (cancelled s && pick).
    + by destruct (cancelled s).
Qed.

(** One event that leaves the gate closed keeps the manager idle and
    takes nothing out of the queue. *)
Lemma exec_idle (ev : event) (s : Wadjit) :
  watcherListener (exec Validate ev s) = AwaitConsume →
  idle s →
  idle (exec Validate ev s)
  ∧ newWatcherChan s `prefix_of` newWatcherChan (exec Validate ev s).
Proof.
  intros Hafter (Hw & Hj & Hh).
  pose proof (exec_listener ev s Hafter) as Hbefore.
  destruct ev as [wid c pl ts | p | envs wid | envs | | env | incoming pick];
    cbn [exec] in *.
  - cbn. split; [| done]. repeat split; try done.
    apply Forall_app. split; [done |]. by repeat constructor.
  - destruct (AddWatcher_frame p s) as (Hw' & Ht' & _ & Hh' & Hq').
    split.
    + repeat split; [by rewrite Hw' | by rewrite Ht' |].
      destruct Hh' as [-> | (w & Hl & ->)]; [done |].
      apply Forall_insert; [done |]. apply Validate_keeps.
      by eapply Forall_lookup_1.
    + destruct Hq' as [-> | ->]; [done | by apply prefix_app_r].
  - rewrite RemoveWatcher_cases, Hw, lookup_empty. done.
  - unfold Close, atTaskManager, Stop. run. rewrite Hw, map_to_list_empty. done.
  - revert Hafter. unfold ResponsesChannel. run. by rewrite Hbefore.
  - unfold listenForWatchersIter. run. rewrite Hbefore. done.
  - unfold listenForResponsesIter. run.
    destruct (responseListener s); cbn; [| done].
    destruct incoming; cbn.
    + by destruct (cancelled s && pick).
    + by destruct (cancelled s).
Qed.

Lemma run_listener (evs : list event) (s : Wadjit) :
  watcherListener (run Validate evs s) = AwaitConsume →
  watcherListener s = AwaitConsume.
Proof.
  revert s. induction evs as [| ev evs IH]; intros s H; [done |].
  apply (exec_listener ev), IH, H.
Qed.

(** Every event keeps the stored watchers scheduled. *)
Lemma exec_scheduled (ev : event) (s : Wadjit) :
  scheduled s → scheduled (exec Validate ev s).
Proof.
  intros Hs.
  destruct ev as [wid c pl ts | p | envs wid | envs | | env | incoming pick]; cbn [exec].
  - exact Hs.
  - destruct (AddWatcher_frame p s) as (Hw & Ht & _). intros k. rewrite Hw, Ht. apply Hs.
  - intros k Hk. rewrite RemoveWatcher_watchers in Hk.
    destruct (decide (k = wid)) as [-> | Hne]; [by rewrite lookup_delete_eq in Hk; destruct Hk |].
    rewrite lookup_delete_ne in Hk by done. specialize (Hs k Hk).
    rewrite RemoveWatcher_cases.
    destruct (watchers s !! wid) as [p |]; [| done]. cbn zeta.
    destruct (heap s !! p) as [w |]; [| done].
    destruct (Watcher.Close envs w).1 as [[err |] | |]; cbn; try done.
    by rewrite lookup_delete_ne.
  - unfold Close, atTaskManager, Stop. run.
    destruct (closeAll_frame envs 0 (map_to_list (watchers s))
                (set_taskManager {| jobs := jobs (taskManager s); stopped := true |}
                   (set_cancelled true s))) as (Hw & Ht & _).
    intros k. rewrite Hw, Ht. apply Hs.
  - unfold ResponsesChannel. run. by destruct (watcherListener s).
  - unfold listenForWatchersIter, atWatcher, atTaskManager, ScheduleJob. run.
    destruct (watcherListener s); cbn; try done.
    destruct (newWatcherChan s) as [| q rest]; cbn.
    { by destruct (cancelled s). }
    destruct (cancelled s && pickDone env); cbn; [done |].
    destruct (heap s !! q) as [w |] eqn:Hh; cbn; [| done].
    destruct (Start (taskEnvs env) (Some []) w) as [[[err |] | |] w']; cbn; try done.
    rewrite list_lookup_insert_eq by (eapply lookup_lt_Some, Hh). cbn.
    destruct (refuse env); cbn; [done |].
    intros k Hk. cbn in *. unfold Watcher.ID in Hk.
    destruct (decide (k = id w')) as [-> | Hne].
    + rewrite lookup_insert_eq. by eexists.
    + rewrite lookup_insert_ne in Hk by done. rewrite lookup_insert_ne by done. by apply Hs.
  - unfold listenForResponsesIter. run.
    destruct (responseListener s); cbn; [| done].
    destruct incoming; cbn.
    + by destruct (cancelled s && pick).
    + by destruct (cancelled s).
Qed.

Lemma run_scheduled (evs : list event) (s : Wadjit) :
  scheduled s → scheduled (run Validate evs s).
Proof.
  revert s. induction evs as [| ev evs IH]; intros s Hs; [done |].
  cbn. apply IH. by apply exec_scheduled.
Qed.

Lemma run_idle (evs : list event) (s : Wadjit) :
  watcherListener (run Validate evs s) = AwaitConsume →
  idle s →
  idle (run Validate evs s)
  ∧ newWatcherChan s `prefix_of` newWatcherChan (run Validate evs s).
Proof.
  revert s. induction evs as [| ev evs IH]; intros s H Hi; [done |].
  cbn in *. pose proof (run_listener evs _ H) as Hev.
  destruct (exec_idle ev s Hev Hi) as [Hi' Hp'].
  destruct (IH _ H Hi') as [Hi'' Hp'']. split; [done |]. by etrans.
Qed.

(** A pass of [listenForWatchers] once the gate is open, on a queued
    watcher that starts and whose job is accepted. *)
Lemma listenForWatchersIter_activates (env : ListenEnv) (s : Wadjit) p rest w w' :
  watcherListener s = Listening →
  newWatcherChan s = p :: rest →
  cancelled s && pickDone env = false →
  heap s !! p = Some w →
  Start (taskEnvs env) (Some []) w = (Ret None, w') →
  refuse env = None →
  listenForWatchersIter env s
  = (Ret tt,
     set_watchers (<[Watcher.ID w' := p]> (watchers s))
       (set_taskManager
          (mkTaskManager (<[id w' := Job_ (jobNow env) w']> (jobs (taskManager s)))
             (stopped (taskManager s)))
          (set_heap (<[p := w']> (heap s)) (set_newWatcherChan rest s)))).
Proof.
  intros Hl Hq Hc Hh Hs Hr.
  unfold listenForWatchersIter, atWatcher, atTaskManager, ScheduleJob. run.
  rewrite Hl, Hq, Hc. cbn. rewrite Hh, Hs. cbn.
  rewrite list_lookup_insert_eq by (eapply lookup_lt_Some, Hh). cbn.
  rewrite Hr. reflexivity.
Qed.


End WithValidate.




End WadjitProps.

(* ===================================================================== *)
(** * A small program logic for [Go.M] *)
(* ===================================================================== *)
Module GoLogic.
Import Logic.

Lemma triple_bind {S A B} (P : S → Prop) (R : A → S → Prop) (Q : B → S → Prop)
    (E : S → Prop) (m : M S A) (k : A → M S B) :
  triple P m R E → (∀ a, triple (R a) (k a) Q E) → triple P (m ≫= k) Q E.
Proof.
  intros Hm Hk s Hs. specialize (Hm s Hs).
  cbv [mbind M_bind Go.bind]. destruct (m s) as [[a | |] s']; try done.
  apply (Hk a s' Hm).
Qed.

Lemma triple_weaken {S A} (P P' : S → Prop) (Q Q' : A → S → Prop) (E E' : S → Prop)
    (m : M S A) :
  triple P' m Q' E' →
  (∀ s, P s → P' s) → (∀ a s, Q' a s → Q a s) → (∀ s, E' s → E s) →
  triple P m Q E.
Proof.
  intros Hm HP HQ HE s Hs. specialize (Hm s (HP s Hs)).
  destruct (m s) as [[a | |] s']; auto.
Qed.

Lemma preserves_bind {S A B} (I : S → Prop) (m : M S A) (k : A → M S B) :
  preserves I m → (∀ a, preserves I (k a)) → preserves I (m ≫= k).
Proof. intros Hm Hk. by apply (triple_bind I (λ _, I)). Qed.

Lemma preserves_ret {S A} (I : S → Prop) (a : A) : preserves I (mret a).
Proof. by intros s Hs. Qed.

Lemma preserves_get {S} (I : S → Prop) : preserves I (@Go.get S).
Proof. by intros s Hs. Qed.

Lemma preserves_block {S A} (I : S → Prop) : preserves I (@Go.block S A).
Proof. by intros s Hs. Qed.

Lemma preserves_panic {S A} (I : S → Prop) : preserves I (@Go.panic S A).
Proof. by intros s Hs. Qed.

Lemma preserves_deref {S A} (I : S → Prop) (p : option A) : preserves I (@Go.deref S A p).
Proof. destruct p; by intros s Hs. Qed.

Lemma preserves_modify {S} (I : S → Prop) (f : S → S) :
  (∀ s, I s → I (f s)) → preserves I (Go.modify f).
Proof. intros Hf s Hs. by apply Hf. Qed.

(** A deferred call that keeps [I] does not harm a body that keeps [I]. *)
Lemma preserves_defer {S A} (I : S → Prop) (d : M S unit) (body : M S A) :
  preserves I d → preserves I body →
  (∀ s, I s → I (d s).2) →
  preserves I (Go.defer d body).
Proof.
  intros Hd Hb Hd2 s Hs. specialize (Hb s Hs). unfold Go.defer.
  destruct (body s) as [[a | |] s']; try done.
  - specialize (Hd s' Hb). by destruct (d s') as [[[] | |] s''].
  - by apply Hd2.
Qed.

Section Frames.
Context {S : Type} (R : S → S → Prop) `{!PreOrder R}.

Lemma frames_bind {A B} (m : M S A) (k : A → M S B) :
  frames R m → (∀ a, frames R (k a)) → frames R (m ≫= k).
Proof.
  intros Hm Hk s. specialize (Hm s).
  cbv [mbind M_bind Go.bind]. destruct (m s) as [[a | |] s']; try done.
  cbn in Hm. by etrans; [exact Hm | apply Hk].
Qed.

Lemma frames_ret {A} (a : A) : frames R (mret a : M S A).
Proof. by intros s. Qed.

Lemma frames_get : frames R (@Go.get S).
Proof. by intros s. Qed.

Lemma frames_block {A} : frames R (@Go.block S A).
Proof. by intros s. Qed.

Lemma frames_panic {A} : frames R (@Go.panic S A).
Proof. by intros s. Qed.

Lemma frames_deref {A} (p : option A) : frames R (@Go.deref S A p).
Proof. destruct p; by intros s. Qed.

Lemma frames_modify (f : S → S) : (∀ s, R s (f s)) → frames R (Go.modify f).
Proof. intros Hf s. apply Hf. Qed.

Lemma frames_defer {A} (d : M S unit) (body : M S A) :
  frames R d → frames R body → frames R (Go.defer d body).
Proof.
  intros Hd Hb s. specialize (Hb s). unfold Go.defer.
  destruct (body s) as [[a | |] s']; cbn in *; try done.
  - specialize (Hd s'). destruct (d s') as [[[] | |] s'']; cbn in *; by etrans.
  - specialize (Hd s'). by etrans.
Qed.

End Frames.

End GoLogic.

(* ===================================================================== *)
(** * Further properties of the WebSocket endpoint (task_ws.go) *)
(* ===================================================================== *)
Module WSMore.
Import WS WSProps Logic GoLogic WSVocab.

(** One step of a proof that a computation keeps an invariant: the rule of
    the construct at its head. *)
Ltac keep_step :=
  lazymatch goal with
  | |- preserves _ (mret _) => exact (preserves_ret _ _)
  | |- preserves _ Go.get => exact (preserves_get _)
  | |- preserves _ Go.block => exact (preserves_block _)
  | |- preserves _ Go.panic => exact (preserves_panic _)
  | |- preserves _ (Go.deref _) => exact (preserves_deref _ _)
  | |- preserves _ (_ ≫= _) => apply preserves_bind; [| intros ?]
  | |- preserves _ (match ?x with _ => _ end) => destruct x
  end.

(** The primitive operations other than [lock] and [unlock] leave the mutex
    as it is. *)
Lemma modify_mu (b : bool) (f : WSEndpoint → WSEndpoint) :
  (∀ e, mu (f e) = mu e) → preserves (λ e, mu e = b) (Go.modify f).
Proof. intros Hf. apply preserves_modify. intros e He. by rewrite Hf. Qed.

Lemma send_mu (b : bool) r : preserves (λ e, mu e = b) (send r).
Proof. intros e He. unfold send. by destruct e as [? ? ? ? ? ? ? ? ? ? ? [] ? ?]. Qed.

Lemma cancel_mu (b : bool) : preserves (λ e, mu e = b) cancel.
Proof. intros e He. unfold cancel. by destruct e as [? ? ? ? ? ? ? ? ? ? ? ? [] ?]. Qed.

Lemma ctxDone_mu (b : bool) : preserves (λ e, mu e = b) ctxDone.
Proof. intros e He. unfold ctxDone. by destruct e as [? ? ? ? ? ? ? ? ? ? ? ? [] ?]. Qed.

Lemma wgWait_mu (b : bool) : preserves (λ e, mu e = b) wgWait.
Proof. intros e He. unfold wgWait. by destruct e as [? ? ? ? ? ? ? ? ? [] ? ? ? ?]. Qed.

Lemma wgDone_mu (b : bool) : preserves (λ e, mu e = b) wgDone.
Proof. intros e He. unfold wgDone. by destruct e as [? ? ? ? ? ? ? ? ? [] ? ? ? ?]. Qed.

(** A locked section: the mutex, free before, is free again when the
    section returns and when it panics. *)
Lemma locked_section {A} (body : W A) :
  preserves (λ e, mu e = true) body →
  preserves (λ e, mu e = false) (lock ;; Go.defer unlock body).
Proof.
  intros Hb e He. cbv beta in He.
  cbv [mbind M_bind Go.bind lock]. rewrite He.
  specialize (Hb (set_mu true e) ltac:(by destruct e)).
  unfold Go.defer, unlock.
  destruct (body (set_mu true e)) as [[a | |] e']; try done.
  - cbv beta in Hb. rewrite Hb. by destruct e'.
  - cbv beta in Hb. rewrite Hb. by destruct e'.
Qed.

(** A call that locks while the mutex is held gets no further. *)
Lemma lock_held {A} (k : W A) : preserves (λ e, mu e = true) (lock ;; k).
Proof.
  intros e He. cbv beta in He. cbv [mbind M_bind Go.bind lock]. by rewrite He.
Qed.

Ltac keep_mu_with known :=
  repeat lazymatch goal with
    | |- preserves _ (send _) => exact (send_mu _ _)
    | |- preserves _ cancel => exact (cancel_mu _)
    | |- preserves _ ctxDone => exact (ctxDone_mu _)
    | |- preserves _ wgWait => exact (wgWait_mu _)
    | |- preserves _ wgDone => exact (wgDone_mu _)
    | |- preserves _ spawnReadPump => apply modify_mu; by intros []
    | |- preserves _ (Go.modify _) => apply modify_mu; by intros []
    | |- preserves (λ e, mu e = false) (lock ≫= λ _, Go.defer unlock _) =>
        apply locked_section
    | |- preserves (λ e, mu e = true) (lock ≫= _) => apply lock_held
    | |- preserves (λ e, mu e = true) (closeConn _) => unfold closeConn
    | _ => first [known | keep_step]
    end.

Ltac keep_mu := keep_mu_with fail.

Lemma Close_free env : preserves (λ e, mu e = false) (Close env).
Proof. unfold Close. keep_mu. Qed.

Lemma closeConn_free env : preserves (λ e, mu e = false) (closeConn env).
Proof. unfold closeConn. keep_mu. Qed.

Lemma nilConn_free env : preserves (λ e, mu e = false) (nilConn env).
Proof. unfold nilConn. keep_mu. Qed.

Lemma connect_free env : preserves (λ e, mu e = false) (connect env).
Proof. unfold connect. keep_mu. Qed.

Lemma Initialize_free env wid ch : preserves (λ e, mu e = false) (Initialize env wid ch).
Proof.
  intros e He. cbv beta in He.
  destruct e as [m hd md pl u i c ra inf w wid0 rc cx wr]. cbn in He. subst m.
  unfold Initialize, connect.
  cbv [mbind mret M_bind M_ret Go.bind Go.ret Go.get Go.modify Go.defer Go.deref
       Go.panic lock unlock spawnReadPump]. cbn.
  destruct (md =? PersistentJSONRPC) eqn:Hm; cbn; rewrite ?Hm; cbn.
  - destruct c; cbn; [done |]. destruct u; cbn; [| done]. destruct (Dial env); done.
  - destruct (md =? OneHitText); done.
Qed.

Lemma reconnect_free env : preserves (λ e, mu e = false) (reconnect env).
Proof. unfold reconnect. keep_mu_with ltac:(exact (nilConn_free _)). Qed.

Lemma wsOneHit_free env : preserves (λ e, mu e = false) (wsOneHit_Execute env).
Proof. unfold wsOneHit_Execute. keep_mu. Qed.

Section WithCodec.
Context `{Codec}.

Lemma Execute_free protocol env :
  preserves (λ e, mu e = false) (wsPersistent_Execute protocol env).
Proof.
  unfold wsPersistent_Execute.
  keep_mu_with ltac:(first [exact (nilConn_free _) | exact (reconnect_free _)]).
Qed.

Lemma readPumpIter_free oenv : preserves (λ e, mu e = false) (readPumpIter oenv).
Proof. unfold readPumpIter. keep_mu_with ltac:(exact (closeConn_free _)). Qed.

Lemma readPumpLoop_free reads : preserves (λ e, mu e = false) (readPumpLoop reads).
Proof.
  induction reads as [| env rest IH]; cbn [readPumpLoop].
  - keep_mu_with ltac:(exact (readPumpIter_free _)).
  - apply preserves_bind; [exact (readPumpIter_free _) |].
    intros []; [exact IH | exact (preserves_ret _ _)].
Qed.

Lemma readPump_free reads : preserves (λ e, mu e = false) (readPump reads).
Proof.
  unfold readPump. apply preserves_defer.
  - exact (wgDone_mu _).
  - apply readPumpLoop_free.
  - intros e He. unfold wgDone. by destruct e as [? ? ? ? ? ? ? ? ? [] ? ? ? ?].
Qed.

(** The mutex discipline of the endpoint. Every method that takes the
    mutex gives it back: called while nobody holds the mutex, [Close],
    [Initialize], [connect], [closeConn], [nilConn], [reconnect], the two
    [Execute] and the read pump leave it free, when they return and also when
    they panic (the [defer] runs). *)
Theorem mutex_is_given_back :
  ∀ (env : Env) (watcherID : string) (ch : Chan) (protocol : wsPersistentProtocol)
    (reads : list Env),
    releases (Close env)
    ∧ releases (Initialize env watcherID ch)
    ∧ releases (connect env)
    ∧ releases (closeConn env)
    ∧ releases (nilConn env)
    ∧ releases (reconnect env)
    ∧ releases (wsOneHit_Execute env)
    ∧ releases (wsPersistent_Execute protocol env)
    ∧ releases (readPump reads).
Proof.
  assert (Hr : ∀ A (m : W A), preserves (λ e, mu e = false) m → releases m).
  { intros A m Hm e He. specialize (Hm e He).
    destruct (m e) as [[a | |] e']; done. }
  intros env watcherID ch protocol reads.
  repeat split; apply Hr.
  - apply Close_free.
  - apply Initialize_free.
  - apply connect_free.
  - apply closeConn_free.
  - apply nilConn_free.
  - apply reconnect_free.
  - apply wsOneHit_free.
  - apply Execute_free.
  - apply readPump_free.
Qed.

End WithCodec.

Ltac go :=
  cbv [mbind mret M_bind M_ret Go.bind Go.ret Go.get Go.modify Go.block Go.panic
       Go.defer Go.deref lock unlock send cancel ctxDone spawnReadPump wgDone wgWait];
  cbn.

(** [connect] with its cases spelled out, on a free mutex. *)
Lemma connect_cases (env : Env) (e : WSEndpoint) :
  mu e = false →
  connect env e =
    if negb (Mode e =? PersistentJSONRPC) then
      (Ret (Some (errors_New "cannot establish long lived connection for non-long mode")), e)
    else
      match conn e, URL e, Dial env with
      | Some _, _, _ => (Ret (Some (errors_New "connection already established")), e)
      | None, None, _ => (Panicked, e)
      | None, Some _, inl err => (Ret (Some (WSError err)), e)
      | None, Some _, inr c =>
          (Ret None, set_wg (S (wg e)) (set_remoteAddr (RemoteAddr c) (set_conn (Some c) e)))
      end.
Proof.
  intros Hmu. destruct e as [m hd md pl u i c ra inf w wid rc cx wr]. cbn in *. subst m.
  unfold connect. go.
  destruct (negb (md =? PersistentJSONRPC)); [reflexivity |].
  destruct c; cbn; [reflexivity |]. destruct u; cbn; [| reflexivity].
  destruct (Dial env); reflexivity.
Qed.

(** [connect] never replaces a connection. It returns nil only in
    persistent mode, on an endpoint without connection whose URL is set, when
    the dial succeeds: the endpoint then holds the dialled connection and its
    remote address, and one more read pump is counted. Whenever it returns an
    error (wrong mode, a connection is held already, dial failure) the
    endpoint is exactly as before. On a free mutex it never parks; it panics
    exactly when it gets as far as the dial with a nil URL (persistent mode,
    no connection held), and then leaves the endpoint as it was, the mutex
    given back. *)
Theorem connect_never_replaces (env : Env) (e : WSEndpoint) :
  mu e = false →
  (∀ e', connect env e = (Ret None, e') →
     Mode e = PersistentJSONRPC ∧ conn e = None ∧ is_Some (URL e)
     ∧ ∃ c, Dial env = inr c
            ∧ e' = set_wg (S (wg e)) (set_remoteAddr (RemoteAddr c) (set_conn (Some c) e))
            ∧ conn e' = Some c ∧ remoteAddr e' = RemoteAddr c ∧ wg e' = S (wg e))
  ∧ (∀ err e', connect env e = (Ret (Some err), e') → e' = e)
  ∧ (is_Some (conn e) → ∃ err, connect env e = (Ret (Some err), e))
  ∧ (connect env e).1 ≠ Blocked
  ∧ ((connect env e).1 = Panicked
     ↔ Mode e = PersistentJSONRPC ∧ conn e = None ∧ URL e = None)
  ∧ ((connect env e).1 = Panicked → (connect env e).2 = e).
Proof.
  intros Hmu. rewrite (connect_cases env e Hmu).
  destruct (negb (Mode e =? PersistentJSONRPC)) eqn:Hm.
  { split; [by intros e' [=] |]. split; [by intros err e' [= _ <-] |].
    split; [intros _; by eexists |]. split; [done |]. split; [| done].
    split; [done |]. intros (Hp & _ & _). rewrite Hp in Hm. done. }
  apply negb_false_iff, Z.eqb_eq in Hm.
  destruct (conn e) as [c0 |] eqn:Hc.
  { split; [by intros e' [=] |]. split; [by intros err e' [= _ <-] |].
    split; [intros _; by eexists |]. split; [done |]. split; [| done].
    split; [done |]. by intros (_ & ? & _). }
  destruct (URL e) as [url |] eqn:Hu.
  2: { split; [by intros e' [=] |]. split; [by intros err e' [=] |].
       split; [by intros [] |]. done. }
  destruct (Dial env) as [err | c] eqn:Hd.
  { split; [by intros e' [=] |]. split; [by intros err' e' [= _ <-] |].
    split; [by intros [] |]. split; [done |]. split; [| done].
    split; [done |]. by intros (_ & _ & ?). }
  split.
  { intros e' [= <-]. do 2 (split; [done |]). split; [by eexists |]. exists c.
    split; [done |]. by destruct e. }
  split; [by intros err' e' [=] |]. split; [by intros [] |].
  split; [done |]. split; [| done]. split; [done |]. by intros (_ & _ & ?).
Qed.

Lemma connect_never_replaces_witness :
  ∃ err, connect (Toy.env "" None) Toy.endpoint = (Ret (Some err), Toy.endpoint).
Proof.
  apply (connect_never_replaces (Toy.env "" None) Toy.endpoint); first [reflexivity | by eexists].
Defined.

(** [WSEndpoint.Validate] takes no lock and fails only on a nil URL, leaving
    the endpoint untouched. Otherwise it returns nil, makes the header map
    when it is nil and draws an id when the id is empty, and changes nothing
    else; the endpoint it leaves is one on which a second [Validate] changes
    nothing (the drawn id being non-empty). *)
Theorem Validate_fills_defaults_once :
  (∀ fresh (e : WSEndpoint),
     URL e = None → Validate fresh e = (Ret (Some (errors_New "URL is nil")), e))
  ∧ (∀ fresh (e : WSEndpoint),
       is_Some (URL e) →
       let e' := (Validate fresh e).2 in
       Validate fresh e = (Ret None, e')
       ∧ e' = set_ID (if bool_decide (ID e = "") then fresh else ID e)
                (set_Header (if Header e is None then Some ∅ else Header e) e)
       ∧ is_Some (Header e')
       ∧ (fresh ≠ "" → ID e' ≠ "" ∧ ∀ fresh', Validate fresh' e' = (Ret None, e'))).
Proof.
  split.
  - intros fresh e Hu. unfold Validate. go. by rewrite Hu.
  - intros fresh e [u Hu] e'.
    destruct e as [m hd md pl u0 i c ra inf w wid rc cx wr]. cbn in Hu. subst u0.
    subst e'. unfold Validate. go.
    destruct hd as [h |]; cbn; case_bool_decide as Hi; cbn; subst;
      (split; [reflexivity |]; split; [reflexivity |]; split; [by eexists |]);
      intros Hf; (split; [done |]); intros fresh'; go;
      rewrite ?bool_decide_eq_false_2 by done; reflexivity.
Qed.


(** ** What the calls leave alone *)

Ltac frame_step :=
  lazymatch goal with
  | |- frames _ (mret _) => exact (frames_ret _ _)
  | |- frames _ Go.get => exact (frames_get _)
  | |- frames _ Go.block => exact (frames_block _)
  | |- frames _ Go.panic => exact (frames_panic _)
  | |- frames _ (Go.deref _) => exact (frames_deref _ _)
  | |- frames _ (Go.defer _ _) => refine (frames_defer _ _ _ _ _)
  | |- frames _ (_ ≫= _) => refine (frames_bind _ _ _ _ _); [| intros ?]
  | |- frames _ (match ?x with _ => _ end) => destruct x
  end.

Lemma grows_refl {A} (c : option (list A)) : grows c c.
Proof. destruct c; cbn; [reflexivity | done]. Qed.

Lemma grows_trans {A} (c1 c2 c3 : option (list A)) :
  grows c1 c2 → grows c2 c3 → grows c1 c3.
Proof.
  destruct c1, c2, c3; cbn; try done. intros ? ?. by etrans.
Qed.

#[local] Instance taskFrame_preorder : PreOrder taskFrame.
Proof.
  split.
  - intros e. unfold taskFrame. repeat split; try done. apply grows_refl.
  - intros e1 e2 e3 (?&?&?&?&?&?&?&?&?&?) (?&?&?&?&?&?&?&?&?&?).
    unfold taskFrame. repeat split; try congruence.
    + by eapply grows_trans.
    + by etrans.
Qed.

#[local] Instance oneHitFrame_preorder : PreOrder oneHitFrame.
Proof.
  split.
  - intros e. by split.
  - intros e1 e2 e3 (?&?&?&?&?) (?&?&?&?&?).
    split; [by etrans |]. repeat split; congruence.
Qed.

(** The primitive operations, for both frames. *)
Ltac prim :=
  let e := fresh "e" in
  intros e; destruct e as [? ? ? ? ? ? ? ? ? ? ? ? ? ?];
  cbv [lock unlock send cancel ctxDone wgDone wgWait spawnReadPump Go.modify]; cbn;
  repeat case_match; cbn;
  repeat split; cbn; try done; try apply grows_refl; try (by apply prefix_app_r).

Lemma lock_oneHit : frames oneHitFrame lock.
Proof. prim. Qed.
Lemma unlock_oneHit : frames oneHitFrame unlock.
Proof. prim. Qed.
Lemma send_oneHit r : frames oneHitFrame (send r).
Proof. prim. Qed.
Lemma ctxDone_oneHit : frames oneHitFrame ctxDone.
Proof. prim. Qed.

Lemma wsOneHit_Execute_frame env : frames oneHitFrame (wsOneHit_Execute env).
Proof.
  unfold wsOneHit_Execute.
  repeat lazymatch goal with
    | |- frames _ lock => exact lock_oneHit
    | |- frames _ unlock => exact unlock_oneHit
    | |- frames _ (send _) => exact (send_oneHit _)
    | |- frames _ ctxDone => exact ctxDone_oneHit
    | _ => frame_step
    end.
Qed.

Lemma lock_task : frames taskFrame lock.
Proof. prim. Qed.
Lemma unlock_task : frames taskFrame unlock.
Proof. prim. Qed.
Lemma send_task r : frames taskFrame (send r).
Proof. prim. Qed.
Lemma ctxDone_task : frames taskFrame ctxDone.
Proof. prim. Qed.
Lemma wgWait_task : frames taskFrame wgWait.
Proof. prim. Qed.
Lemma spawnReadPump_task : frames taskFrame spawnReadPump.
Proof. prim. Qed.
Lemma modify_task (f : WSEndpoint → WSEndpoint) :
  (∀ e, taskFrame e (f e)) → frames taskFrame (Go.modify f).
Proof. exact (frames_modify _ _). Qed.

Ltac task_frame :=
  repeat lazymatch goal with
    | |- frames _ lock => exact lock_task
    | |- frames _ unlock => exact unlock_task
    | |- frames _ (send _) => exact (send_task _)
    | |- frames _ ctxDone => exact ctxDone_task
    | |- frames _ wgWait => exact wgWait_task
    | |- frames _ spawnReadPump => exact spawnReadPump_task
    | |- frames _ (Go.modify _) =>
        apply modify_task; intros [? ? ? ? ? ? ? ? ? ? ? ? ? ?];
        repeat split; cbn; try done; try apply grows_refl; by apply prefix_app_r
    | |- frames _ (closeConn _) => unfold closeConn
    | |- frames _ (nilConn _) => unfold nilConn
    | |- frames _ (reconnect _) => unfold reconnect
    | _ => frame_step
    end.

Section WithCodec.
Context `{Codec}.

Lemma wsPersistent_Execute_frame protocol env :
  frames taskFrame (wsPersistent_Execute protocol env).
Proof. unfold wsPersistent_Execute. task_frame. Qed.

(** Neither [Execute] configures the endpoint. However a call ends
    (returned, parked or panicked), the header, mode, payload, URL, id,
    watcher id and context of the endpoint are as before, records are only
    appended to the response channel and frames only appended to what was
    written; the recorded remote address is as before as well, also when a
    persistent [Execute] has reconnected. A one-hit [Execute] moreover leaves
    the endpoint's own connection, pump count and in-flight map alone and
    writes nothing on it. *)
Theorem Execute_configures_nothing :
  ∀ (protocol : wsPersistentProtocol) (env : Env) (e : WSEndpoint),
    taskFrame e (wsPersistent_Execute protocol env e).2
    ∧ oneHitFrame e (wsOneHit_Execute env e).2.
Proof.
  intros protocol env e. split.
  - apply wsPersistent_Execute_frame.
  - apply wsOneHit_Execute_frame.
Qed.

End WithCodec.


(** ** Reconnecting *)

(** [reconnect] with its cases spelled out, on a free mutex. *)
Lemma reconnect_cases (env : Env) (e : WSEndpoint) :
  mu e = false →
  reconnect env e =
    if negb (Mode e =? PersistentJSONRPC) then
      (Ret (Some (errors_New "can only reconnect for long-lived connections")), e)
    else
      match (if conn e is Some _
             then (if NetConnNil env then None else ConnClose env)
             else None) with
      | Some err => (Ret (Some (Errorf "failed to close connection: " (WSError err))), e)
      | None =>
          match wg e with
          | S _ => (Blocked, e)
          | O =>
              match URL e, Dial env with
              | None, _ => (Panicked, set_conn None e)
              | Some _, inl err =>
                  (Ret (Some (Errorf "failed to dial when reconnecting: " (WSError err))),
                   set_conn None e)
              | Some _, inr c => (Ret None, set_wg 1 (set_conn (Some c) e))
              end
          end
      end.
Proof.
  intros Hmu. destruct e as [m hd md pl u i c ra inf w wid rc cx wr]. cbn in *. subst m.
  unfold reconnect, nilConn. go.
  destruct (negb (md =? PersistentJSONRPC)); [reflexivity |].
  destruct c; cbn.
  - destruct (NetConnNil env); cbn.
    + destruct w; cbn; [| reflexivity]. destruct u; cbn; [| reflexivity].
      destruct (Dial env); reflexivity.
    + destruct (ConnClose env); cbn; [reflexivity |].
      destruct w; cbn; [| reflexivity]. destruct u; cbn; [| reflexivity].
      destruct (Dial env); reflexivity.
  - destruct w; cbn; [| reflexivity]. destruct u; cbn; [| reflexivity].
    destruct (Dial env); reflexivity.
Qed.

(** [reconnect] does not refresh the recorded remote address. It returns
    nil only when no read pump is counted any more and the dial succeeds; the
    endpoint then holds the dialled connection and counts one pump, and every
    other field, the remote address recorded by [connect] among them, is as
    before, whatever the address of the new connection. When it returns an
    error the endpoint is as before (wrong mode, closing the old connection
    failed) or has lost its connection (the dial failed). *)
Theorem reconnect_keeps_the_old_address (env : Env) (e : WSEndpoint) :
  mu e = false →
  (∀ e', reconnect env e = (Ret None, e') →
     ∃ c, Dial env = inr c ∧ wg e = 0%nat
          ∧ e' = set_wg 1 (set_conn (Some c) e)
          ∧ conn e' = Some c ∧ remoteAddr e' = remoteAddr e)
  ∧ (∀ err e', reconnect env e = (Ret (Some err), e') →
       e' = e ∨ (e' = set_conn None e ∧ ∃ d, Dial env = inl d)).
Proof.
  intros Hmu. rewrite (reconnect_cases env e Hmu).
  destruct (negb (Mode e =? PersistentJSONRPC)).
  { split; [by intros e' [=] |]. intros err e' [= _ <-]. by left. }
  destruct (if conn e is Some _ then _ else _).
  { split; [by intros e' [=] |]. intros err e' [= _ <-]. by left. }
  destruct (wg e) eqn:Hw; [| by split].
  destruct (URL e) as [url |]; [| by split].
  destruct (Dial env) as [d | c].
  - split; [by intros e' [=] |]. intros err e' [= _ <-]. right. split; [done | by eexists].
  - split; [| by intros err e' [=]].
    intros e' [= <-]. exists c. by destruct e.
Qed.

Lemma reconnect_keeps_the_old_address_witness :
  let env := mkEnv (λ _, 0) "" (inr (mkConn 2 (Some "10.0.0.2:80"))) false None None None
               (inr None) in
  let e := set_wg 0 Toy.endpoint in
  ∃ c, Dial env = inr c ∧ wg e = 0%nat
       ∧ set_wg 1 (set_conn (Some (mkConn 2 (Some "10.0.0.2:80"))) e)
         = set_wg 1 (set_conn (Some c) e)
       ∧ conn (set_wg 1 (set_conn (Some (mkConn 2 (Some "10.0.0.2:80"))) e)) = Some c
       ∧ remoteAddr (set_wg 1 (set_conn (Some (mkConn 2 (Some "10.0.0.2:80"))) e))
         = Some "10.0.0.1:80".
Proof.
  intros env e.
  apply (proj1 (reconnect_keeps_the_old_address env e ltac:(reflexivity))).
  reflexivity.
Defined.

Section WithCodec.
Context `{Codec}.

(** ** The read pump *)

(** A read error ends the pump without a word. Whatever the error (an
    expected close code, a closed connection, anything else) and whatever the
    mode, the pump of an endpoint whose mutex is free drops the connection
    (the result of closing it is ignored), counts itself out and returns: no
    record is sent, the context is not cancelled, and what is left of the
    reads is not looked at. While the mutex is held the pump is parked
    with the endpoint untouched. *)
Theorem read_error_is_silent (env : Env) (rest : list Env) (e : WSEndpoint) err n :
  ReadMessage env = inl err →
  ctx e = Some false → is_Some (URL e) → is_Some (conn e) → wg e = S n →
  readPump (env :: rest) e =
    if mu e then (Blocked, e) else (Ret tt, set_wg n (set_conn None e)).
Proof.
  intros Hr Hc [u Hu] [c Hcn] Hw.
  destruct e as [m hd md pl u0 i c0 ra inf w wid rc cx wr]. cbn in *. subst.
  unfold readPump, readPumpLoop, readPumpIter, closeConn. go. rewrite Hr. go.
  by destruct m.
Qed.

Lemma answers_refl e : answers 0 e e.
Proof.
  unfold answers. repeat split; try done; [by left |].
  destruct (respChan e); [| done]. split; [done | lia].
Qed.

Lemma answers_trans n m e1 e2 e3 :
  answers n e1 e2 → answers m e2 e3 → answers (n + m) e1 e3.
Proof.
  intros (?&?&?&?&?&?&?&?&?&?&Hc1&?&?&Hr1) (?&?&?&?&?&?&?&?&?&?&Hc2&?&?&Hr2).
  unfold answers. repeat split; try congruence.
  - destruct Hc2 as [-> | ->]; [done | by right].
  - lia.
  - by etrans.
  - destruct (respChan e1), (respChan e2), (respChan e3); try done.
    destruct Hr1, Hr2. split; [by etrans | lia].
Qed.

Lemma answers_mono n m e e' : (n ≤ m)%nat → answers n e e' → answers m e e'.
Proof.
  intros Hnm (?&?&?&?&?&?&?&?&?&?&?&?&?&Hr).
  unfold answers. repeat split; try done.
  destruct (respChan e), (respChan e'); try done. destruct Hr. split; [done | lia].
Qed.

Ltac answered :=
  unfold answers; cbn;
  repeat split; try done; try reflexivity; try (by left); try (by right); try lia;
  try (by apply prefix_app_r); try (rewrite length_app; cbn; lia).

Lemma readPumpIter_answers (oenv : option Env) (e : WSEndpoint) :
  answers (if oenv is Some _ then 1 else 0) e (readPumpIter oenv e).2.
Proof.
  assert (Hn : (0 ≤ if oenv is Some _ then 1 else 0)%nat) by (destruct oenv; lia).
  destruct e as [m hd md pl u i c ra inf w wid rc cx wr].
  unfold readPumpIter, closeConn. go.
  destruct cx as [[|] |]; cbn;
    [by eapply answers_mono, answers_refl | | by eapply answers_mono, answers_refl].
  destruct u; cbn; [| by eapply answers_mono, answers_refl].
  destruct c; cbn; [| by eapply answers_mono, answers_refl].
  clear Hn. destruct oenv as [env |]; cbn; [| apply answers_refl].
  destruct (ReadMessage env) as [err | p]; cbn.
  { destruct m, rc; cbn; answered. }
  destruct (md =? PersistentJSONRPC); cbn.
  2: { destruct rc; cbn; answered. }
  destruct (DecodeResponse p) as [err | resp]; cbn.
  { destruct rc; cbn; answered. }
  destruct (Response_IsEmpty resp); cbn.
  { destruct rc; cbn; answered. }
  case_bool_decide; cbn.
  { destruct rc; cbn; answered. }
  destruct (inf !! Response_IDString resp) eqn:Hl; cbn.
  2: { destruct rc; cbn; answered. }
  destruct (Response_MarshalJSON _); cbn; destruct rc; cbn; answered;
    apply delete_subseteq.
Qed.

Lemma readPumpLoop_answers (reads : list Env) (e : WSEndpoint) :
  answers (length reads) e (readPumpLoop reads e).2.
Proof.
  revert e. induction reads as [| env rest IH]; intros e.
  - cbn [readPumpLoop]. cbv [mbind M_bind Go.bind].
    pose proof (readPumpIter_answers None e) as Hi.
    destruct (readPumpIter None e) as [[st | |] e']; exact Hi.
  - cbn [readPumpLoop length]. cbv [mbind M_bind Go.bind].
    pose proof (readPumpIter_answers (Some env) e) as Hi.
    destruct (readPumpIter (Some env) e) as [[st | |] e']; cbn in Hi.
    + destruct st.
      * change (S (length rest)) with (1 + length rest)%nat.
        eapply answers_trans; [exact Hi | apply IH].
      * apply answers_mono with 1%nat; [lia | exact Hi].
    + apply answers_mono with 1%nat; [lia | exact Hi].
    + apply answers_mono with 1%nat; [lia | exact Hi].
Qed.

(** The read pump only answers. Over any sequence of reads, and however
    it ends, the pump leaves the configuration, the context, the recorded
    remote address, the frames written and the mutex as they were; it never
    installs a connection (the connection is the old one, or none), never
    adds an in-flight entry, never counts a pump in, and appends at most one
    record per read to the response channel, without touching what was sent
    before. *)
Theorem readPump_only_answers :
  ∀ (reads : list Env) (e : WSEndpoint),
    answers (length reads) e (readPump reads e).2.
Proof.
  intros reads e. unfold readPump, Go.defer.
  pose proof (readPumpLoop_answers reads e) as Hl.
  destruct (readPumpLoop reads e) as [[[] | |] e']; cbn in *; try done.
  - replace (length reads) with (length reads + 0)%nat by lia.
    eapply answers_trans; [exact Hl |].
    destruct e' as [m hd md pl u i c ra inf w wid rc cx wr].
    unfold wgDone. cbn. destruct w; cbn; [apply answers_refl |].
    destruct rc; answered.
  - replace (length reads) with (length reads + 0)%nat by lia.
    eapply answers_trans; [exact Hl |].
    destruct e' as [m hd md pl u i c ra inf w wid rc cx wr].
    unfold wgDone. cbn. destruct w; cbn; [apply answers_refl |].
    destruct rc; answered.
Qed.

(** ** After [Close] *)

(** [Execute] on a closed endpoint dials again. After a clean [Close] of a
    connected persistent endpoint the context is cancelled and the connection
    is nil; the read pump, whatever it would have read, returns at its
    context check and counts itself out. A later [Execute] finds the
    connection nil and reconnects before it looks at the context: when the
    dial succeeds it returns nil without sending a record or writing a frame,
    and leaves the closed endpoint with a new connection and a pump
    counted. *)
Theorem Execute_after_Close_dials_again
    (env env' : Env) (reads : list Env) (e : WSEndpoint) (c : Conn) :
  mu e = false → Mode e = PersistentJSONRPC →
  is_Some (conn e) → is_Some (ctx e) → is_Some (URL e) → wg e = 1%nat →
  WriteControl env = None → ConnClose env = None →
  Dial env' = inr c →
  let e1 := set_ctx (Some true) (set_conn None e) in
  let e2 := set_wg 0 e1 in
  let e3 := set_wg 1 (set_conn (Some c) e2) in
  Close env e = (Ret None, e1)
  ∧ readPump reads e1 = (Ret tt, e2)
  ∧ wsPersistent_Execute JSONRPC env' e2 = (Ret None, e3)
  ∧ respChan e3 = respChan e ∧ written e3 = written e
  ∧ conn e3 = Some c ∧ ctx e3 = Some true.
Proof.
  intros Hmu Hm [c0 Hc] [cx0 Hcx] [u Hu] Hw Hwc Hcc Hd.
  destruct e as [m hd md pl u0 i c1 ra inf w wid rc cx wr]. cbn in *. subst.
  split; [| split; [| split]].
  - unfold Close. go. rewrite Hwc. cbn. rewrite Hcc. reflexivity.
  - unfold readPump. destruct reads; cbn [readPumpLoop]; unfold readPumpIter; go; reflexivity.
  - unfold wsPersistent_Execute, nilConn, reconnect. go. rewrite Hd. reflexivity.
  - done.
Qed.

End WithCodec.

Lemma Execute_after_Close_dials_again_witness :
  wsPersistent_Execute JSONRPC (Toy.env "c0" None)
    (set_wg 0 (set_ctx (Some true) (set_conn None Toy.endpoint))) =
  (Ret None,
   set_wg 1 (set_conn (Some (mkConn 2 (Some "10.0.0.1:80")))
               (set_wg 0 (set_ctx (Some true) (set_conn None Toy.endpoint))))).
Proof.
  apply (Execute_after_Close_dials_again (Toy.env "" None) (Toy.env "c0" None) []
           Toy.endpoint (mkConn 2 (Some "10.0.0.1:80")));
    first [reflexivity | by eexists].
Defined.

Lemma read_error_is_silent_witness :
  readPump [mkEnv (λ _, 0) "" (inl (mkWsError (Some 1006) "abnormal closure")) false None
              None None (inl (mkWsError (Some 1006) "abnormal closure"))]
    Toy.endpoint
  = (Ret tt, set_wg 0 (set_conn None Toy.endpoint)).
Proof.
  apply (read_error_is_silent _ [] Toy.endpoint (mkWsError (Some 1006) "abnormal closure") 0);
    first [reflexivity | by eexists].
Defined.

(** ** Initialising *)

(** [Initialize] with its cases spelled out, on a free mutex. *)
Lemma Initialize_cases (env : Env) (watcherID : string) (ch : Chan) (e : WSEndpoint) :
  mu e = false →
  Initialize env watcherID ch e =
    let e0 := configured watcherID ch e in
    if Mode e =? PersistentJSONRPC then
      match conn e, URL e, Dial env with
      | Some _, _, _ =>
          (Ret (Some (Errorf "failed to connect when initializing: "
                        (errors_New "connection already established"))), e0)
      | None, None, _ => (Panicked, e0)
      | None, Some _, inl err =>
          (Ret (Some (Errorf "failed to connect when initializing: " (WSError err))), e0)
      | None, Some _, inr c =>
          (Ret None, set_wg (S (wg e)) (set_remoteAddr (RemoteAddr c) (set_conn (Some c) e0)))
      end
    else if Mode e =? OneHitText then (Ret None, e0)
    else (Ret None, set_Mode OneHitText e0).
Proof.
  intros Hmu. destruct e as [m hd md pl u i c ra inf w wid rc cx wr]. cbn in *. subst m.
  unfold Initialize, connect, configured. go.
  destruct (md =? PersistentJSONRPC) eqn:Hm; cbn; rewrite ?Hm; cbn.
  - destruct c; cbn; [reflexivity |]. destruct u; cbn; [| reflexivity].
    destruct (Dial env); reflexivity.
  - destruct (md =? OneHitText); reflexivity.
Qed.

(** [Initialize] configures before it connects, and [Task] does not
    depend on it. On a free mutex [Initialize] first stores the watcher id and
    the response channel and makes a fresh, live context; a persistent
    endpoint then connects. When the connection fails (the dial fails, or a
    connection is held already) the error is returned wrapped and the
    endpoint stays configured; so initialising a connected endpoint again
    fails, yet replaces its channel and its context. After a clean [Close]
    of an endpoint whose URL is set it succeeds again: the endpoint holds a
    new connection under a live context. Whatever the mode and the outcome,
    the task [Task] hands out after [Initialize] is of the kind it would have
    handed out before. *)
Theorem Initialize_configures_before_it_connects
    (env env' : Env) (wid : string) (ch : Chan) (e : WSEndpoint) :
  mu e = false →
  let e0 := configured wid ch e in
  let e' := (Initialize env wid ch e).2 in
  watcherID e' = wid ∧ respChan e' = ch ∧ ctx e' = Some false
  ∧ Task_ e' = Task_ e
  ∧ (Mode e = PersistentJSONRPC → is_Some (conn e) →
       Initialize env wid ch e
       = (Ret (Some (Errorf "failed to connect when initializing: "
                       (errors_New "connection already established"))), e0))
  ∧ (Mode e = PersistentJSONRPC → conn e = None → is_Some (URL e) →
       ∀ d, Dial env = inl d →
       Initialize env wid ch e
       = (Ret (Some (Errorf "failed to connect when initializing: " (WSError d))), e0))
  ∧ (Mode e = PersistentJSONRPC → is_Some (URL e) → ∀ c c',
       conn e = Some c → ctx e = Some false →
       WriteControl env' = None → ConnClose env' = None → Dial env = inr c' →
       let closed := set_ctx (Some true) (set_conn None e) in
       Close env' e = (Ret None, closed)
       ∧ Initialize env wid ch closed
         = (Ret None,
            set_wg (S (wg e))
              (set_remoteAddr (RemoteAddr c') (set_conn (Some c') e0)))).
Proof.
  intros Hmu e0 e'. subst e0 e'. rewrite (Initialize_cases env wid ch e Hmu).
  cbn zeta.
  destruct e as [m hd md pl u i c ra inf w wid0 rc cx wr]. cbn in *. subst m.
  split; [| split; [| split; [| split; [| split; [| split]]]]].
  - destruct (md =? PersistentJSONRPC); [destruct c, u, (Dial env) |
      destruct (md =? OneHitText)]; reflexivity.
  - destruct (md =? PersistentJSONRPC); [destruct c, u, (Dial env) |
      destruct (md =? OneHitText)]; reflexivity.
  - destruct (md =? PersistentJSONRPC); [destruct c, u, (Dial env) |
      destruct (md =? OneHitText)]; reflexivity.
  - unfold Task_. cbn.
    destruct (md =? PersistentJSONRPC) eqn:Hp; cbn.
    + destruct c, u, (Dial env); cbn; by rewrite ?Hp.
    + destruct (md =? OneHitText) eqn:Ho; cbn; by rewrite ?Hp, ?Ho.
  - intros -> [c0 ->]. reflexivity.
  - intros -> -> [url ->] d ->. reflexivity.
  - intros -> [url ->] c0 c' -> -> Hwc Hcc Hd. split.
    + unfold Close. go. rewrite Hwc. cbn. rewrite Hcc. reflexivity.
    + rewrite Initialize_cases by reflexivity. cbn. rewrite Hd. reflexivity.
Qed.

Lemma Initialize_configures_before_it_connects_witness :
  Initialize (Toy.env "" None) "watcher-2" (Some []) Toy.endpoint
  = (Ret (Some (Errorf "failed to connect when initializing: "
                  (errors_New "connection already established"))),
     configured "watcher-2" (Some []) Toy.endpoint).
Proof.
  apply (Initialize_configures_before_it_connects (Toy.env "" None) (Toy.env "" None)
           "watcher-2" (Some []) Toy.endpoint);
    first [reflexivity | by eexists].
Defined.

End WSMore.

(* ===================================================================== *)
(** * Further properties of the HTTP endpoint (task_http.go) *)
(* ===================================================================== *)
Module HTTPMore.
Import HTTP HTTPOptions.

Ltac go :=
  cbv [mbind mret M_bind M_ret Go.bind Go.ret Go.get Go.modify Go.block Go.panic
       Go.defer Go.deref];
  cbn.

(** What an exported option leaves alone. *)
Lemma exported_frame (opt : HTTPEndpointOption) (ep : HTTPEndpoint) :
  exported opt →
  URL (opt ep) = URL ep ∧ Method (opt ep) = Method ep ∧ client (opt ep) = client ep
  ∧ watcherID (opt ep) = watcherID ep ∧ respChan (opt ep) = respChan ep
  ∧ (OptReadFast (opt ep) = true → OptReadFast ep = true ∨ opt = WithReadFast)
  ∧ ((∀ id, opt ≠ WithID id) → ID (opt ep) = ID ep).
Proof.
  intros [h | id | b | | tc]; cbn; repeat split; eauto.
  intros Hno. by destruct (Hno id).
Qed.

Lemma foldl_exported (opts : list HTTPEndpointOption) (ep : HTTPEndpoint) :
  Forall exported opts →
  let ep' := foldl (λ ep opt, opt ep) ep opts in
  URL ep' = URL ep ∧ Method ep' = Method ep ∧ client ep' = client ep
  ∧ watcherID ep' = watcherID ep ∧ respChan ep' = respChan ep
  ∧ (OptReadFast ep' = true ↔ OptReadFast ep = true ∨ WithReadFast ∈ opts)
  ∧ ((∀ opt id, opt ∈ opts → opt ≠ WithID id) → ID ep' = ID ep).
Proof.
  intros Hall. revert ep. induction Hall as [| opt opts Hopt Hall IH]; intros ep; cbn.
  - repeat split; eauto. intros [? | Hin]; [done | by apply elem_of_nil in Hin].
  - destruct (IH (opt ep)) as (Hu & Hm & Hc & Hw & Hr & Hf & Hi). cbn zeta in *.
    destruct (exported_frame opt ep Hopt) as (Hu' & Hm' & Hc' & Hw' & Hr' & Hf' & Hi').
    repeat split; try congruence.
    + intros Ht. apply Hf in Ht as [Ht | Hin].
      * destruct (Hf' Ht) as [? | ->]; [by left | right; apply list_elem_of_here].
      * right. by apply list_elem_of_further.
    + intros [Ht | Hin]; apply Hf.
      * left. by destruct Hopt; cbn in *.
      * apply elem_of_cons in Hin as [<- | Hin]; [by left | by right].
    + intros Hno. rewrite Hi, Hi'; [done | |].
      * intros id. apply Hno, list_elem_of_here.
      * intros o id Hin. by apply Hno, list_elem_of_further.
Qed.

(** [NewHTTPEndpoint] with any list of the exported options, in any
    order: the URL and the method are the arguments; the client, the watcher
    id and the response channel stay unset (they are [Initialize]'s); read-fast
    is on exactly when [WithReadFast] is among the options (no option turns it
    off again); without a [WithID] the id is the generated one, and a final
    [WithID] decides the id whatever came before. *)
Theorem NewHTTPEndpoint_options (fresh : string) (u : option string) (method : string)
    (opts : list HTTPEndpointOption) :
  Forall exported opts →
  let ep := NewHTTPEndpoint fresh u method opts in
  URL ep = u ∧ Method ep = method ∧ client ep = None
  ∧ watcherID ep = "" ∧ respChan ep = None
  ∧ (OptReadFast ep = true ↔ WithReadFast ∈ opts)
  ∧ ((∀ opt id, opt ∈ opts → opt ≠ WithID id) → ID ep = fresh)
  ∧ (∀ id, ID (NewHTTPEndpoint fresh u method (opts ++ [WithID id])) = id).
Proof.
  intros Hall. unfold NewHTTPEndpoint.
  destruct (foldl_exported opts
              (mkHTTPEndpoint (Some ∅) method None u fresh None None false "" None) Hall)
    as (Hu & Hm & Hc & Hw & Hr & Hf & Hi). cbn in *.
  repeat split; try done.
  - intros Ht. by apply Hf in Ht as [? | ?].
  - intros Hin. apply Hf. by right.
  - intros id. by rewrite foldl_app.
Qed.

Lemma NewHTTPEndpoint_options_witness :
  OptReadFast (NewHTTPEndpoint "id-0" (Some "http://peer/") "GET"
                 [WithReadFast; WithID "a"; WithPayload None]) = true.
Proof.
  apply (NewHTTPEndpoint_options "id-0" (Some "http://peer/") "GET"
           [WithReadFast; WithID "a"; WithPayload None]).
  - repeat constructor.
  - apply list_elem_of_here.
Defined.

(** [HTTPEndpoint.Validate] with its cases spelled out. *)
Lemma Validate_cases (fresh : string) (e : HTTPEndpoint) :
  Validate fresh e =
    match URL e with
    | None => (Ret (Some (errors_New "URL is nil")), e)
    | Some _ =>
        (Ret (match TransportControl_ e with
              | Some tc =>
                  if bool_decide (AddrPort tc = "")
                  then Some (errors_New "TransportControl.AddrPort is empty")
                  else None
              | None => None
              end),
         withDefaults fresh e)
    end.
Proof.
  destruct e as [hd m pl u i tc c rf wid rc].
  unfold Validate, withDefaults. go.
  destruct u; cbn; [| reflexivity].
  destruct tc as [tc |]; cbn; [| reflexivity].
  by case_bool_decide.
Qed.

(** [HTTPEndpoint.Validate] writes before it fails. With a nil URL it
    returns its error and leaves the endpoint as it is. With a URL it makes
    the header map and draws the id where they are missing, whatever it
    returns; it then returns an error exactly when a transport control is
    set whose address is the zero address, and nil otherwise. It neither
    parks nor panics. *)
Theorem Validate_writes_before_it_fails :
  ∀ (fresh : string) (e : HTTPEndpoint),
    (URL e = None → Validate fresh e = (Ret (Some (errors_New "URL is nil")), e))
    ∧ (is_Some (URL e) →
         (Validate fresh e).2 = withDefaults fresh e
         ∧ ((∃ tc, TransportControl_ e = Some tc ∧ AddrPort tc = "") →
              (Validate fresh e).1
              = Ret (Some (errors_New "TransportControl.AddrPort is empty")))
         ∧ ((∀ tc, TransportControl_ e = Some tc → AddrPort tc ≠ "") →
              (Validate fresh e).1 = Ret None)).
Proof.
  intros fresh e. rewrite Validate_cases. split.
  - by intros ->.
  - intros [u ->]. cbn. split; [done |]. split.
    + intros (tc & -> & Ha). by rewrite bool_decide_eq_true_2.
    + intros Hno. destruct (TransportControl_ e) as [tc |]; [| done].
      by rewrite bool_decide_eq_false_2 by by apply Hno.
Qed.

(** One [Execute] of the task of an initialised endpoint. *)
Lemma Execute_one_record (env : Env) (e : HTTPEndpoint) url l :
  URL e = Some url → is_Some (client e) → respChan e = Some l →
  ∃ x,
    Execute env (Task_ e)
    = (Ret (Err x), mkHttpRequest e (Some (l ++ [x])) (Payload e) (Method e))
    ∧ TaskID x = ID e ∧ WatcherID x = watcherID e ∧ Resp.URL x = url
    ∧ (Err x = None ↔ is_Some (Resp.Payload x)).
Proof.
  intros Hu [c Hc] Hl. unfold Execute, send, Task_. go. rewrite Hu, Hc, Hl. cbn.
  destruct (NewRequest env) as [err |]; cbn; [| destruct (Do env) as [err | r]; cbn];
    match goal with
    | |- ∃ x, (_, mkHttpRequest _ (Some (_ ++ [?r])) _ _) = _ ∧ _ => exists r
    end; (split; [reflexivity |]); cbn; repeat split; try done;
    try (by intros [? [=]]); by eexists.
Qed.

(** A validated endpoint runs. On an endpoint that [Validate] accepted,
    [Initialize] returns nil (it does not panic on the URL when it builds the
    TLS configuration) and installs the default client, or the pinned one
    when a transport control is set. The task it then hands out does not
    panic either: one [Execute] sends exactly one record on the channel given
    to [Initialize], carrying the endpoint's id, the watcher id given to
    [Initialize] and the URL, and returns the very error the record carries;
    the record has a payload exactly when it has no error. *)
Theorem validated_endpoint_executes
    (fresh wid : string) (l : list WatcherResponse) (env : Env) (e e1 : HTTPEndpoint) :
  Validate fresh e = (Ret None, e1) →
  ∃ url e2 x,
    URL e = Some url
    ∧ Initialize wid (Some l) e1 = (Ret None, e2)
    ∧ client e2 = Some (clientFor url e)
    ∧ Execute env (Task_ e2)
      = (Ret (Err x), mkHttpRequest e2 (Some (l ++ [x])) (Payload e) (Method e))
    ∧ TaskID x = ID e1 ∧ WatcherID x = wid ∧ Resp.URL x = url
    ∧ (Err x = None ↔ is_Some (Resp.Payload x)).
Proof.
  intros Hv. pose proof (Validate_cases fresh e) as Hc.
  destruct (URL e) as [url |] eqn:Hu; rewrite Hv in Hc; [| done].
  injection Hc as _ He1. exists url.
  assert (Hi : Initialize wid (Some l) e1
               = (Ret None,
                  mkHTTPEndpoint (Header e1) (Method e) (Payload e) (Some url) (ID e1)
                    (TransportControl_ e) (Some (clientFor url e)) (OptReadFast e)
                    wid (Some l))).
  { destruct e as [hd m pl u i tc c rf wid0 rc]. cbn in Hu. subst u.
    unfold withDefaults in He1. cbn in He1. subst e1.
    unfold Initialize, clientFor. go.
    destruct tc as [[ap [] skip] |]; reflexivity. }
  eexists. 
  destruct (Execute_one_record env
              (mkHTTPEndpoint (Header e1) (Method e) (Payload e) (Some url) (ID e1)
                 (TransportControl_ e) (Some (clientFor url e)) (OptReadFast e)
                 wid (Some l)) url l) as (x & Hx & Ht & Hw & Hur & Hp);
    [done | by eexists | done |].
  exists x. split; [done |]. split; [exact Hi |]. split; [done |].
  split; [exact Hx |]. done.
Qed.

Lemma validated_endpoint_executes_witness :
  ∃ url e2 x,
    URL (NewHTTPEndpoint "id-0" (Some "http://peer/") "GET" []) = Some url
    ∧ Initialize "w" (Some []) (NewHTTPEndpoint "id-0" (Some "http://peer/") "GET" [])
      = (Ret None, e2)
    ∧ client e2 = Some (clientFor url (NewHTTPEndpoint "id-0" (Some "http://peer/") "GET" []))
    ∧ Execute (mkEnv None (inl (LibError "refused")) zeroTimestamps None) (Task_ e2)
      = (Ret (Err x), mkHttpRequest e2 (Some ([] ++ [x])) None "GET")
    ∧ TaskID x = "id-0" ∧ WatcherID x = "w" ∧ Resp.URL x = url
    ∧ (Err x = None ↔ is_Some (Resp.Payload x)).
Proof.
  apply (validated_endpoint_executes "id-1" "w" []
           (mkEnv None (inl (LibError "refused")) zeroTimestamps None)
           (NewHTTPEndpoint "id-0" (Some "http://peer/") "GET" [])).
  reflexivity.
Defined.

End HTTPMore.

(* ===================================================================== *)
(** * Further properties of the watcher *)
(* ===================================================================== *)
Module WatcherMore.
Import Watcher WatcherRun WatcherProps WadjitProps.

Ltac go :=
  cbv [mbind mret M_bind M_ret Go.bind Go.ret Go.get Go.modify Go.block Go.panic
       Go.defer Go.deref];
  cbn.

(** The loop of the forwarder of a started, open watcher. *)
Lemma forwardResponses_cases (steps : list (WatcherResponse * bool)) (w : Watcher) ch :
  forwarder w = Some ch → taskResponses w = true → doneChan w = DoneOpen →
  forwardResponses steps w =
    match ch with
    | Some l =>
        (Blocked, set_forwarder (Some (Some (l ++ (tagged (id w) ∘ fst <$> steps)))) w)
    | None => (Blocked, w)
    end.
Proof.
  intros Hf Ht Hd. destruct w as [i c p ts tr d fw]. cbn in *. subst.
  destruct ch as [l |].
  - revert l. induction steps as [| [r pick] rest IH]; intros l.
    + cbn. unfold forwardResponsesIter. go. by rewrite app_nil_r.
    + cbn [forwardResponses]. unfold forwardResponsesIter at 1. go.
      rewrite (bool_decide_eq_false_2 (DoneOpen = DoneClosed)) by done.
      unfold set_forwarder. cbn.
      rewrite IH. unfold set_forwarder. cbn. by rewrite <- app_assoc.
  - destruct steps as [| [r pick] rest]; cbn; unfold forwardResponsesIter; go;
      rewrite ?(bool_decide_eq_false_2 (DoneOpen = DoneClosed)) by done; reflexivity.
Qed.

(** The forwarder forwards in order and signs every record. While the
    watcher is started and not closed, whatever the tasks offer is sent on
    the response channel in the order offered, each record with its watcher
    id replaced by the watcher's own and nothing else changed; the goroutine
    then waits for more. A forwarder that was given a nil channel is parked
    at the first record, for ever. *)
Theorem forwarder_signs_in_order (steps : list (WatcherResponse * bool)) (w : Watcher) l :
  forwarder w = Some (Some l) → taskResponses w = true → doneChan w = DoneOpen →
  ∃ out,
    forwardResponses steps w = (Blocked, set_forwarder (Some (Some (l ++ out))) w)
    ∧ length out = length steps
    ∧ ∀ k r pick, steps !! k = Some (r, pick) →
        ∃ r', out !! k = Some r'
              ∧ WatcherID r' = id w ∧ TaskID r' = TaskID r ∧ Resp.URL r' = Resp.URL r
              ∧ Err r' = Err r ∧ Resp.Payload r' = Resp.Payload r.
Proof.
  intros Hf Ht Hd. exists (tagged (id w) ∘ fst <$> steps).
  split; [exact (forwardResponses_cases steps w (Some l) Hf Ht Hd) |].
  split; [by rewrite length_fmap |].
  intros k r pick Hk. exists (tagged (id w) r).
  split; [by rewrite list_lookup_fmap, Hk | done].
Qed.

Lemma forwarder_signs_in_order_witness :
  let steps := [(errorResponse (LibError "x") "task-0" "" "http://peer/", true);
                (mkWatcherResponse "task-1" "other" "ws://peer/ws" None None, false)] in
  ∃ out,
    forwardResponses steps Toy.started
    = (Blocked, set_forwarder (Some (Some ([] ++ out))) Toy.started)
    ∧ length out = length steps
    ∧ ∀ k r pick, steps !! k = Some (r, pick) →
        ∃ r', out !! k = Some r'
              ∧ WatcherID r' = id Toy.started ∧ TaskID r' = TaskID r
              ∧ Resp.URL r' = Resp.URL r
              ∧ Err r' = Err r ∧ Resp.Payload r' = Resp.Payload r.
Proof.
  intros steps. apply (forwarder_signs_in_order steps Toy.started []); reflexivity.
Defined.

(** The errors a loop over the tasks returns extend the ones it started
    with. *)
Lemma forTasks_result f (envs : nat → WS.Env) i tasks result errs tasks' :
  forTasks f envs i tasks result = (Ret errs, tasks') → result `prefix_of` errs.
Proof.
  revert i result errs tasks'.
  induction tasks as [| t rest IH]; intros i result errs tasks' Hf; cbn in Hf.
  - by inversion Hf.
  - destruct (f (envs i) t) as [[err | |] t']; try by inversion Hf.
    destruct (forTasks f envs (S i) rest _) as [o rest'] eqn:Hrest.
    inversion Hf; subst. apply IH in Hrest.
    destruct err as [err |]; [| done].
    etrans; [| exact Hrest]. by apply prefix_app_r.
Qed.

(** [Start] with a nil response channel reports it and starts all the
    same. When it returns, the error is not nil and lists the nil channel
    first; yet the done channel is open, the task-response channel is made and
    given to the tasks, and the forwarder runs towards the nil channel: the
    first record a task offers parks it for ever, and nothing is forwarded.
    [Close] of the watcher still succeeds in closing the done channel. *)
Theorem Start_with_nil_channel_still_starts
    (envs : nat → WS.Env) (w w' : Watcher) (o : option error) :
  Start envs None w = (Ret o, w') →
  (∃ rest, o = Some (MultiError (errors_New "response channel is nil" :: rest)))
  ∧ doneChan w' = DoneOpen ∧ taskResponses w' = true ∧ forwarder w' = Some None
  ∧ (∀ steps, forwardResponses steps w' = (Blocked, w'))
  ∧ (∀ envs', doneChan (Close envs' w').2 = DoneClosed).
Proof.
  intros Hs.
  destruct (Start_started envs None w w' o Hs) as (Hi & Hd & Ht & Hf).
  split; [| repeat split; try done].
  - revert Hs. unfold Start. go.
    match goal with
    | |- context [rangeTasks ?f ?e ?r ?w0] =>
        unfold rangeTasks;
        destruct (forTasks f e 0 (watcherTasks w0) r) as [[errs | |] ts] eqn:Hft
    end; cbn; intros Heq; inversion Heq; subst.
    apply forTasks_result in Hft as [more ->]. cbn. by eexists.
  - intros steps.
    rewrite (forwardResponses_cases steps w' None Hf Ht Hd). done.
  - intros envs'. rewrite (Close_open envs' w' Hd).
    by destruct (forTasks _ _ _ _ _) as [oo tasks'].
Qed.

Lemma Start_with_nil_channel_still_starts_witness :
  let w := mkWatcher "w" 1 None [HTTPTask (HTTPOptions.NewHTTPEndpoint "t" None "GET" [])]
             false DoneNil None in
  let w' := (Start (λ _, Toy.env "" None) None w).2 in
  forwardResponses [(errorResponse (LibError "x") "t" "" "http://peer/", false)] w'
  = (Blocked, w').
Proof.
  intros w w'.
  destruct (Start_with_nil_channel_still_starts (λ _, Toy.env "" None) w w'
              (Some (MultiError [errors_New "response channel is nil"]))
              ltac:(reflexivity)) as (_ & _ & _ & _ & Hf & _).
  apply Hf.
Defined.

End WatcherMore.

(* ===================================================================== *)
(** * Further properties of the manager (wadjit.go) *)
(* ===================================================================== *)
Module WadjitMore.
Import Watcher Wadjit WatcherProps WadjitProps.

Ltac go :=
  cbv [mbind mret M_bind M_ret Go.bind Go.ret Go.get Go.modify Go.block Go.panic
       Go.deref];
  cbn.

(** [Watcher.Close] on a watcher whose done channel is closed already. *)
Lemma Close_closed (envs : nat → WS.Env) (w : Watcher) :
  doneChan w = DoneClosed → Watcher.Close envs w = (Panicked, w).
Proof.
  intros Hd. destruct w as [i c p ts tr d fw]. cbn in Hd. subst d. reflexivity.
Qed.

(** A call on the watcher behind [q] leaves the other cells of the heap
    alone. *)
Lemma atWatcher_other {A} (q p : nat) (m : M Watcher A) (s : Wadjit) :
  p ≠ q → heap (atWatcher q m s).2 !! p = heap s !! p.
Proof.
  intros Hne. unfold atWatcher. destruct (heap s !! q) as [w |]; [| done].
  destruct (m w) as [o w']. cbn. by rewrite list_lookup_insert_ne.
Qed.

(** The [Range] of [Close] leaves alone the watchers it does not visit. *)
Lemma closeAll_other (envs : nat → nat → WS.Env) k (ps : list (string * nat))
    (s : Wadjit) (p : nat) :
  p ∉ ps.*2 → heap (closeAll envs k ps s).2 !! p = heap s !! p.
Proof.
  revert k s. induction ps as [| [j q] ps IH]; intros k s Hp; [done |].
  cbn in Hp. apply not_elem_of_cons in Hp as [Hne Hp].
  cbn [closeAll]. cbv [mbind M_bind Go.bind].
  pose proof (atWatcher_other q p (Watcher.Close (envs k)) s Hne) as Ha.
  destruct (atWatcher q (Watcher.Close (envs k)) s) as [[o | |] s1]; cbn in Ha; try done.
  by rewrite IH.
Qed.

(** A closed watcher stays closed through the [Range] of [Close]. *)
Lemma closeAll_keeps_closed (envs : nat → nat → WS.Env) k (ps : list (string * nat))
    (s : Wadjit) (p : nat) (w : Watcher) :
  heap s !! p = Some w → doneChan w = DoneClosed →
  ∃ w', heap (closeAll envs k ps s).2 !! p = Some w' ∧ doneChan w' = DoneClosed.
Proof.
  revert k s w. induction ps as [| [j q] ps IH]; intros k s w Hh Hd; [by exists w |].
  cbn [closeAll]. cbv [mbind M_bind Go.bind].
  destruct (decide (p = q)) as [<- | Hne].
  - unfold atWatcher. rewrite Hh, (Close_closed (envs k) w Hd). cbn.
    exists w. split; [| done].
    rewrite list_lookup_insert_eq by (eapply lookup_lt_Some, Hh). done.
  - pose proof (atWatcher_other q p (Watcher.Close (envs k)) s Hne) as Ha.
    rewrite Hh in Ha.
    destruct (atWatcher q (Watcher.Close (envs k)) s) as [[o | |] s1]; cbn in Ha;
      try by exists w.
    by eapply IH.
Qed.

(** When the [Range] of [Close] returns, every watcher it visited is
    closed. *)
Lemma closeAll_closes (envs : nat → nat → WS.Env) k (ps : list (string * nat))
    (s s' : Wadjit) (p : nat) :
  closeAll envs k ps s = (Ret tt, s') → p ∈ ps.*2 →
  ∃ w, heap s' !! p = Some w ∧ doneChan w = DoneClosed.
Proof.
  revert k s. induction ps as [| [j q] ps IH]; intros k s Hc Hp.
  { by apply elem_of_nil in Hp. }
  cbn [closeAll] in Hc. cbv [mbind M_bind Go.bind] in Hc.
  destruct (atWatcher q (Watcher.Close (envs k)) s) as [[o | |] s1] eqn:Ha; try done.
  cbn in Hp. apply elem_of_cons in Hp as [-> | Hp]; [| by eapply IH].
  assert (Hq : ∃ w, heap s1 !! q = Some w ∧ doneChan w = DoneClosed).
  { revert Ha. unfold atWatcher. destruct (heap s !! q) as [w |] eqn:Hh; [| done].
    destruct (Watcher.Close (envs k) w) as [oo w'] eqn:Hcl. intros [= -> <-].
    destruct (Close_returns _ _ _ _ Hcl) as (_ & Hd & _).
    exists w'. split; [| done]. cbn.
    rewrite list_lookup_insert_eq by (eapply lookup_lt_Some, Hh). done. }
  destruct Hq as (w & Hh & Hd).
  pose proof (closeAll_keeps_closed envs (S k) ps s1 q w Hh Hd) as Hk.
  by rewrite Hc in Hk.
Qed.

(** [Wadjit.Close] with its three steps spelled out. *)
Lemma Close_unfold (envs : nat → nat → WS.Env) (s : Wadjit) :
  Close envs s =
    closeAll envs 0 (map_to_list (watchers s))
      (set_taskManager (mkTaskManager (jobs (taskManager s)) true) (set_cancelled true s)).
Proof. unfold Close, atTaskManager, Stop. go. reflexivity. Qed.

(** [Wadjit.Close] is not idempotent, and nothing can be removed after
    it. A [Close] that returns has cancelled the context, stopped the task
    manager and closed every stored watcher, but the watchers are all still
    in the map. So, as soon as one watcher is stored, a [RemoveWatcher] of
    it afterwards deletes it from the map and then panics closing its done
    channel a second time, and a second [Close] panics in the same way. *)
Theorem manager_Close_is_not_idempotent
    (envs envs'' : nat → nat → WS.Env) (envs' : nat → WS.Env)
    (s s1 : Wadjit) (wid : string) (p : nat) :
  Close envs s = (Ret tt, s1) →
  watchers s !! wid = Some p →
  cancelled s1 = true ∧ stopped (taskManager s1) = true
  ∧ jobs (taskManager s1) = jobs (taskManager s)
  ∧ watchers s1 = watchers s
  ∧ (∃ w, heap s1 !! p = Some w ∧ doneChan w = DoneClosed)
  ∧ (RemoveWatcher envs' wid s1).1 = Panicked
  ∧ watchers (RemoveWatcher envs' wid s1).2 = delete wid (watchers s)
  ∧ (Close envs'' s1).1 = Panicked.
Proof.
  intros Hc Hw. rewrite Close_unfold in Hc.
  set (s0 := set_taskManager _ _) in Hc.
  destruct (closeAll_frame envs 0 (map_to_list (watchers s)) s0) as (Hfw & Hft & _ & _ & Hfc).
  rewrite Hc in Hfw, Hft, Hfc. cbn in Hfw, Hft, Hfc.
  assert (Hall : ∀ k q, watchers s !! k = Some q →
                        ∃ w, heap s1 !! q = Some w ∧ doneChan w = DoneClosed).
  { intros k q Hk. eapply closeAll_closes; [exact Hc |].
    apply list_elem_of_fmap. exists (k, q). split; [done |].
    by apply elem_of_map_to_list. }
  destruct (Hall wid p Hw) as (w & Hh & Hd).
  split; [done |]. split; [by rewrite Hft |]. split; [by rewrite Hft |].
  split; [done |]. split; [by exists w |].
  split; [| split].
  - rewrite RemoveWatcher_cases, Hfw, Hw. cbn zeta. rewrite Hh.
    by rewrite (Close_closed envs' w Hd).
  - by rewrite RemoveWatcher_watchers, Hfw.
  - rewrite Close_unfold. cbn. rewrite Hfw.
    destruct (map_to_list (watchers s)) as [| [k q] ps] eqn:Hl.
    { apply map_to_list_empty_iff in Hl. by rewrite Hl in Hw. }
    assert (Hk : watchers s !! k = Some q).
    { apply elem_of_map_to_list. rewrite Hl. apply list_elem_of_here. }
    destruct (Hall k q Hk) as (wq & Hhq & Hdq).
    cbn [closeAll]. cbv [mbind M_bind Go.bind]. unfold atWatcher. cbn.
    rewrite Hhq, (Close_closed (envs'' 0%nat) wq Hdq). done.
Qed.

(** When a task's [Close] fails, [RemoveWatcher] keeps the job. A
    [RemoveWatcher] that returns an error either found no watcher under the id
    and changed nothing, or found one: then the watcher is out of the map and
    its done channel is closed, the error is the one [Watcher.Close]
    collected, and the task manager is untouched, so the job of the closed
    watcher stays scheduled. Asking again returns the not-found error. *)
Theorem RemoveWatcher_error_keeps_the_job
    (envs envs' : nat → WS.Env) (wid : string) (s s' : Wadjit) (err : error) :
  RemoveWatcher envs wid s = (Ret (Some err), s') →
  (watchers s !! wid = None ∧ s' = s)
  ∨ (∃ p w w',
       watchers s !! wid = Some p ∧ heap s !! p = Some w
       ∧ Watcher.Close envs w = (Ret (Some err), w')
       ∧ doneChan w' = DoneClosed
       ∧ heap s' = <[p := w']> (heap s)
       ∧ watchers s' = delete wid (watchers s)
       ∧ taskManager s' = taskManager s
       ∧ RemoveWatcher envs' wid s'
         = (Ret (Some (fmt_Errorf ("watcher with ID " +:+ wid +:+ " not found"))), s')).
Proof.
  rewrite RemoveWatcher_cases.
  destruct (watchers s !! wid) as [p |] eqn:Hw; [| intros [= _ <-]; by left].
  cbn zeta. destruct (heap s !! p) as [w |] eqn:Hh; [| done].
  destruct (Watcher.Close envs w) as [o w'] eqn:Hc. cbn.
  destruct o as [[e |] | |]; try done. intros [= -> <-].
  right. exists p, w, w'.
  destruct (Close_returns _ _ _ _ Hc) as (_ & Hd & _).
  repeat split; try done.
  rewrite RemoveWatcher_cases. cbn. by rewrite lookup_delete_eq.
Qed.

(** A watcher that fails to activate is started and then forgotten. When
    the pass of [listenForWatchers] that takes a watcher from the queue sees
    [Start] return an error, or the task manager refuse the job, it goes on
    to the next pass: the watcher has its channels made and its forwarder
    running, but it is neither scheduled nor stored. Not being in the map, it
    is out of reach of [RemoveWatcher] (not found) and of [Close], which
    leaves it as it is: nothing closes it. *)
Theorem failed_activation_leaves_a_started_watcher
    (env : ListenEnv) (envs : nat → nat → WS.Env) (envs' : nat → WS.Env)
    (s : Wadjit) (p : nat) (rest : list nat) (w w' : Watcher) (o : option error) :
  watcherListener s = Listening →
  newWatcherChan s = p :: rest →
  cancelled s && pickDone env = false →
  heap s !! p = Some w →
  Start (taskEnvs env) (Some []) w = (Ret o, w') →
  is_Some o ∨ is_Some (refuse env) →
  (∀ k, watchers s !! k ≠ Some p) →
  watchers s !! id w = None →
  let s' := set_heap (<[p := w']> (heap s)) (set_newWatcherChan rest s) in
  listenForWatchersIter env s = (Ret tt, s')
  ∧ doneChan w' = DoneOpen ∧ forwarder w' = Some (Some [])
  ∧ RemoveWatcher envs' (id w') s'
    = (Ret (Some (fmt_Errorf ("watcher with ID " +:+ id w' +:+ " not found"))), s')
  ∧ heap (Close envs s').2 !! p = Some w'.
Proof.
  intros Hl Hq Hc Hh Hs Hfail Hnot Hid s'.
  destruct (Start_started _ _ _ _ _ Hs) as (Hi & Hd & _ & Hf).
  assert (Hlen : (p < length (heap s))%nat) by (eapply lookup_lt_Some, Hh).
  split; [| split; [done | split; [done | split]]].
  - unfold listenForWatchersIter, atWatcher, atTaskManager, ScheduleJob. go.
    rewrite Hl, Hq, Hc. cbn. rewrite Hh, Hs. cbn.
    destruct o as [err |]; [reflexivity |].
    unfold set_heap at 1 2. cbn.
    rewrite list_lookup_insert_eq by done. cbn.
    destruct Hfail as [[? [=]] | [err Hr]]. rewrite Hr. cbn.
    subst s'. by destruct s.
  - rewrite RemoveWatcher_cases. subst s'. cbn. by rewrite Hi, Hid.
  - rewrite Close_unfold. rewrite closeAll_other.
    + subst s'. cbn. by rewrite list_lookup_insert_eq.
    + subst s'. cbn. intros Hin. apply list_elem_of_fmap in Hin as ([k q] & -> & Hin).
      apply elem_of_map_to_list in Hin. by apply (Hnot k).
Qed.

(** [Close] does not drain the queue. After a [Close] that returned, a
    watcher still waiting in the queue is out of its reach. The next pass of
    [listenForWatchers] finds both cases of its [select] ready: when it takes
    the queued watcher, the watcher is started, scheduled with the stopped task
    manager (if that accepts the job) and stored, in a manager that is
    closed; when it takes the cancellation, the loop returns and the queued
    watchers are never started. *)
Theorem Close_does_not_drain_the_queue
    (envs : nat → nat → WS.Env) (env : ListenEnv)
    (s s1 : Wadjit) (p : nat) (rest : list nat) (w w' : Watcher) :
  Close envs s = (Ret tt, s1) →
  watcherListener s = Listening →
  newWatcherChan s = p :: rest →
  (∀ k, watchers s !! k ≠ Some p) →
  heap s !! p = Some w →
  Start (taskEnvs env) (Some []) w = (Ret None, w') →
  refuse env = None →
  cancelled s1 = true ∧ newWatcherChan s1 = p :: rest
  ∧ if pickDone env
    then listenForWatchersIter env s1 = (Ret tt, set_watcherListener Returned s1)
    else ∃ s2, listenForWatchersIter env s1 = (Ret tt, s2)
               ∧ watchers s2 !! id w = Some p
               ∧ heap s2 !! p = Some w' ∧ doneChan w' = DoneOpen
               ∧ is_Some (jobs (taskManager s2) !! id w)
               ∧ stopped (taskManager s2) = true ∧ cancelled s2 = true.
Proof.
  intros Hc Hl Hq Hnot Hh Hs Hr.
  rewrite Close_unfold in Hc. set (s0 := set_taskManager _ _) in Hc.
  destruct (closeAll_frame envs 0 (map_to_list (watchers s)) s0) as (Hfw & Hft & Hfq & Hfl & Hfc).
  pose proof (closeAll_other envs 0 (map_to_list (watchers s)) s0 p) as Hfh.
  rewrite Hc in Hfw, Hft, Hfq, Hfl, Hfc, Hfh. cbn in Hfw, Hft, Hfq, Hfl, Hfc, Hfh.
  assert (Hh1 : heap s1 !! p = Some w).
  { rewrite Hfh; [done |].
    intros Hin. apply list_elem_of_fmap in Hin as ([k q] & -> & Hin).
    apply elem_of_map_to_list in Hin. by apply (Hnot k). }
  destruct (Start_started _ _ _ _ _ Hs) as (Hi & Hd & _ & _).
  split; [done |]. split; [by rewrite Hfq |].
  destruct (pickDone env) eqn:Hp.
  - unfold listenForWatchersIter. go. rewrite Hfl, Hl, Hfq, Hq, Hfc, Hp. reflexivity.
  - eexists. split.
    + apply (listenForWatchersIter_activates env s1 p rest w w');
        [by rewrite Hfl | by rewrite Hfq | by rewrite Hfc, Hp | done | done | done].
    + cbn. unfold Watcher.ID. rewrite Hi, !lookup_insert_eq.
      rewrite list_lookup_insert_eq by (eapply lookup_lt_Some, Hh1).
      rewrite Hft. by repeat split.
Qed.

(** The response loop while the manager is open. *)
Lemma listenForResponses_open (steps : list (WatcherResponse * bool)) (s : Wadjit) :
  responseListener s = true → cancelled s = false →
  WadjitRun.listenForResponses steps s
  = (Blocked, set_userChan (userChan s ++ steps.*1) s).
Proof.
  revert s. induction steps as [| [r pick] rest IH]; intros s Hl Hc.
  - cbn. unfold listenForResponsesIter. go. rewrite Hl, Hc. cbn.
    rewrite app_nil_r. by destruct s.
  - cbn [WadjitRun.listenForResponses]. unfold listenForResponsesIter at 1. go.
    rewrite Hl, Hc. cbn. rewrite Hl. rewrite IH by done.
    cbn. rewrite <- app_assoc. reflexivity.
Qed.

(** The responses reach the user in order, until the manager is closed.
    While the context is live, whatever the watchers offer on the internal
    channel is passed on to the user's channel unchanged and in the order
    offered, and the loop then waits for more. Once the context is cancelled,
    the loop returns as soon as its [select] takes the cancellation: with
    nothing offered it returns at once, and a record offered at that moment
    is dropped with all that follow. A loop that has returned passes on
    nothing. *)
Theorem responses_reach_the_user_in_order
    (steps : list (WatcherResponse * bool)) (s : Wadjit) :
  responseListener s = true →
  (cancelled s = false →
     WadjitRun.listenForResponses steps s
     = (Blocked, set_userChan (userChan s ++ steps.*1) s))
  ∧ (cancelled s = true →
       WadjitRun.listenForResponses [] s = (Ret tt, set_responseListener false s)
       ∧ ∀ r rest, WadjitRun.listenForResponses ((r, true) :: rest) s
                   = (Ret tt, set_responseListener false s))
  ∧ (∀ more, userChan (WadjitRun.listenForResponses more
                         (set_responseListener false s)).2 = userChan s).
Proof.
  intros Hl. split; [| split].
  - by apply listenForResponses_open.
  - intros Hc. split.
    + cbn. unfold listenForResponsesIter. go. by rewrite Hl, Hc.
    + intros r rest. cbn [WadjitRun.listenForResponses].
      unfold listenForResponsesIter. go. by rewrite Hl, Hc.
  - intros more. destruct more as [| [r pick] rest]; cbn;
      unfold listenForResponsesIter; go; reflexivity.
Qed.

Section WithValidate.
Variable Validate : M Watcher (option error).

(** [ResponsesChannel] returns once. The call that returns lets
    [listenForWatchers] past its one receive on the gate; whatever happens to
    the manager afterwards, no later [ResponsesChannel] returns: each is
    parked on its send, which nobody receives, and changes nothing. *)
Theorem ResponsesChannel_returns_once
    (s s1 : Wadjit) (ch : list WatcherResponse) (evs : list event) :
  ResponsesChannel s = (Ret ch, s1) →
  ch = userChan s
  ∧ ResponsesChannel (run Validate evs s1) = (Blocked, run Validate evs s1).
Proof.
  intros Hr.
  assert (Hs1 : ch = userChan s ∧ watcherListener s1 = Listening).
  { revert Hr. unfold ResponsesChannel. go.
    destruct (watcherListener s); cbn; try done. by intros [= <- <-]. }
  destruct Hs1 as [-> Hs1]. split; [done |].
  assert (Hne : watcherListener (run Validate evs s1) ≠ AwaitConsume).
  { intros Ha. apply run_listener in Ha. by rewrite Hs1 in Ha. }
  unfold ResponsesChannel. go.
  by destruct (watcherListener (run Validate evs s1)).
Qed.

End WithValidate.

Lemma manager_Close_is_not_idempotent_witness :
  (Close Scenario.worlds (Close Scenario.worlds Scenario.managing).2).1 = Panicked.
Proof.
  apply (manager_Close_is_not_idempotent Scenario.worlds Scenario.worlds Scenario.world
           Scenario.managing (Close Scenario.worlds Scenario.managing).2 "watcher-1" 0);
    reflexivity.
Defined.

Lemma RemoveWatcher_error_keeps_the_job_witness :
  taskManager (RemoveWatcher Scenario.broken "watcher-1" Scenario.managing).2
  = taskManager Scenario.managing.
Proof.
  destruct (RemoveWatcher_error_keeps_the_job Scenario.broken Scenario.world "watcher-1"
              Scenario.managing
              (RemoveWatcher Scenario.broken "watcher-1" Scenario.managing).2
              (MultiError [WSError (mkWsError None "broken pipe")])
              ltac:(reflexivity))
    as [[Hn _] | (p & w & w' & _ & _ & _ & _ & _ & _ & Ht & _)];
    [discriminate Hn | exact Ht].
Defined.

Lemma failed_activation_leaves_a_started_watcher_witness :
  heap (Close Scenario.worlds
          (set_heap (<[0%nat := (Start Scenario.world (Some []) Scenario.fresh).2]>
                       (heap Scenario.queued))
             (set_newWatcherChan [] Scenario.queued))).2 !! 0%nat
  = Some (Start Scenario.world (Some []) Scenario.fresh).2.
Proof.
  apply (failed_activation_leaves_a_started_watcher Scenario.refusing Scenario.worlds
           Scenario.world Scenario.queued 0 [] Scenario.fresh
           (Start Scenario.world (Some []) Scenario.fresh).2 None);
    first [reflexivity | right; eexists; reflexivity
          | intros k; cbn; by rewrite lookup_empty].
Defined.

Lemma Close_does_not_drain_the_queue_witness :
  cancelled (Close Scenario.worlds Scenario.queued).2 = true.
Proof.
  apply (Close_does_not_drain_the_queue Scenario.worlds (Scenario.accepting false)
           Scenario.queued (Close Scenario.worlds Scenario.queued).2 0 [] Scenario.fresh
           (Start Scenario.world (Some []) Scenario.fresh).2);
    first [reflexivity | intros k; cbn; by rewrite lookup_empty].
Defined.

Lemma responses_reach_the_user_in_order_witness :
  WadjitRun.listenForResponses
    [(errorResponse (LibError "x") "task-0" "watcher-1" "http://peer/", true)]
    Scenario.managing
  = (Blocked,
     set_userChan
       (userChan Scenario.managing
        ++ [(errorResponse (LibError "x") "task-0" "watcher-1" "http://peer/", true)].*1)
       Scenario.managing).
Proof.
  apply (responses_reach_the_user_in_order
           [(errorResponse (LibError "x") "task-0" "watcher-1" "http://peer/", true)]
           Scenario.managing); reflexivity.
Defined.

Lemma ResponsesChannel_returns_once_witness :
  ResponsesChannel (run (mret None) Toy.scenario (ResponsesChannel New).2)
  = (Blocked, run (mret None) Toy.scenario (ResponsesChannel New).2).
Proof.
  apply (ResponsesChannel_returns_once (mret None) New (ResponsesChannel New).2 []
           Toy.scenario).
  reflexivity.
Defined.

End WadjitMore.

(* ===================================================================== *)
(** * Properties of the scheduler (pkg/scheduler/scheduler.go) *)
(* ===================================================================== *)
Module SchedProps.
Import Sched.

Ltac go :=
  cbv [mbind mret M_bind M_ret Go.bind Go.ret Go.get Go.modify Go.block Go.panic
       Go.defer Go.deref Lock Unlock RLock RUnlock send rescheduleAt];
  cbn.

Lemma wrap32_succ (n : Z) : wrap32 (wrap32 n + 1) = wrap32 (n + 1).
Proof.
  unfold wrap32. f_equal.
  replace ((n + 2 ^ 31) mod 2 ^ 32 - 2 ^ 31 + 1 + 2 ^ 31)
    with ((n + 2 ^ 31) mod 2 ^ 32 + 1) by lia.
  rewrite Zplus_mod_idemp_l. f_equal. lia.
Qed.

Lemma wrap32_small (n : Z) : - 2 ^ 31 ≤ n < 2 ^ 31 → wrap32 n = n.
Proof. intros Hn. unfold wrap32. rewrite Z.mod_small; lia. Qed.

Section WithTask.
Context {Task : Type} (Task_Cadence : Task → Z).

Implicit Types (s : Scheduler Task) (st : ScheduledTask Task).

(** [Stop] may be called again. On a scheduler whose mutex is free,
    [Stop] returns with the stop channel closed and nothing else changed; a
    second [Stop] returns as well and changes nothing (the [select] guards
    the [close]). Once stopped, a pass of [run] that finds no tick ready
    returns; one that finds a tick ready as well may still run the tick. *)
Theorem Stop_may_be_repeated s :
  free s →
  Stop s = (Ret tt, set_stopClosed true s)
  ∧ Stop (set_stopClosed true s) = (Ret tt, set_stopClosed true s)
  ∧ (∀ pick, run None pick (set_stopClosed true s)
             = (Ret false, set_running (pred (running s)) (set_stopClosed true s)))
  ∧ (∀ now, run (Some now) false (set_stopClosed true s)
            = (tick now ;; mret true) (set_stopClosed true s))
  ∧ (stopClosed s = false → ∀ pick, run None pick s = (Blocked, s)).
Proof.
  intros Hf. destruct s as [m sc ch ts gs rn]. unfold free in Hf. cbn in Hf. subst m.
  repeat split.
  - unfold Stop. go. by destruct sc.
  - intros Hsc pick. cbn in Hsc. subst sc. reflexivity.
Qed.

(** ** The tick *)

Lemma inGroup_app groupID (l1 l2 : list (ScheduledTask Task)) :
  inGroup groupID (l1 ++ l2) = (inGroup groupID l1 + inGroup groupID l2)%nat.
Proof. unfold inGroup. by rewrite filter_app, length_app. Qed.

Lemma inGroup_singleton groupID st :
  inGroup groupID [st] = if decide (TaskGroupID st = groupID) then 1%nat else 0%nat.
Proof.
  unfold inGroup. rewrite filter_cons, filter_nil. by destruct (decide _).
Qed.

Lemma inGroup_insert groupID (l : list (ScheduledTask Task)) i st st' :
  l !! i = Some st → TaskGroupID st' = TaskGroupID st →
  inGroup groupID (<[i := st']> l) = inGroup groupID l.
Proof.
  revert i. induction l as [| x l IH]; intros i Hl Hg; [done |].
  destruct i as [| i]; cbn in Hl.
  - injection Hl as ->. unfold inGroup.
    change (<[0%nat := st']> (st :: l)) with (st' :: l).
    rewrite !filter_cons, Hg. by destruct (decide _).
  - specialize (IH i Hl Hg). unfold inGroup in *.
    change (<[S i := st']> (x :: l)) with (x :: <[i := st']> l).
    rewrite !filter_cons. destruct (decide _); cbn; by rewrite IH.
Qed.

Lemma inGroup_none groupID (l : list (ScheduledTask Task)) :
  Forall (λ st, TaskGroupID st ≠ groupID) l → inGroup groupID l = 0%nat.
Proof.
  induction 1 as [| st l Hst _ IH]; [done |].
  unfold inGroup in *. rewrite filter_cons. by destruct (decide _).
Qed.

Lemma steady_reschedule now s i st :
  steady s → tasks s !! i = Some st →
  ∀ ch, steady (mkScheduler (mkRWMutex false 0) (stopClosed s) ch
                  (<[i := reschedule now st]> (tasks s)) (taskGroups s) (running s)).
Proof.
  intros [Hf [Hk Hc]] Hi ch. split; [done |]. split; cbn [tasks taskGroups].
  - intros j st' Hj Hne.
    apply list_lookup_insert_Some in Hj as [(<- & <- & _) | (_ & Hj)].
    + cbn. by apply (Hk i st).
    + by apply (Hk j st').
  - intros g grp Hg Hne. rewrite (inGroup_insert g _ i st) by done. by apply Hc.
Qed.

Lemma steady_channel s ch :
  steady s →
  steady (mkScheduler (mkRWMutex false 0) (stopClosed s) ch (tasks s) (taskGroups s)
            (running s)).
Proof. by intros [Hf [Hk Hc]]. Qed.

(** What one round of the second loop of a tick does to a steady
    scheduler: it moves on from a steady scheduler with the same number of
    tasks, or is parked on the send in such a one. *)
Lemma sendDue_step now i rest s st :
  steady s → tasks s !! i = Some st →
  ∃ s1, steady s1 ∧ length (tasks s1) = length (tasks s)
        ∧ taskGroups s1 = taskGroups s
        ∧ (sendDue now (i :: rest) s = sendDue now rest s1
           ∨ sendDue now (i :: rest) s = (Blocked, s1)).
Proof.
  intros Hs Hi. pose proof Hs as [Hf [Hk Hc]].
  pose proof (steady_reschedule now s i st Hs Hi) as Hre.
  pose proof (steady_channel s) as Hch.
  destruct s as [m sc ch ts gs rn]. unfold free in Hf. cbn in *. subst m.
  cbn [sendDue]. generalize (@sendDue Task now rest) as k. intros k.
  go. rewrite Hi. cbn.
  case_bool_decide as Hg; cbn.
  - destruct ch as [[snt [| n]] |]; cbn.
    + eexists. split; [apply (Hre (Some (mkTaskChan snt 0))) |].
      split; [cbn; by rewrite length_insert |]. split; [done | by right].
    + eexists. split; [apply (Hre (Some (mkTaskChan (snt ++ [Task_ st]) n))) |].
      split; [cbn; by rewrite length_insert |]. split; [done | by left].
    + eexists. split; [apply (Hre None) |].
      split; [cbn; by rewrite length_insert |]. split; [done | by right].
  - destruct (Hk i st Hi Hg) as [grp Hgrp]. rewrite Hgrp. cbn.
    destruct (0 <? TaskCount grp); cbn.
    + destruct ch as [[snt [| n]] |]; cbn.
      * eexists. split; [apply (Hre (Some (mkTaskChan snt 0))) |].
        split; [cbn; by rewrite length_insert |]. split; [done | by right].
      * eexists. split; [apply (Hre (Some (mkTaskChan (snt ++ [Task_ st]) n))) |].
        split; [cbn; by rewrite length_insert |]. split; [done | by left].
      * eexists. split; [apply (Hre None) |].
        split; [cbn; by rewrite length_insert |]. split; [done | by right].
    + eexists. split; [apply (Hch ch Hs) |]. split; [done |]. split; [done | by left].
Qed.

Lemma sendDue_steady now ptrs s :
  steady s → Forall (λ i, i < length (tasks s))%nat ptrs →
  steady (sendDue now ptrs s).2 ∧ (sendDue now ptrs s).1 ≠ Panicked
  ∧ taskGroups (sendDue now ptrs s).2 = taskGroups s.
Proof.
  revert s. induction ptrs as [| i rest IH]; intros s Hs Hall; [done |].
  inversion Hall as [| ? ? Hi Hrest]; subst.
  apply lookup_lt_is_Some in Hi as [st Hi].
  destruct (sendDue_step now i rest s st Hs Hi) as (s1 & Hs1 & Hlen & Hg & [-> | ->]).
  - rewrite <- Hg. apply IH; [done |]. by rewrite Hlen.
  - done.
Qed.

Lemma tasksToExecute_bound now k (l : list (ScheduledTask Task)) :
  Forall (λ i, k ≤ i < k + length l)%nat (tasksToExecute now k l).
Proof.
  revert k. induction l as [| st l IH]; intros k; cbn; [constructor |].
  assert (Hl : Forall (λ i, k ≤ i < k + S (length l))%nat (tasksToExecute now (S k) l)).
  { eapply Forall_impl; [apply IH |]. cbn. intros i ?. lia. }
  destruct (due now st); [constructor; [lia | done] | done].
Qed.

Lemma tick_steady now s :
  steady s → steady (tick now s).2 ∧ (tick now s).1 ≠ Panicked
  ∧ taskGroups (tick now s).2 = taskGroups s.
Proof.
  intros Hs. pose proof Hs as [Hf _].
  assert (Ht : tick now s = sendDue now (tasksToExecute now 0 (tasks s)) s).
  { destruct s as [m sc ch ts gs rn]. unfold free in Hf. cbn in Hf. subst m.
    unfold tick. go. reflexivity. }
  rewrite Ht. apply sendDue_steady; [done |].
  eapply Forall_impl; [apply tasksToExecute_bound |]. cbn. intros i ?. lia.
Qed.

Lemma AddTask_steady now task s :
  steady s →
  AddTask Task_Cadence now task s
  = (Ret tt, set_tasks (tasks s ++ [mkScheduledTask (Task_Cadence task)
                                      (now + Task_Cadence task) task ""]) s)
  ∧ steady (AddTask Task_Cadence now task s).2.
Proof.
  intros [Hf [Hk Hc]].
  assert (He : AddTask Task_Cadence now task s
               = (Ret tt, set_tasks (tasks s ++ [mkScheduledTask (Task_Cadence task)
                                                   (now + Task_Cadence task) task ""]) s)).
  { destruct s as [m sc ch ts gs rn]. unfold free in Hf. cbn in Hf. subst m.
    unfold AddTask. go. reflexivity. }
  split; [exact He |]. rewrite He. cbn [snd].
  split; [by destruct s |]. split; cbn [set_tasks tasks taskGroups].
  - intros i st Hi Hne. apply lookup_app_Some in Hi as [Hi | [_ Hi]]; [by eapply Hk |].
    apply list_lookup_singleton_Some in Hi as [_ <-]. done.
  - intros g grp Hg Hne. rewrite inGroup_app, inGroup_singleton. cbn [TaskGroupID].
    destruct (decide ("" = g)) as [<- | _]; [done |].
    rewrite Nat.add_0_r. by apply Hc.
Qed.

Lemma AddTaskToGroup_cases now task groupID s :
  free s →
  AddTaskToGroup Task_Cadence now task groupID s =
    let group := default (mkScheduledTaskGroup groupID 0 0) (taskGroups s !! groupID) in
    if wrap32 (waitGroup group + 1) <? 0
    then (Panicked, overflown groupID group s)
    else (Ret tt, joined Task_Cadence now task groupID group s).
Proof.
  intros Hf. destruct s as [m sc ch ts gs rn]. unfold free in Hf. cbn in Hf. subst m.
  unfold AddTaskToGroup, joined, overflown. go.
  destruct (gs !! groupID) as [grp |]; cbn.
  - rewrite !insert_insert_eq.
    destruct (wrap32 (waitGroup grp + 1) <? 0); reflexivity.
  - rewrite !insert_insert_eq. destruct (wrap32 (0 + 1) <? 0); reflexivity.
Qed.

Lemma joined_steady now task groupID grp s :
  steady s →
  waitGroup grp + 1 < 2 ^ 31 →
  (groupID ≠ "" → ID grp = groupID
     ∧ TaskCount grp = wrap32 (Z.of_nat (inGroup groupID (tasks s)))
     ∧ waitGroup grp = Z.of_nat (inGroup groupID (tasks s))) →
  steady (joined Task_Cadence now task groupID grp s).
Proof.
  intros [Hf [Hk Hc]] Hlt Hgrp. split; [exact Hf |].
  split; unfold joined; cbn [tasks taskGroups].
  - intros i st Hi Hne. apply lookup_app_Some in Hi as [Hi | [_ Hi]].
    + destruct (decide (TaskGroupID st = groupID)) as [-> | Hd].
      * rewrite lookup_insert_eq. by eexists.
      * rewrite lookup_insert_ne by done. by eapply Hk.
    + apply list_lookup_singleton_Some in Hi as [_ <-]. cbn [TaskGroupID].
      rewrite lookup_insert_eq. by eexists.
  - intros g g' Hg Hne. rewrite inGroup_app, inGroup_singleton. cbn [TaskGroupID].
    destruct (decide (groupID = g)) as [<- | Hd].
    + rewrite lookup_insert_eq in Hg. injection Hg as <-. cbn [ID TaskCount waitGroup].
      destruct (Hgrp Hne) as (Hid & Htc & Hwg).
      split; [done |]. split; [lia |]. split.
      * rewrite Htc, wrap32_succ. f_equal. lia.
      * rewrite wrap32_small by lia. lia.
    + rewrite lookup_insert_ne in Hg by done.
      rewrite Nat.add_0_r. by apply Hc.
Qed.

(** The group [AddTaskToGroup] finds or makes, in a steady scheduler. *)
Lemma found_group groupID s :
  steady s →
  let group := default (mkScheduledTaskGroup groupID 0 0) (taskGroups s !! groupID) in
  groupID ≠ "" → ID group = groupID
    ∧ TaskCount group = wrap32 (Z.of_nat (inGroup groupID (tasks s)))
    ∧ waitGroup group = Z.of_nat (inGroup groupID (tasks s)).
Proof.
  intros [Hf [Hk Hc]] group Hne. subst group.
  destruct (taskGroups s !! groupID) as [grp |] eqn:Hl; cbn.
  - destruct (Hc groupID grp Hl Hne) as (? & _ & ? & ?). done.
  - split; [done |].
    assert (Hz : inGroup groupID (tasks s) = 0%nat).
    { apply inGroup_none, Forall_lookup. intros i st Hi Heq.
      destruct (Hk i st Hi) as [grp Hgrp]; [by rewrite Heq |].
      rewrite Heq, Hl in Hgrp. done. }
    by rewrite Hz.
Qed.

Lemma AddTaskToGroup_steady n now task groupID s :
  steady s → bounded n s → Z.of_nat n + 1 < 2 ^ 31 →
  (AddTaskToGroup Task_Cadence now task groupID s).1 = Ret tt
  ∧ steady (AddTaskToGroup Task_Cadence now task groupID s).2
  ∧ bounded (S n) (AddTaskToGroup Task_Cadence now task groupID s).2.
Proof.
  intros Hs Hb Hn. pose proof Hs as [Hf _].
  rewrite (AddTaskToGroup_cases now task groupID s Hf). cbn zeta.
  set (group := default _ _).
  assert (Hw : 0 ≤ waitGroup group ≤ Z.of_nat n).
  { subst group. destruct (taskGroups s !! groupID) as [grp |] eqn:Hl; cbn; [| lia].
    by apply (Hb groupID). }
  rewrite wrap32_small by lia.
  destruct (waitGroup group + 1 <? 0) eqn:Hneg; [apply Z.ltb_lt in Hneg; lia |].
  split; [done |]. split.
  - apply joined_steady; [done | lia | by apply found_group].
  - intros g grp. unfold joined. cbn [snd taskGroups]. intros Hg.
    destruct (decide (groupID = g)) as [<- | Hd].
    + rewrite lookup_insert_eq in Hg. injection Hg as <-. cbn [waitGroup].
      rewrite wrap32_small by lia. lia.
    + rewrite lookup_insert_ne in Hg by done. specialize (Hb g grp Hg). lia.
Qed.

Lemma Stop_cases s : free s → Stop s = (Ret tt, set_stopClosed true s).
Proof.
  intros Hf. destruct s as [m sc ch ts gs rn]. unfold free in Hf. cbn in Hf. subst m.
  unfold Stop. go. by destruct sc.
Qed.

Lemma run_steady tk pick s :
  steady s → steady (run tk pick s).2 ∧ (run tk pick s).1 ≠ Panicked
  ∧ taskGroups (run tk pick s).2 = taskGroups s.
Proof.
  intros Hs. unfold run. cbv [mbind mret M_bind M_ret Go.bind Go.ret Go.get Go.modify Go.block].
  destruct tk as [now |].
  - destruct (stopClosed s && pick); [by destruct Hs |].
    destruct (tick_steady now s Hs) as (Ht & Hp & Hg).
    by destruct (tick now s) as [[[] | |] s1].
  - destruct (stopClosed s); by destruct Hs.
Qed.

(** An operation other than [AddTaskToGroup] keeps a steady scheduler
    steady, and its groups as they are. *)
Lemma exec_steady o s :
  steady s → groupAdds [o] = 0%nat →
  steady (exec Task_Cadence o s) ∧ taskGroups (exec Task_Cadence o s) = taskGroups s.
Proof.
  intros Hs Ho. destruct o as [now task | now task g | | tk pick | | n]; cbn [exec];
    try discriminate Ho.
  - destruct (AddTask_steady now task s Hs) as [He Hst]. split; [done |].
    by rewrite He.
  - by destruct Hs.
  - destruct (run_steady tk pick s Hs) as (? & _ & ?). done.
  - destruct Hs as [Hf Hg]. rewrite (Stop_cases s Hf). by split.
  - by destruct Hs.
Qed.

Lemma execs_steady ops n s :
  steady s → bounded n s → Z.of_nat (n + groupAdds ops) < 2 ^ 31 →
  steady (execs Task_Cadence ops s)
  ∧ bounded (n + groupAdds ops) (execs Task_Cadence ops s).
Proof.
  revert n s. induction ops as [| o ops IH]; intros n s Hs Hb Hn.
  { cbn. by rewrite Nat.add_0_r. }
  cbn [execs foldl]. change (foldl _ ?s0 ops) with (execs Task_Cadence ops s0).
  destruct (decide (groupAdds [o] = 0%nat)) as [Ho | Ho].
  - destruct (exec_steady o s Hs Ho) as [Hs' Hg'].
    assert (Hga : groupAdds (o :: ops) = groupAdds ops) by by destruct o.
    rewrite Hga in Hn |- *. apply IH; [done | | done].
    intros g grp. rewrite Hg'. apply Hb.
  - destruct o as [| now task g | | | |]; try done.
    cbn [groupAdds] in Hn |- *. cbn [exec].
    destruct (AddTaskToGroup_steady n now task g s Hs Hb) as (_ & Hs' & Hb'); [lia |].
    replace (n + S (groupAdds ops))%nat with (S n + groupAdds ops)%nat by lia.
    apply IH; [done | done | lia].
Qed.

(** The scheduler keeps its groups in order. Whatever has happened to a
    scheduler since [NewScheduler] (tasks added, with and without group, loops
    started, ticks, stops, the pool taking tasks), as long as fewer than 2^31
    tasks were added to groups: between two calls nobody holds the mutex,
    every task with a group id has its group in the map, every named group
    counts its tasks, in [TaskCount] and in its wait group, and no wait group
    counts more than the tasks added to groups. So [AddTask] and [Stop]
    return, [AddTaskToGroup] returns while one more task keeps the number
    below 2^31, a pass of [run] never panics (the group of a due task is never
    nil), and the check of [TaskCount] in [run] holds for every grouped task.
    A wait group that has counted 2^31 - 1 tasks overflows on the next
    [AddTaskToGroup]: the call panics after the group has been counted up,
    the task is not added, and the mutex is given back. *)
Theorem scheduler_keeps_its_groups :
  ∀ (taskChan : option (TaskChan Task)) (ops : list (op Task)),
    Z.of_nat (groupAdds ops) < 2 ^ 31 →
    let s := execs Task_Cadence ops (NewScheduler taskChan) in
    free s ∧ grouped s ∧ bounded (groupAdds ops) s
    ∧ (∀ now task, (AddTask Task_Cadence now task s).1 = Ret tt)
    ∧ (∀ now task groupID,
         Z.of_nat (groupAdds ops) + 1 < 2 ^ 31 →
         (AddTaskToGroup Task_Cadence now task groupID s).1 = Ret tt)
    ∧ (Stop s).1 = Ret tt
    ∧ (∀ tk pick, (run tk pick s).1 ≠ Panicked)
    ∧ (∀ i st, tasks s !! i = Some st → TaskGroupID st ≠ "" →
         ∃ group, taskGroups s !! TaskGroupID st = Some group ∧ 0 < TaskCount group)
    ∧ (∀ (s' : Scheduler Task) now task groupID group,
         free s' → taskGroups s' !! groupID = Some group →
         waitGroup group = 2 ^ 31 - 1 →
         AddTaskToGroup Task_Cadence now task groupID s'
         = (Panicked, overflown groupID group s')
         ∧ tasks (overflown groupID group s') = tasks s'
         ∧ free (overflown groupID group s')).
Proof.
  intros taskChan ops Hlt s.
  assert (Hs0 : steady (NewScheduler taskChan)).
  { split; [done |]. split; cbn.
    - intros i st Hi. by rewrite lookup_nil in Hi.
    - intros g grp Hg. by rewrite lookup_empty in Hg. }
  assert (Hb0 : bounded 0 (NewScheduler taskChan)).
  { intros g grp Hg. cbn in Hg. by rewrite lookup_empty in Hg. }
  destruct (execs_steady ops 0 (NewScheduler taskChan) Hs0 Hb0) as [Hs Hb]; [by cbn |].
  cbn [Nat.add] in Hb. fold s in Hs, Hb.
  pose proof Hs as [Hf [Hk Hc]].
  split; [done |]. split; [done |]. split; [done |].
  split; [| split; [| split; [| split; [| split]]]].
  - intros now task. by rewrite (proj1 (AddTask_steady now task s Hs)).
  - intros now task g Hn. by apply (AddTaskToGroup_steady (groupAdds ops)).
  - by rewrite (Stop_cases s Hf).
  - intros tk pick. by apply run_steady.
  - intros i st Hi Hne. destruct (Hk i st Hi Hne) as [grp Hgrp].
    exists grp. split; [done |].
    destruct (Hc _ grp Hgrp Hne) as (_ & Hpos & -> & Hwg).
    specialize (Hb _ grp Hgrp). rewrite wrap32_small; lia.
  - intros s' now task g grp Hf' Hg Hw.
    rewrite (AddTaskToGroup_cases now task g s' Hf'), Hg. cbn [default].
    change (id grp) with grp. rewrite Hw.
    split; [reflexivity |]. split; [done |]. exact Hf'.
Qed.

(** One round of the second loop on a due task that passes its check and
    finds room in the channel. *)
Lemma sendDue_sends now i rest s st snt n :
  free s → tasks s !! i = Some st → taskChannel s = Some (mkTaskChan snt (S n)) →
  (TaskGroupID st ≠ "" →
   ∃ group, taskGroups s !! TaskGroupID st = Some group ∧ 0 < TaskCount group) →
  sendDue now (i :: rest) s
  = sendDue now rest
      (mkScheduler (rw s) (stopClosed s) (Some (mkTaskChan (snt ++ [Task_ st]) n))
         (<[i := reschedule now st]> (tasks s)) (taskGroups s) (running s)).
Proof.
  intros Hf Hi Hch Hg.
  destruct s as [m sc ch ts gs rn]. unfold free in Hf. cbn in *. subst m ch.
  cbn [sendDue]. generalize (@sendDue Task now rest) as k. intros k.
  go. rewrite Hi. cbn.
  case_bool_decide as Hid; cbn; [reflexivity |].
  destruct (Hg Hid) as (grp & -> & Hpos). cbn.
  apply Z.ltb_lt in Hpos. rewrite Hpos. reflexivity.
Qed.

Lemma sendDue_all now (done todo : list (ScheduledTask Task)) snt rm s :
  free s → tasks s = done ++ todo → taskChannel s = Some (mkTaskChan snt rm) →
  (length (filter (λ st, due now st = true) todo) ≤ rm)%nat →
  (∀ st, st ∈ todo → due now st = true → TaskGroupID st ≠ "" →
     ∃ group, taskGroups s !! TaskGroupID st = Some group ∧ 0 < TaskCount group) →
  sendDue now (tasksToExecute now (length done) todo) s
  = (Ret tt,
     mkScheduler (rw s) (stopClosed s)
       (Some (mkTaskChan (snt ++ (Task_ <$> filter (λ st, due now st = true) todo))
                (rm - length (filter (λ st, due now st = true) todo))))
       (done ++ ((λ st, if due now st then reschedule now st else st) <$> todo))
       (taskGroups s) (running s)).
Proof.
  revert done snt rm s.
  induction todo as [| st todo IH]; intros done snt rm s Hf Hts Hch Hrm Hg.
  - cbn. destruct s as [m sc ch ts gs rn]. cbn in *. subst.
    by rewrite !app_nil_r, Nat.sub_0_r.
  - cbn [tasksToExecute fmap list_fmap]. rewrite filter_cons in Hrm |- *.
    destruct (due now st) eqn:Hd.
    + destruct (decide (true = true)) as [_ |]; [| done]. cbn in Hrm.
      destruct rm as [| n]; [lia |].
      rewrite (sendDue_sends now (length done) _ s st snt n Hf); try done.
      2: { rewrite Hts. by apply list_lookup_middle. }
      2: { intros Hne. apply Hg; [apply list_elem_of_here | done | done]. }
      replace (S (length done)) with (length (done ++ [reschedule now st]))
        by (rewrite length_app; cbn; lia).
      rewrite (IH (done ++ [reschedule now st]) (snt ++ [Task_ st]) n).
      * cbn. rewrite <- !app_assoc. reflexivity.
      * by destruct s.
      * cbn. rewrite Hts, <- app_assoc. cbn.
        rewrite insert_app_r_alt by lia. by rewrite Nat.sub_diag.
      * done.
      * lia.
      * cbn. intros st' Hin. apply Hg. by apply list_elem_of_further.
    + destruct (decide (false = true)) as [| _]; [done |].
      replace (S (length done)) with (length (done ++ [st]))
        by (rewrite length_app; cbn; lia).
      rewrite (IH (done ++ [st]) snt rm s); try done.
      * by rewrite <- !app_assoc.
      * by rewrite Hts, <- app_assoc.
      * intros st' Hin. apply Hg. by apply list_elem_of_further.
Qed.

(** A tick sends exactly the due tasks. On a scheduler whose mutex is
    free, when the worker pool takes as many tasks as are due and every due
    task with a group passes the check of its group's count, the tick
    returns; it has sent the due tasks, and only them, once each and in the
    order of [s.tasks], and has set the next execution of each to the time of
    the tick plus its cadence; the other tasks, the groups and the mutex are
    as before. *)
Theorem tick_sends_the_due_tasks now s c :
  free s → taskChannel s = Some c →
  (length (filter (λ st, due now st = true) (tasks s)) ≤ room c)%nat →
  (∀ st, st ∈ tasks s → due now st = true → TaskGroupID st ≠ "" →
     ∃ group, taskGroups s !! TaskGroupID st = Some group ∧ 0 < TaskCount group) →
  tick now s = (Ret tt, ticked now c s).
Proof.
  intros Hf Hch Hrm Hg.
  assert (Ht : tick now s = sendDue now (tasksToExecute now 0 (tasks s)) s).
  { destruct s as [m sc ch ts gs rn]. unfold free in Hf. cbn in Hf. subst m.
    unfold tick. go. reflexivity. }
  rewrite Ht. destruct c as [snt rm].
  exact (sendDue_all now [] (tasks s) snt rm s Hf eq_refl Hch Hrm Hg).
Qed.

End WithTask.

Lemma Stop_may_be_repeated_witness :
  Stop (set_stopClosed true SchedScenario.scheduler)
  = (Ret tt, set_stopClosed true SchedScenario.scheduler).
Proof.
  apply (Stop_may_be_repeated SchedScenario.scheduler). reflexivity.
Defined.

Lemma scheduler_keeps_its_groups_witness :
  (free SchedScenario.scheduler ∧ grouped SchedScenario.scheduler
   ∧ bounded 1 SchedScenario.scheduler
   ∧ (AddTaskToGroup SchedScenario.cadence 7 "d" "g" SchedScenario.scheduler).1 = Ret tt)
  ∧ (AddTaskToGroup SchedScenario.cadence 7 "d" "g" SchedScenario.full
     = (Panicked, overflown "g" SchedScenario.fullGroup SchedScenario.full)
     ∧ tasks (overflown "g" SchedScenario.fullGroup SchedScenario.full)
       = tasks SchedScenario.full
     ∧ free (overflown "g" SchedScenario.fullGroup SchedScenario.full)).
Proof.
  destruct (scheduler_keeps_its_groups SchedScenario.cadence (Some (mkTaskChan [] 8))
              [OpAddTask 0 "a"; OpAddTaskToGroup 0 "b" "g"; OpAddTask 5 "c"]
              ltac:(by vm_compute)) as (Hf & Hg & Hb & _ & Ha & _ & _ & _ & Ho).
  split.
  - split; [exact Hf |]. split; [exact Hg |]. split; [exact Hb |].
    apply Ha. by vm_compute.
  - apply Ho; [reflexivity | apply lookup_insert_eq | reflexivity].
Defined.

Lemma tick_sends_the_due_tasks_witness :
  tick 1003 SchedScenario.scheduler
  = (Ret tt, ticked 1003 (mkTaskChan [] 8) SchedScenario.scheduler).
Proof.
  apply (tick_sends_the_due_tasks 1003 SchedScenario.scheduler (mkTaskChan [] 8)).
  - reflexivity.
  - reflexivity.
  - vm_compute. lia.
  - intros st Hin Hd Hne.
    change (tasks SchedScenario.scheduler)
      with [mkScheduledTask 1000 1000 "a" ""; mkScheduledTask 1000 1000 "b" "g";
            mkScheduledTask 1000 1005 "c" ""] in Hin.
    repeat (apply elem_of_cons in Hin as [-> | Hin]); try done.
    + eexists. split; [reflexivity | reflexivity].
    + by apply elem_of_nil in Hin.
Defined.

End SchedProps.
